(** * Working-context layer: storage, manager, injection and capture

    A shallow embedding of [src/agents/working-context]:
    - [storage.ts]   the SQLite table [context_entries] and its statements,
    - [manager.ts]   [WorkingContextManager] and [truncateToTokenBudget],
    - [injection.ts] [formatRelativeTime], [formatEntry], [formatForSystemPrompt],
    - [capture.ts]   the agent-event listener.

    Conventions of the embedding.
    - JavaScript numbers that hold timestamps, counts and budgets are integers
      of [Z]; [Math.floor (a / b)] is [a / b] and [Math.ceil (a / b)] is
      [(a + b - 1) / b] for positive [b].
    - Strings are [string], one character per code unit; [text.length] is
      [String.length].
    - The table is the list of its rows in ascending [rowid] order, which is
      the order in which SQLite stores them.
    - [Date.now ()] and [randomUUID ()] are read from the environment: every
      operation that calls them takes the value read as an argument.
    - A statement that SQLite rejects, and a zod parse that throws, return an
      error value. *)

From Stdlib Require Import ZArith String Ascii List DecimalString Lia.
From stdpp Require Import base option list sorting strings gmap.

Local Open Scope string_scope.
Local Open Scope list_scope.
Local Open Scope Z_scope.

(** ** types.ts *)

(** [SESSION_TYPES]; a session type is one of these strings at run time and
    in the TEXT column. *)
Definition SESSION_TYPES : list string := ["dm"; "webhook"; "cron"; "group"].

(** [CreateEntryInput] as it reaches [CreateEntrySchema.parse]. *)
Module Input.
Record t : Type := mk {
  sessionKey : string;
  sessionType : string;
  summary : string;
  taskId : option string;
  metadata : option (gmap string string)
}.
End Input.

(** [ContextEntry]. *)
Module Entry.
Record t : Type := mk {
  id : string;
  sessionKey : string;
  sessionType : string;
  summary : string;
  taskId : option string;
  pinned : bool;
  createdAt : Z;
  expiresAt : Z;
  metadata : option (gmap string string)
}.
End Entry.

(** [ContextEntryRow], with the implicit [rowid] column of the table. *)
Module Row.
Record t : Type := mk {
  rowid : Z;
  id : string;
  session_key : string;
  session_type : string;
  summary : string;
  task_id : option string;
  pinned : Z;
  created_at : Z;
  expires_at : Z;
  metadata : option string
}.
End Row.

(** [ManagerConfig] without the path of the database file. *)
Module Config.
Record t : Type := mk {
  maxEntries : Z;
  defaultTtlMinutes : Z
}.
End Config.

(** Errors that reach the caller as exceptions. *)
Inductive Error : Type :=
  | ValidationError   (* zod parse failed *)
  | ConstraintError.  (* SQLITE_CONSTRAINT: the primary key is taken *)

Definition Result (A : Type) : Type := Error + A.

(** [z.string().min(1)]. *)
Definition min1 (s : string) : bool := negb (String.length s =? 0)%nat.

(** [SessionTypeSchema]: membership in the closed enumeration. *)
Definition SessionTypeSchema_ok (s : string) : bool :=
  bool_decide (s ∈ SESSION_TYPES).

(** [CreateEntrySchema.parse]: the validated object, or a throw. *)
Definition CreateEntrySchema_parse (input : Input.t) : Result Input.t :=
  if min1 (Input.sessionKey input)
     && SessionTypeSchema_ok (Input.sessionType input)
     && min1 (Input.summary input)
  then inr input
  else inl ValidationError.

(** [ManagerConfigSchema]: [maxEntries] positive, [defaultTtlMinutes]
    non-negative. *)
Definition ManagerConfigSchema_ok (c : Config.t) : Prop :=
  0 < Config.maxEntries c ∧ 0 ≤ Config.defaultTtlMinutes c.

(** ** The two JSON primitives used on the metadata column *)

Class JSON : Type := {
  JSON_stringify : gmap string string → string;
  JSON_parse : string → gmap string string
}.

(** ** storage.ts *)

Module Storage.
Section storage.
Context `{JSON}.

(** The table [context_entries]. *)
Definition Table : Type := list Row.t.

(** [rowToEntry]. *)
Definition rowToEntry (row : Row.t) : Entry.t :=
  {| Entry.id := Row.id row;
     Entry.sessionKey := Row.session_key row;
     Entry.sessionType := Row.session_type row;
     Entry.summary := Row.summary row;
     Entry.taskId := Row.task_id row;
     Entry.pinned := bool_decide (Row.pinned row = 1);
     Entry.createdAt := Row.created_at row;
     Entry.expiresAt := Row.expires_at row;
     Entry.metadata :=
       match Row.metadata row with
       | Some text => if min1 text then Some (JSON_parse text) else None
       | None => None
       end |}.

(** The rowid SQLite gives a new row: one more than the largest in use. *)
Definition next_rowid (db : Table) : Z :=
  1 + foldr (λ r acc, Z.max (Row.rowid r) acc) 0 db.

(** [insert]: [now] is the reading of [Date.now ()] and [uuid] the value
    of [randomUUID ()]. The statement fails when the primary key is
    already in the table. *)
Definition insert (now : Z) (uuid : string) (input : Input.t)
    (ttlMinutes : Z) (db : Table) : Result (Entry.t * Table) :=
  let entry :=
    {| Entry.id := uuid;
       Entry.sessionKey := Input.sessionKey input;
       Entry.sessionType := Input.sessionType input;
       Entry.summary := Input.summary input;
       Entry.taskId := Input.taskId input;
       Entry.pinned := false;
       Entry.createdAt := now;
       Entry.expiresAt := now + ttlMinutes * 60 * 1000;
       Entry.metadata := Input.metadata input |} in
  let row :=
    {| Row.rowid := next_rowid db;
       Row.id := Entry.id entry;
       Row.session_key := Entry.sessionKey entry;
       Row.session_type := Entry.sessionType entry;
       Row.summary := Entry.summary entry;
       Row.task_id := Entry.taskId entry;
       Row.pinned := if Entry.pinned entry then 1 else 0;
       Row.created_at := Entry.createdAt entry;
       Row.expires_at := Entry.expiresAt entry;
       Row.metadata := JSON_stringify <$> Entry.metadata entry |} in
  if bool_decide (uuid ∈ Row.id <$> db)
  then inl ConstraintError
  else inr (entry, db ++ [row]).

(** [getById]. *)
Definition getById (id : string) (db : Table) : option Entry.t :=
  rowToEntry <$> head (filter (λ r, Row.id r = id) db).

(** [LIMIT n]: a negative [n] means no bound. *)
Definition sql_limit {A} (n : Z) (l : list A) : list A :=
  if n <? 0 then l else take (Z.to_nat n) l.

(** [OFFSET n]: a negative [n] skips nothing. *)
Definition sql_offset {A} (n : Z) (l : list A) : list A :=
  drop (Z.to_nat n) l.

(** [ORDER BY created_at DESC, rowid DESC]. *)
Definition created_desc (r1 r2 : Row.t) : Prop :=
  Row.created_at r2 < Row.created_at r1
  ∨ (Row.created_at r1 = Row.created_at r2 ∧ Row.rowid r2 ≤ Row.rowid r1).

(** [ORDER BY pinned DESC, created_at DESC, rowid DESC]. *)
Definition recent_order (r1 r2 : Row.t) : Prop :=
  Row.pinned r2 < Row.pinned r1
  ∨ (Row.pinned r1 = Row.pinned r2 ∧ created_desc r1 r2).

(** [ORDER BY created_at DESC] over the rows the search of
    [idx_entries_task_id] yields, which come in ascending [rowid]: the
    sort keeps rows of equal [created_at] in that order. *)
Definition task_order (r1 r2 : Row.t) : Prop :=
  Row.created_at r2 < Row.created_at r1
  ∨ (Row.created_at r1 = Row.created_at r2 ∧ Row.rowid r1 ≤ Row.rowid r2).

Global Instance task_order_dec r1 r2 : Decision (task_order r1 r2).
Proof. unfold task_order. apply _. Defined.

Global Instance created_desc_dec r1 r2 : Decision (created_desc r1 r2).
Proof. unfold created_desc. apply _. Defined.

Global Instance recent_order_dec r1 r2 : Decision (recent_order r1 r2).
Proof. unfold recent_order. apply _. Defined.

(** The options of the store's [getRecent]. *)
Record RecentFilter : Type := mkFilter {
  limit : option Z;
  maxAgeMs : option Z;
  sessionType : option string;
  taskId : option string
}.

(** The WHERE clause of [getRecent]. *)
Definition recent_where (now : Z) (o : RecentFilter) (r : Row.t) : Prop :=
  (now < Row.expires_at r ∨ Row.pinned r = 1)
  ∧ match maxAgeMs o with
    | Some age => now - age < Row.created_at r ∨ Row.pinned r = 1
    | None => True
    end
  ∧ match sessionType o with
    | Some st => Row.session_type r = st
    | None => True
    end
  ∧ match taskId o with
    | Some t => Row.task_id r = Some t
    | None => True
    end.

Global Instance recent_where_dec now o r : Decision (recent_where now o r).
Proof.
  unfold recent_where.
  destruct (maxAgeMs o), (sessionType o), (taskId o); apply _.
Defined.

(** The rows selected by [getRecent], before [rowToEntry]. *)
Definition getRecent_rows (now : Z) (o : RecentFilter) (db : Table)
    : list Row.t :=
  sql_limit (default 100 (limit o))
    (merge_sort recent_order (filter (recent_where now o) db)).

(** [getRecent]. *)
Definition getRecent (now : Z) (o : RecentFilter) (db : Table)
    : list Entry.t :=
  rowToEntry <$> getRecent_rows now o db.

(** [getByTaskId]. *)
Definition getByTaskId (taskId : string) (db : Table) : list Entry.t :=
  rowToEntry <$>
    merge_sort task_order (filter (λ r, Row.task_id r = Some taskId) db).

Definition set_pinned (v : Z) (r : Row.t) : Row.t :=
  {| Row.rowid := Row.rowid r; Row.id := Row.id r;
     Row.session_key := Row.session_key r;
     Row.session_type := Row.session_type r;
     Row.summary := Row.summary r; Row.task_id := Row.task_id r;
     Row.pinned := v;
     Row.created_at := Row.created_at r;
     Row.expires_at := Row.expires_at r;
     Row.metadata := Row.metadata r |}.

(** [UPDATE context_entries SET pinned = v WHERE id = ?], with
    [result.changes > 0]. *)
Definition update_pinned (v : Z) (id : string) (db : Table)
    : bool * Table :=
  (bool_decide (id ∈ Row.id <$> db),
   (λ r, if decide (Row.id r = id) then set_pinned v r else r) <$> db).

(** [pin] and [unpin]. *)
Definition pin : string → Table → bool * Table := update_pinned 1.
Definition unpin : string → Table → bool * Table := update_pinned 0.

(** The number of rows a DELETE removed. *)
Definition changes (before after : Table) : Z :=
  Z.of_nat (length before) - Z.of_nat (length after).

(** [delete]. *)
Definition delete (id : string) (db : Table) : bool * Table :=
  let db' := filter (λ r, Row.id r ≠ id) db in
  (0 <? changes db db', db').

(** [deleteByTaskId]. *)
Definition deleteByTaskId (taskId : string) (db : Table) : Z * Table :=
  let db' := filter (λ r, Row.task_id r ≠ Some taskId) db in
  (changes db db', db').

(** [pruneExpired]. *)
Definition pruneExpired (now : Z) (db : Table) : Z * Table :=
  let db' :=
    filter (λ r, ¬ (Row.expires_at r ≤ now ∧ Row.pinned r = 0)) db in
  (changes db db', db').

(** The subquery of [enforceMaxEntries]: the ids of the unpinned rows past
    the first [maxEntries] in descending [created_at]. Rows of equal
    [created_at] come in descending [rowid], as the backward scan of
    [idx_entries_created_at] yields them. *)
Definition enforce_subquery (maxEntries : Z) (db : Table) : list string :=
  Row.id <$>
    sql_offset maxEntries
      (merge_sort created_desc (filter (λ r, Row.pinned r = 0) db)).

(** [enforceMaxEntries]. *)
Definition enforceMaxEntries (maxEntries : Z) (db : Table) : Z * Table :=
  let db' :=
    filter (λ r, Row.id r ∉ enforce_subquery maxEntries db) db in
  (changes db db', db').

(** [count]. *)
Definition count (db : Table) : Z := Z.of_nat (length db).

End storage.
End Storage.

(** ** manager.ts *)

(** [estimateTokens]: [Math.ceil (text.length / 4)]. *)
Definition estimateTokens (text : string) : Z :=
  (Z.of_nat (String.length text) + 3) / 4.

(** The loop of [truncateToTokenBudget]: [result] and [tokensUsed] are the
    two variables of the loop, [entries] what is left to visit. *)
Fixpoint truncate_loop (maxTokens : Z) (entries result : list Entry.t)
    (tokensUsed : Z) : list Entry.t :=
  match entries with
  | [] => result
  | entry :: rest =>
      let entryTokens := estimateTokens (Entry.summary entry) in
      if (maxTokens <? tokensUsed + entryTokens) && (0 <? length result)%nat
      then result
      else truncate_loop maxTokens rest (result ++ [entry])
             (tokensUsed + entryTokens)
  end.

(** [truncateToTokenBudget]. *)
Definition truncateToTokenBudget (entries : list Entry.t) (maxTokens : Z)
    : list Entry.t :=
  truncate_loop maxTokens entries [] 0.

(** [GetRecentOptions]. *)
Module Options.
Record t : Type := mk {
  maxTokens : option Z;
  maxAge : option Z;
  sessionType : option string;
  taskId : option string
}.
End Options.

(** What a method hands back to its caller when it is not a record:
    nothing, or a number. *)
Inductive Returned : Type :=
  | Undefined
  | Number (n : Z).

Module Manager.
Section manager.
Context `{JSON}.
Variable config : Config.t.

(** [pruneExpired]. *)
Definition pruneExpired (now : Z) (db : Storage.Table)
    : Z * Storage.Table :=
  Storage.pruneExpired now db.

(** [add]: [t_prune] and [t_insert] are the two readings of the clock, in
    [pruneExpired] and in [insert]. The table that comes back is the one
    the call leaves behind, also when it throws. *)
Definition add (t_prune t_insert : Z) (uuid : string) (input : Input.t)
    (db : Storage.Table) : Result Entry.t * Storage.Table :=
  match CreateEntrySchema_parse input with
  | inl e => (inl e, db)
  | inr validated =>
      let db1 := (pruneExpired t_prune db).2 in
      match Storage.insert t_insert uuid validated
              (Config.defaultTtlMinutes config) db1 with
      | inl e => (inl e, db1)
      | inr (entry, db2) =>
          (inr entry,
           (Storage.enforceMaxEntries (Config.maxEntries config) db2).2)
      end
  end.

(** [getById]. *)
Definition getById (id : string) (db : Storage.Table) : option Entry.t :=
  Storage.getById id db.

(** [getRecent]. *)
Definition getRecent (now : Z) (options : Options.t) (db : Storage.Table)
    : list Entry.t :=
  let maxAgeMs := (λ m, m * 60 * 1000) <$> Options.maxAge options in
  let entries :=
    Storage.getRecent now
      {| Storage.limit := Some (Config.maxEntries config);
         Storage.maxAgeMs := maxAgeMs;
         Storage.sessionType := Options.sessionType options;
         Storage.taskId := Options.taskId options |} db in
  match Options.maxTokens options with
  | Some maxTokens => truncateToTokenBudget entries maxTokens
  | None => entries
  end.

(** [delete]. *)
Definition delete (id : string) (db : Storage.Table)
    : bool * Storage.Table :=
  Storage.delete id db.

(** [clearByTaskId]. *)
Definition clearByTaskId (taskId : string) (db : Storage.Table)
    : Z * Storage.Table :=
  Storage.deleteByTaskId taskId db.

(** [clear]: the method is declared [void]. *)
Definition clear (now : Z) (db : Storage.Table)
    : Returned * Storage.Table :=
  let entries :=
    Storage.getRecent now
      {| Storage.limit := Some 10000;
         Storage.maxAgeMs := None;
         Storage.sessionType := None;
         Storage.taskId := None |} db in
  (Undefined,
   foldl (λ acc entry, (Storage.delete (Entry.id entry) acc).2) db entries).

(** [count]. *)
Definition count (db : Storage.Table) : Z := Storage.count db.

End manager.
End Manager.

(** ** injection.ts *)

Module Injection.

(** A number inside a template literal. *)
Definition show (n : Z) : string := NilZero.string_of_int (Z.to_int n).

(** The line feed of ["\n"]. *)
Definition LF : string := String (ascii_of_nat 10) EmptyString.

(** [SESSION_TYPE_LABELS]; a key outside the record reads as
    [undefined]. *)
Definition SESSION_TYPE_LABELS (sessionType : string) : string :=
  if decide (sessionType = "dm") then "DM"
  else if decide (sessionType = "webhook") then "Webhook"
  else if decide (sessionType = "cron") then "Cron"
  else if decide (sessionType = "group") then "Group"
  else "undefined".

(** [formatRelativeTime]. *)
Definition formatRelativeTime (timestampMs nowMs : Z) : string :=
  let diffMs := nowMs - timestampMs in
  let diffMinutes := diffMs / 60000 in
  if diffMinutes <? 1 then "just now"
  else if diffMinutes <? 60 then show diffMinutes +:+ "m ago"
  else
    let diffHours := diffMinutes / 60 in
    if diffHours <? 24 then show diffHours +:+ "h ago"
    else
      let diffDays := diffHours / 24 in
      show diffDays +:+ "d ago".

Definition CHARS_PER_TOKEN : Z := 4.

(** [estimateTokens] of injection.ts. *)
Definition estimateTokens (text : string) : Z :=
  (Z.of_nat (String.length text) + (CHARS_PER_TOKEN - 1)) / CHARS_PER_TOKEN.

(** [formatEntry]. *)
Definition formatEntry (entry : Entry.t) (nowMs : Z) : string :=
  let time := formatRelativeTime (Entry.createdAt entry) nowMs in
  let label := SESSION_TYPE_LABELS (Entry.sessionType entry) in
  let pin := if Entry.pinned entry then " [pinned]" else "" in
  let task :=
    match Entry.taskId entry with
    | Some t => if min1 t then " (task: " +:+ t +:+ ")" else ""
    | None => ""
    end in
  "- [" +:+ time +:+ ", " +:+ label +:+ pin +:+ "]" +:+ task +:+ " "
    +:+ Entry.summary entry.

(** [FormatOptions]. *)
Record FormatOptions : Type := mkOptions {
  maxTokens : option Z;
  now : option Z
}.

Definition header : string := "## Working Context (recent activity)" +:+ LF.

Definition marker : string := "- ... (older entries truncated)".

(** The loop of [formatForSystemPrompt]: [budget] and [lines] are its two
    variables. *)
Fixpoint format_loop (nowMs : Z) (entries : list Entry.t) (budget : Z)
    (lines : list string) : list string :=
  match entries with
  | [] => lines
  | entry :: rest =>
      let line := formatEntry entry nowMs in
      let lineTokens := estimateTokens line in
      if budget - lineTokens <? 0
      then lines ++ [marker]
      else format_loop nowMs rest (budget - lineTokens) (lines ++ [line])
  end.

(** The array [lines] when the loop of [formatForSystemPrompt] is left;
    [clock] is the reading of [Date.now ()]. *)
Definition format_lines (clock : Z) (entries : list Entry.t)
    (options : FormatOptions) : list string :=
  let nowMs := default clock (now options) in
  let maxTokens := default 2000 (maxTokens options) in
  format_loop nowMs entries (maxTokens - estimateTokens header) [].

(** [formatForSystemPrompt]. *)
Definition formatForSystemPrompt (clock : Z) (entries : list Entry.t)
    (options : FormatOptions) : string :=
  if (length entries =? 0)%nat then ""
  else header +:+ String.concat LF (format_lines clock entries options).

End Injection.

(** ** singleton.ts *)

(** The [workingContext] section of the configuration. *)
Module WorkingContext.
Record t : Type := mk {
  enabled : option bool;
  maxEntries : option Z;
  defaultTtlMinutes : option Z;
  maxInjectedTokens : option Z;
  autoCapture : option bool
}.
End WorkingContext.

(** What [resolveWorkingContextConfig] returns. *)
Module Resolved.
Record t : Type := mk {
  enabled : bool;
  maxEntries : Z;
  defaultTtlMinutes : Z;
  maxInjectedTokens : Z;
  autoCapture : bool
}.
End Resolved.

(** [resolveWorkingContextConfig]; [cfg] is [cfg?.workingContext]. *)
Definition resolveWorkingContextConfig (cfg : option WorkingContext.t)
    : Resolved.t :=
  {| Resolved.enabled := default true (cfg ≫= WorkingContext.enabled);
     Resolved.maxEntries := default 20 (cfg ≫= WorkingContext.maxEntries);
     Resolved.defaultTtlMinutes :=
       default 120 (cfg ≫= WorkingContext.defaultTtlMinutes);
     Resolved.maxInjectedTokens :=
       default 2000 (cfg ≫= WorkingContext.maxInjectedTokens);
     Resolved.autoCapture :=
       default true (cfg ≫= WorkingContext.autoCapture) |}.

(** ** capture.ts *)

Module Capture.

(** [AgentEventPayload], as far as the listener reads it: [text] and
    [phase] are [evt.data?.text] and [evt.data?.phase] when they are
    strings. *)
Module Event.
Record t : Type := mk {
  runId : string;
  stream : string;
  sessionKey : option string;
  text : option string;
  phase : option string
}.
End Event.

(** The two module-level maps. *)
Record Buffers : Type := mkBuffers {
  runTextBuffers : gmap string string;
  runSessionKeys : gmap string string
}.

(** What the listener finds outside: the configuration [loadConfig]
    returns ([None] when it throws) and whether
    [getWorkingContextManager] yields a manager rather than throwing. *)
Record Env : Type := mkEnv {
  loadConfig : option (option WorkingContext.t);
  managerReady : bool
}.

(** [sessionKey.split(":")]: [cur] is the part being read, reversed. *)
Fixpoint split_colon_aux (cur : list ascii) (s : string) : list string :=
  match s with
  | EmptyString => [string_of_list_ascii (rev cur)]
  | String c rest =>
      if decide (c = ":"%char)
      then string_of_list_ascii (rev cur) :: split_colon_aux [] rest
      else split_colon_aux (c :: cur) rest
  end.

Definition split_colon (s : string) : list string := split_colon_aux [] s.

(** [mapSessionType]. *)
Definition mapSessionType (sessionKey : string) : string :=
  let parts := split_colon sessionKey in
  let at_ (i : nat) (v : string) := bool_decide (parts !! i = Some v) in
  let long := (4 <=? length parts)%nat in
  if at_ 0%nat "cron" then "cron"
  else if at_ 0%nat "hook" then "webhook"
  else if long && at_ 2%nat "telegram" && at_ 3%nat "group" then "group"
  else if long && at_ 2%nat "discord" && at_ 3%nat "group" then "group"
  else if long && at_ 2%nat "signal" && at_ 3%nat "group" then "group"
  else "dm".

(** What [trim] strips, among the code units below 256: TAB, LF, VT, FF,
    CR, SP and NBSP (U+00A0). *)
Definition is_space (c : ascii) : bool :=
  let n := nat_of_ascii c in
  ((9 <=? n) && (n <=? 13))%nat || (n =? 32)%nat || (n =? 160)%nat.

Fixpoint trim_start (s : string) : string :=
  match s with
  | String c rest => if is_space c then trim_start rest else s
  | EmptyString => EmptyString
  end.

Definition rev_string (s : string) : string :=
  string_of_list_ascii (rev (list_ascii_of_string s)).

(** [text.trim ()]. *)
Definition trim (s : string) : string :=
  rev_string (trim_start (rev_string (trim_start s))).

Definition fallback : string := "Agent turn completed".

(** The summary the listener builds from [runTextBuffers.get (runId)]. *)
Definition summary_of (accumulatedText : option string) : string :=
  match accumulatedText with
  | Some a =>
      if min1 a && min1 (trim a) then
        let text := trim a in
        if (200 <? String.length text)%nat
        then String.substring 0 197 text +:+ "..."
        else text
      else fallback
  | None => fallback
  end.

Definition forget (runId : string) (b : Buffers) : Buffers :=
  {| runTextBuffers := base.delete runId (runTextBuffers b);
     runSessionKeys := base.delete runId (runSessionKeys b) |}.

(** The listener [createWorkingContextCaptureHandler] returns: the
    buffers after the event and the arguments of the calls it made to
    [manager.add]. *)
Definition handler (env : Env) (evt : Event.t) (b : Buffers)
    : Buffers * list Input.t :=
  let sessionKey := Event.sessionKey evt in
  let runId := Event.runId evt in
  if bool_decide (Event.stream evt = "assistant" ∧ is_Some (Event.text evt))
  then
    match sessionKey, Event.text evt with
    | Some key, Some text =>
        if min1 key
        then ({| runTextBuffers := <[runId := text]> (runTextBuffers b);
                 runSessionKeys := <[runId := key]> (runSessionKeys b) |},
              [])
        else (b, [])
    | _, _ => (b, [])
    end
  else
    let lifecyclePhase :=
      if bool_decide (Event.stream evt = "lifecycle")
      then Event.phase evt else None in
    if bool_decide (lifecyclePhase ≠ Some "end") then
      if bool_decide (lifecyclePhase = Some "error")
      then (forget runId b, [])
      else (b, [])
    else
      let resolvedSessionKey :=
        match sessionKey with
        | Some key => Some key
        | None => runSessionKeys b !! runId
        end in
      match resolvedSessionKey with
      | Some key =>
          if min1 key then
            let calls :=
              match loadConfig env with
              | None => []
              | Some cfg =>
                  let wcConfig := resolveWorkingContextConfig cfg in
                  if negb (Resolved.enabled wcConfig)
                     || negb (Resolved.autoCapture wcConfig)
                  then []
                  else if negb (managerReady env) then []
                  else
                    [ {| Input.sessionKey := key;
                         Input.sessionType := mapSessionType key;
                         Input.summary :=
                           summary_of (runTextBuffers b !! runId);
                         Input.taskId := None;
                         Input.metadata := None |} ]
              end in
            (forget runId b, calls)
          else (forget runId b, [])
      | None => (forget runId b, [])
      end.

(** The listener over a sequence of events, oldest first. *)
Fixpoint run (env : Env) (evts : list Event.t) (b : Buffers)
    : Buffers * list Input.t :=
  match evts with
  | [] => (b, [])
  | evt :: rest =>
      let '(b1, calls1) := handler env evt b in
      let '(b2, calls2) := run env rest b1 in
      (b2, calls1 ++ calls2)
  end.

End Capture.

(** ** Notions the statements use *)

Global Instance Row_eq_dec : EqDecision Row.t.
Proof. solve_decision. Defined.

Global Instance Entry_eq_dec : EqDecision Entry.t.
Proof. solve_decision. Defined.

Global Instance Input_eq_dec : EqDecision Input.t.
Proof. solve_decision. Defined.

(** The PRIMARY KEY constraint on [id]: no two rows share one. *)
Definition primary_key (db : Storage.Table) : Prop := NoDup (Row.id <$> db).

(** Rows lie in the table in the order of their insertion, which is the
    order of their rowids. *)
Definition rowid_ascending (db : Storage.Table) : Prop :=
  StronglySorted (λ a b, Row.rowid a < Row.rowid b) db.

(** [a] was inserted before [b]. *)
Definition inserted_before (db : Storage.Table) (a b : Row.t) : Prop :=
  ∃ i j : nat, (i < j)%nat ∧ db !! i = Some a ∧ db !! j = Some b.

(** What [CreateEntrySchema] accepts. *)
Definition valid_input (input : Input.t) : Prop :=
  Input.sessionKey input ≠ ""
  ∧ Input.sessionType input ∈ SESSION_TYPES
  ∧ Input.summary input ≠ "".

(** The statements of the store that change the table. *)
Inductive Mutation : Type :=
  | Insert (now : Z) (uuid : string) (input : Input.t) (ttlMinutes : Z)
  | Pin (id : string)
  | Unpin (id : string)
  | Delete (id : string)
  | DeleteByTaskId (taskId : string)
  | PruneExpired (now : Z)
  | EnforceMaxEntries (maxEntries : Z).

(** The table after a statement; a rejected INSERT leaves it as it was. *)
Definition mutate `{JSON} (db : Storage.Table) (op : Mutation)
    : Storage.Table :=
  match op with
  | Insert now uuid input ttlMinutes =>
      match Storage.insert now uuid input ttlMinutes db with
      | inr (_, db') => db'
      | inl _ => db
      end
  | Pin id => (Storage.pin id db).2
  | Unpin id => (Storage.unpin id db).2
  | Delete id => (Storage.delete id db).2
  | DeleteByTaskId taskId => (Storage.deleteByTaskId taskId db).2
  | PruneExpired now => (Storage.pruneExpired now db).2
  | EnforceMaxEntries maxEntries =>
      (Storage.enforceMaxEntries maxEntries db).2
  end.

(** A statement that is neither an explicit deletion nor the unpinning of
    the row [id]. *)
Definition spares (id : string) (op : Mutation) : Prop :=
  match op with
  | Delete _ | DeleteByTaskId _ => False
  | Unpin i => i ≠ id
  | _ => True
  end.

(** One call of the manager's [add] with what it reads from outside. *)
Module Call.
Record t : Type := mk {
  t_prune : Z;
  t_insert : Z;
  uuid : string;
  input : Input.t
}.
End Call.

(** The table after a series of calls of [add], oldest first. *)
Definition add_all `{JSON} (config : Config.t) (calls : list Call.t)
    (db : Storage.Table) : Storage.Table :=
  foldl (λ acc c,
           (Manager.add config (Call.t_prune c) (Call.t_insert c)
              (Call.uuid c) (Call.input c) acc).2)
        db calls.

(** Between two calls [c] and a later [c'] the clock does not run
    backwards, and the entry of [c] has not expired when [c'] prunes. *)
Definition keeps_alive (ttlMinutes : Z) (c c' : Call.t) : Prop :=
  Call.t_insert c ≤ Call.t_insert c'
  ∧ Call.t_prune c' < Call.t_insert c + ttlMinutes * 60 * 1000.

(** The estimated cost of the summaries of a list of entries. *)
Definition summary_tokens (entries : list Entry.t) : Z :=
  foldr (λ e acc, estimateTokens (Entry.summary e) + acc) 0 entries.

(** The estimated cost of the rendered lines of a list of entries. *)
Definition line_tokens (nowMs : Z) (entries : list Entry.t) : Z :=
  foldr (λ e acc,
           Injection.estimateTokens (Injection.formatEntry e nowMs) + acc)
        0 entries.

(** A codec that serialises every object as the empty one: enough for
    closed examples whose metadata is absent or empty. *)
Definition emptyJSON : JSON :=
  {| JSON_stringify := λ _, "{}"; JSON_parse := λ _, ∅ |}.

(** A row and an input for closed examples. *)
Definition sample_row (rowid : Z) (id : string) (pinned created_at
    expires_at : Z) : Row.t :=
  {| Row.rowid := rowid; Row.id := id;
     Row.session_key := "agent:main:main"; Row.session_type := "dm";
     Row.summary := "Started auth refactor task"; Row.task_id := None;
     Row.pinned := pinned; Row.created_at := created_at;
     Row.expires_at := expires_at; Row.metadata := None |}.

Definition sample_input (summary : string) : Input.t :=
  {| Input.sessionKey := "agent:main:main"; Input.sessionType := "dm";
     Input.summary := summary; Input.taskId := None;
     Input.metadata := None |}.



(** The call of [add] at the end of a run with session key [key]. *)
Definition captured (key : string) (evt : Capture.Event.t)
    (b : Capture.Buffers) : Input.t :=
  {| Input.sessionKey := key;
     Input.sessionType := Capture.mapSessionType key;
     Input.summary :=
       Capture.summary_of
         (Capture.runTextBuffers b !! Capture.Event.runId evt);
     Input.taskId := None;
     Input.metadata := None |}.

(** An environment with the default configuration and a manager. *)
Definition default_env : Capture.Env :=
  {| Capture.loadConfig := Some None; Capture.managerReady := true |}.

Definition no_buffers : Capture.Buffers :=
  {| Capture.runTextBuffers := ∅; Capture.runSessionKeys := ∅ |}.

Definition assistant_event (runId key text : string) : Capture.Event.t :=
  {| Capture.Event.runId := runId; Capture.Event.stream := "assistant";
     Capture.Event.sessionKey := Some key; Capture.Event.text := Some text;
     Capture.Event.phase := None |}.

Definition lifecycle_event (runId : string) (key : option string)
    (phase : string) : Capture.Event.t :=
  {| Capture.Event.runId := runId; Capture.Event.stream := "lifecycle";
     Capture.Event.sessionKey := key; Capture.Event.text := None;
     Capture.Event.phase := Some phase |}.

(** No row was created before a row inserted earlier. *)
Definition created_ascending (db : Storage.Table) : Prop :=
  StronglySorted (λ a b, Row.created_at a ≤ Row.created_at b) db.

(** The row [r] is what the call [c] of [add] stored: the id drawn, the
    fields of the input, not pinned, created at the clock reading of the
    insertion and expiring [ttlMinutes] minutes later. *)
Definition stored_as `{JSON} (ttlMinutes : Z) (r : Row.t) (c : Call.t)
    : Prop :=
  Row.id r = Call.uuid c
  ∧ Row.session_key r = Input.sessionKey (Call.input c)
  ∧ Row.session_type r = Input.sessionType (Call.input c)
  ∧ Row.summary r = Input.summary (Call.input c)
  ∧ Row.task_id r = Input.taskId (Call.input c)
  ∧ Row.pinned r = 0
  ∧ Row.created_at r = Call.t_insert c
  ∧ Row.expires_at r = Call.t_insert c + ttlMinutes * 60 * 1000
  ∧ Row.metadata r = JSON_stringify <$> Input.metadata (Call.input c).

(** Under a cap of [k], every call finds the entries of the [k] calls
    before it, which are the ones still stored, dated no later than its
    own and not expired when it prunes. *)
Definition window_alive (ttlMinutes : Z) (k : nat) (calls : list Call.t)
    : Prop :=
  ∀ (i j : nat) (c c' : Call.t),
    calls !! i = Some c → calls !! j = Some c' → (i < j ≤ i + k)%nat →
    keeps_alive ttlMinutes c c'.

(** What holds of the table after the calls [calls] of [add] on an empty
    table, under a cap of [k] rows: the rows are those of the last [k]
    calls, one for one, in insertion order and in the order of their
    creation times. *)
Definition settled `{JSON} (ttlMinutes : Z) (k : nat)
    (calls : list Call.t) (db : Storage.Table) : Prop :=
  Forall2 (stored_as ttlMinutes) db (drop (length calls - k) calls)
  ∧ rowid_ascending db
  ∧ created_ascending db.

Global Instance valid_input_dec (input : Input.t) :
  Decision (valid_input input).
Proof. unfold valid_input. apply _. Defined.

Global Instance keeps_alive_dec (ttlMinutes : Z) (c c' : Call.t) :
  Decision (keeps_alive ttlMinutes c c').
Proof. unfold keeps_alive. apply _. Defined.

(** A call of [add] at clock reading [t] for closed examples. *)
Definition sample_call (t : Z) (uuid summary : string) : Call.t :=
  {| Call.t_prune := t; Call.t_insert := t; Call.uuid := uuid;
     Call.input := sample_input summary |}.

(** ** singleton.ts, continued: the process-wide manager *)

Module Singleton.

(** The module-level [instance]: the validated configuration the manager
    was built from, when there is a manager. *)
Definition State : Type := option Config.t.

(** [new WorkingContextManager (managerConfig)]: the constructor parses
    the configuration with [ManagerConfigSchema] and throws when it is
    refused. *)
Definition construct (managerConfig : Config.t) : Result Config.t :=
  if (0 <? Config.maxEntries managerConfig)
     && (0 <=? Config.defaultTtlMinutes managerConfig)
  then inr managerConfig
  else inl ValidationError.

(** [getWorkingContextManager]: what it returns ([null] as [None]) and the
    [instance] it leaves. *)
Definition getWorkingContextManager (cfg : option WorkingContext.t)
    (instance : State) : Result (option Config.t) * State :=
  let resolved := resolveWorkingContextConfig cfg in
  if negb (Resolved.enabled resolved) then (inr None, instance)
  else
    match instance with
    | Some manager => (inr (Some manager), instance)
    | None =>
        let managerConfig :=
          {| Config.maxEntries := Resolved.maxEntries resolved;
             Config.defaultTtlMinutes :=
               Resolved.defaultTtlMinutes resolved |} in
        match construct managerConfig with
        | inr manager => (inr (Some manager), Some manager)
        | inl e => (inl e, None)
        end
    end.

(** [closeWorkingContextManager]. *)
Definition closeWorkingContextManager (instance : State) : State :=
  match instance with
  | Some _ => None
  | None => instance
  end.

End Singleton.

(** ** Further notions the statements use *)

(** The rows the cap counts. *)
Definition unpinned (db : list Row.t) : list Row.t :=
  filter (λ r, Row.pinned r = 0) db.

(** The rows [pruneExpired] deletes at the clock reading [now]. *)
Definition expired (now : Z) (db : list Row.t) : list Row.t :=
  filter (λ r, Row.expires_at r ≤ now ∧ Row.pinned r = 0) db.

(** A row as the statements of the store write it: the flag is 0 or 1 and
    the row does not expire before it was created. *)
Definition row_ok (r : Row.t) : Prop :=
  (Row.pinned r = 0 ∨ Row.pinned r = 1)
  ∧ Row.created_at r ≤ Row.expires_at r.

Definition well_formed (db : Storage.Table) : Prop :=
  primary_key db ∧ rowid_ascending db ∧ Forall row_ok db.

(** An INSERT with a time to live that is not negative, or any other
    statement. *)
Definition sane (op : Mutation) : Prop :=
  match op with
  | Insert _ _ _ ttlMinutes => 0 ≤ ttlMinutes
  | _ => True
  end.

(** The lifecycle event that ends a run. *)
Definition is_end (evt : Capture.Event.t) : Prop :=
  Capture.Event.stream evt = "lifecycle"
  ∧ Capture.Event.phase evt = Some "end".

Global Instance is_end_dec (evt : Capture.Event.t) : Decision (is_end evt).
Proof. unfold is_end. apply _. Defined.

(** A part of a session key: no colon inside. *)
Definition no_colon (s : string) : Prop :=
  ":"%char ∉ list_ascii_of_string s.

(** The parts of a session key, joined. *)
Definition join_colon (parts : list string) : string :=
  String.concat ":" parts.

(** A lifecycle event that ends a run, well or badly. *)
Definition is_terminal (evt : Capture.Event.t) : Prop :=
  Capture.Event.stream evt = "lifecycle"
  ∧ (Capture.Event.phase evt = Some "end"
     ∨ Capture.Event.phase evt = Some "error").

(** No filter and the default limit. *)
Definition no_filter : Storage.RecentFilter :=
  Storage.mkFilter None None None None.

Definition no_options : Options.t := Options.mk None None None None.

(** [buildSummary] of capture.ts, on [evt.data?.text] when it is a
    string. *)
Definition buildSummary (text : option string) (sessionKey : string)
    : string :=
  let parts := ["[" +:+ sessionKey +:+ "]"] in
  let parts :=
    match text with
    | Some t =>
        if min1 (Capture.trim t) then
          let text := Capture.trim t in
          let truncated :=
            if (180 <? String.length text)%nat
            then String.substring 0 177 text +:+ "..."
            else text in
          parts ++ [truncated]
        else parts ++ [Capture.fallback]
    | None => parts ++ [Capture.fallback]
    end in
  String.concat " " parts.

(** The code units below 256 that [String.prototype.trim] strips: TAB,
    LF, VT, FF, CR, SP and NBSP. *)
Definition white_space (c : ascii) : Prop :=
  nat_of_ascii c ∈ [9; 10; 11; 12; 13; 32; 160]%nat.

(** [t] is [a] without its leading and trailing white space. *)
Definition trimmed (a t : string) : Prop :=
  ∃ pre post : list ascii,
    list_ascii_of_string a = pre ++ list_ascii_of_string t ++ post
    ∧ Forall white_space pre ∧ Forall white_space post
    ∧ (∀ c, head (list_ascii_of_string t) = Some c → ¬ white_space c)
    ∧ (∀ c, last (list_ascii_of_string t) = Some c → ¬ white_space c).




(** The entry a call of [add] returns and the store is to give back: the
    fields of the input under the id drawn, not pinned, created at the
    clock reading of the insertion and expiring [ttlMinutes] minutes
    later. *)
Definition entry_of (ttlMinutes : Z) (c : Call.t) : Entry.t :=
  {| Entry.id := Call.uuid c;
     Entry.sessionKey := Input.sessionKey (Call.input c);
     Entry.sessionType := Input.sessionType (Call.input c);
     Entry.summary := Input.summary (Call.input c);
     Entry.taskId := Input.taskId (Call.input c);
     Entry.pinned := false;
     Entry.createdAt := Call.t_insert c;
     Entry.expiresAt := Call.t_insert c + ttlMinutes * 60 * 1000;
     Entry.metadata := Input.metadata (Call.input c) |}.

(** [JSON.parse] undoes [JSON.stringify] on the metadata of a call. *)
Definition metadata_round_trip `{JSON} (c : Call.t) : Prop :=
  ∀ m, Input.metadata (Call.input c) = Some m →
    JSON_stringify m ≠ "" ∧ JSON_parse (JSON_stringify m) = m.

(** * Properties *)

(** ** The table and its primary key *)

Section storage_facts.
Context `{JSON}.
Import Storage.

Lemma primary_key_inj (db : Table) (r1 r2 : Row.t) :
  primary_key db → r1 ∈ db → r2 ∈ db → Row.id r1 = Row.id r2 → r1 = r2.
Proof.
  unfold primary_key. induction db as [|r db IH]; intros Hnd H1 H2 Heq.
  - inversion H1.
  - rewrite fmap_cons in Hnd. apply NoDup_cons in Hnd as [Hnotin Hnd].
    apply elem_of_cons in H1 as [->|H1]; apply elem_of_cons in H2 as [->|H2].
    + reflexivity.
    + exfalso. apply Hnotin. rewrite Heq. apply list_elem_of_fmap. eauto.
    + exfalso. apply Hnotin. rewrite <- Heq. apply list_elem_of_fmap. eauto.
    + auto.
Qed.

Lemma primary_key_filter (P : Row.t → Prop) `{∀ r, Decision (P r)}
    (db : Table) :
  primary_key db → primary_key (filter P db).
Proof.
  unfold primary_key. intros Hnd.
  eapply sublist_NoDup; [exact Hnd|].
  apply fmap_sublist, sublist_filter.
Qed.

Lemma primary_key_update_pinned (v : Z) (i : string) (db : Table) :
  primary_key db → primary_key (update_pinned v i db).2.
Proof.
  unfold primary_key. simpl. intros Hnd.
  rewrite <- list_fmap_compose.
  erewrite list_fmap_ext; [exact Hnd|].
  intros k r _. simpl. destruct (decide (Row.id r = i)); reflexivity.
Qed.

Lemma primary_key_snoc (db : Table) (r : Row.t) :
  primary_key db → Row.id r ∉ Row.id <$> db → primary_key (db ++ [r]).
Proof.
  unfold primary_key. intros Hnd Hfresh.
  rewrite fmap_app. apply NoDup_app. split; [exact Hnd|]. split.
  - intros i Hi Hi'. apply list_elem_of_singleton in Hi'. subst i. auto.
  - apply NoDup_singleton.
Qed.

Lemma primary_key_mutate (db : Table) (op : Mutation) :
  primary_key db → primary_key (mutate db op).
Proof.
  intros Hpk. destruct op as [now uuid input ttl|i|i|i|t|now|k]; simpl.
  - unfold insert. case_bool_decide as Hin; [exact Hpk|].
    apply primary_key_snoc; auto.
  - apply (primary_key_update_pinned 1 i db Hpk).
  - apply (primary_key_update_pinned 0 i db Hpk).
  - apply primary_key_filter, Hpk.
  - apply primary_key_filter, Hpk.
  - apply primary_key_filter, Hpk.
  - apply primary_key_filter, Hpk.
Qed.

Lemma getById_elem (db : Table) (r : Row.t) :
  primary_key db → r ∈ db → getById (Row.id r) db = Some (rowToEntry r).
Proof.
  intros Hpk Hin. unfold getById.
  destruct (filter (λ r0, Row.id r0 = Row.id r) db) as [|r' l] eqn:E.
  - assert (r ∈ filter (λ r0, Row.id r0 = Row.id r) db) as Hf
      by (apply list_elem_of_filter; auto).
    rewrite E in Hf. inversion Hf.
  - assert (r' ∈ filter (λ r0, Row.id r0 = Row.id r) db) as Hf
      by (rewrite E; left).
    apply list_elem_of_filter in Hf as [Hid Hin'].
    simpl. f_equal. f_equal. eapply primary_key_inj; eauto.
Qed.

Lemma pruneExpired_keeps_pinned (now : Z) (db : Table) (r : Row.t) :
  r ∈ db → Row.pinned r = 1 → r ∈ (pruneExpired now db).2.
Proof.
  intros Hin Hp. simpl. apply list_elem_of_filter. split; [|exact Hin].
  intros [_ H0]. rewrite Hp in H0. discriminate.
Qed.

Lemma enforce_subquery_unpinned (k : Z) (db : Table) (i : string) :
  i ∈ enforce_subquery k db →
  ∃ r, r ∈ db ∧ Row.pinned r = 0 ∧ Row.id r = i.
Proof.
  unfold enforce_subquery, sql_offset. intros Hi.
  apply list_elem_of_fmap in Hi as (r & -> & Hr).
  apply (subseteq_drop _ _ _) in Hr.
  rewrite merge_sort_Permutation in Hr.
  apply list_elem_of_filter in Hr as [Hp Hin]. eauto.
Qed.

Lemma enforceMaxEntries_keeps_pinned (k : Z) (db : Table) (r : Row.t) :
  primary_key db → r ∈ db → Row.pinned r = 1 →
  r ∈ (enforceMaxEntries k db).2.
Proof.
  intros Hpk Hin Hp. simpl. apply list_elem_of_filter. split; [|exact Hin].
  intros Hsub.
  apply enforce_subquery_unpinned in Hsub as (r' & Hin' & Hp' & Hid).
  assert (r' = r) as -> by (eapply primary_key_inj; eauto).
  rewrite Hp in Hp'. discriminate.
Qed.

Lemma set_pinned_same (r : Row.t) : set_pinned (Row.pinned r) r = r.
Proof. destruct r; reflexivity. Qed.

Lemma mutate_keeps_pinned (db : Table) (r : Row.t) (op : Mutation) :
  primary_key db → r ∈ db → Row.pinned r = 1 → spares (Row.id r) op →
  r ∈ mutate db op.
Proof.
  intros Hpk Hin Hp Hop.
  destruct op as [now uuid input ttl|i|i|i|t|now|k]; simpl in *.
  - unfold insert. case_bool_decide; [exact Hin|].
    apply elem_of_app. left. exact Hin.
  - apply list_elem_of_fmap. exists r. split; [|exact Hin].
    destruct (decide (Row.id r = i)); [|reflexivity].
    rewrite <- Hp. symmetry. apply set_pinned_same.
  - apply list_elem_of_fmap. exists r. split; [|exact Hin].
    destruct (decide (Row.id r = i)); [congruence|reflexivity].
  - contradiction.
  - contradiction.
  - apply (pruneExpired_keeps_pinned now db r Hin Hp).
  - apply (enforceMaxEntries_keeps_pinned k db r Hpk Hin Hp).
Qed.

End storage_facts.

(** C1. A pinned row outlives every series of statements that holds no
    explicit deletion ([delete], [deleteByTaskId]) and does not unpin it:
    whatever the clock readings given to [pruneExpired] and the caps given
    to [enforceMaxEntries], whatever its own [expires_at] and [created_at],
    the row is still in the table, unchanged, and [getById] returns it. *)
Theorem pinned_outlives_eviction `{JSON} (db : Storage.Table) (r : Row.t)
    (ops : list Mutation) :
  primary_key db → r ∈ db → Row.pinned r = 1 →
  Forall (spares (Row.id r)) ops →
  r ∈ foldl mutate db ops
  ∧ Storage.getById (Row.id r) (foldl mutate db ops) = Some (Storage.rowToEntry r)
  ∧ Entry.pinned (Storage.rowToEntry r) = true.
Proof.
  intros Hpk Hin Hp Hops.
  assert (primary_key (foldl mutate db ops) ∧ r ∈ foldl mutate db ops)
    as [Hpk' Hin'].
  { revert db Hpk Hin. induction Hops as [|op ops Hop Hops IH]; intros db Hpk Hin.
    - split; assumption.
    - simpl. apply IH.
      + apply primary_key_mutate, Hpk.
      + apply mutate_keeps_pinned; assumption. }
  split; [exact Hin'|]. split.
  - apply getById_elem; assumption.
  - simpl. rewrite Hp. reflexivity.
Qed.

(** An expired, oldest, pinned row under a prune and a cap of zero. *)
Lemma pinned_outlives_eviction_witness :
  let r := sample_row 1 "a" 1 0 0 in
  let db := [r; sample_row 2 "b" 0 5 10; sample_row 3 "c" 0 6 7200006] in
  let ops := [PruneExpired 100; EnforceMaxEntries 0; Pin "b";
              Insert 100 "d" (sample_input "x") 0; EnforceMaxEntries (-1)] in
  r ∈ foldl (mutate (H := emptyJSON)) db ops
  ∧ Storage.getById (H := emptyJSON) "a" (foldl (mutate (H := emptyJSON)) db ops)
    = Some (Storage.rowToEntry (H := emptyJSON) r)
  ∧ Entry.pinned (Storage.rowToEntry (H := emptyJSON) r) = true.
Proof.
  intros r db ops.
  apply (pinned_outlives_eviction (H := emptyJSON) db r ops).
  - unfold primary_key. apply (bool_decide_unpack _). vm_compute. exact I.
  - apply (bool_decide_unpack _). vm_compute. exact I.
  - reflexivity.
  - repeat constructor; simpl; discriminate.
Defined.

(** ** Validation *)

Lemma min1_false (s : string) : min1 s = false ↔ s = "".
Proof. destruct s; unfold min1; simpl; split; intros; congruence. Qed.

Lemma min1_true (s : string) : min1 s = true ↔ s ≠ "".
Proof. destruct s; unfold min1; simpl; split; intros; congruence. Qed.

Lemma parse_valid (input : Input.t) :
  valid_input input → CreateEntrySchema_parse input = inr input.
Proof.
  intros (Hk & Ht & Hs). unfold CreateEntrySchema_parse, SessionTypeSchema_ok.
  apply min1_true in Hk, Hs. rewrite Hk, Hs.
  rewrite (bool_decide_eq_true_2 _ Ht). reflexivity.
Qed.

Lemma parse_invalid (input : Input.t) :
  ¬ valid_input input → CreateEntrySchema_parse input = inl ValidationError.
Proof.
  intros Hnot. unfold CreateEntrySchema_parse, SessionTypeSchema_ok.
  destruct (min1 (Input.sessionKey input)) eqn:Hk; [|reflexivity].
  case_bool_decide as Ht; [|reflexivity].
  destruct (min1 (Input.summary input)) eqn:Hs; [|reflexivity].
  exfalso. apply Hnot. apply min1_true in Hk, Hs. repeat split; assumption.
Qed.

(** C10. An input with an empty session key, an empty summary or a session
    type outside the enumeration makes [add] throw the validation error,
    and the table is the one it was: nothing was pruned, inserted or
    capped. *)
Theorem add_rejects_malformed `{JSON} (config : Config.t)
    (t_prune t_insert : Z) (uuid : string) (input : Input.t)
    (db : Storage.Table) :
  Input.sessionKey input = "" ∨ Input.summary input = ""
    ∨ Input.sessionType input ∉ SESSION_TYPES →
  Manager.add config t_prune t_insert uuid input db
    = (inl ValidationError, db).
Proof.
  intros Hbad. unfold Manager.add. rewrite parse_invalid; [reflexivity|].
  intros (Hk & Ht & Hs). destruct Hbad as [?|[?|?]]; contradiction.
Qed.

(** A session type outside the enumeration, on a table whose only row has
    expired. *)
Lemma add_rejects_malformed_witness :
  let input :=
    {| Input.sessionKey := "agent:main:main"; Input.sessionType := "sms";
       Input.summary := "hello"; Input.taskId := None;
       Input.metadata := None |} in
  let db := [sample_row 1 "a" 0 0 0] in
  Manager.add (H := emptyJSON) (Config.mk 1 0) 50 50 "b" input db
    = (inl ValidationError, db).
Proof.
  intros input db.
  apply (add_rejects_malformed (H := emptyJSON) (Config.mk 1 0) 50 50 "b"
           input db).
  right. right. apply (bool_decide_unpack _). vm_compute. exact I.
Defined.

(** ** Relative time *)

Lemma floor_bounds (x u : Z) :
  0 < u → u * (x / u) ≤ x < u * (x / u + 1).
Proof.
  intros Hu. pose proof (Z.mul_div_le x u Hu).
  pose proof (Z.mul_succ_div_gt x u Hu). lia.
Qed.


Example formatRelativeTime_samples :
  let NOW := 1700000000000 in
  Injection.formatRelativeTime (NOW - 30000) NOW = "just now"
  ∧ Injection.formatRelativeTime (NOW - 5 * 60000) NOW = "5m ago"
  ∧ Injection.formatRelativeTime (NOW - 3 * 3600000) NOW = "3h ago"
  ∧ Injection.formatRelativeTime (NOW - 2 * 86400000) NOW = "2d ago"
  ∧ Injection.formatRelativeTime (NOW - 119999) NOW = "1m ago"
  ∧ Injection.formatRelativeTime (NOW - (2 * 86400000 - 1)) NOW = "1d ago".
Proof. vm_compute. repeat split. Qed.

(** ** Token budget of the manager *)

Lemma estimateTokens_nonneg (text : string) : 0 ≤ estimateTokens text.
Proof. unfold estimateTokens. apply Z.div_pos; lia. Qed.

Lemma summary_tokens_nonneg (entries : list Entry.t) :
  0 ≤ summary_tokens entries.
Proof.
  induction entries as [|e l IH]; simpl; [lia|].
  pose proof (estimateTokens_nonneg (Entry.summary e)). lia.
Qed.

Lemma summary_tokens_snoc (entries : list Entry.t) (e : Entry.t) :
  summary_tokens (entries ++ [e])
  = summary_tokens entries + estimateTokens (Entry.summary e).
Proof. induction entries as [|x l IH]; simpl; lia. Qed.

(** The loop keeps what it has and adds a prefix of what is left: the entry
    at index [i] is added iff every entry up to it fits together with what
    was kept before, the first entry of an empty result fitting always. *)
Lemma truncate_loop_spec (M : Z) (entries acc : list Entry.t) :
  ∃ p : list Entry.t,
    truncate_loop M entries acc (summary_tokens acc) = acc ++ p
    ∧ p `prefix_of` entries
    ∧ ∀ i : nat, (i < length entries)%nat →
        ((i < length p)%nat ↔
         ∀ j : nat, (j ≤ i)%nat →
           (acc = [] ∧ j = 0%nat)
           ∨ summary_tokens acc + summary_tokens (take (S j) entries) ≤ M).
Proof.
  revert acc. induction entries as [|e rest IH]; intros acc.
  - exists []. simpl. rewrite app_nil_r. split; [reflexivity|].
    split; [apply prefix_nil|]. intros i Hi. simpl in Hi. lia.
  - simpl.
    destruct (Z.ltb_spec M (summary_tokens acc + estimateTokens (Entry.summary e)))
      as [Hover|Hfit];
      [destruct (Nat.ltb_spec 0 (length acc)) as [Hne|He]|]; simpl.
    + (* over the budget with something kept: stop *)
      exists []. rewrite app_nil_r. split; [reflexivity|].
      split; [apply prefix_nil|]. intros i Hi. simpl. split; [lia|].
      intros Hall. destruct (Hall 0%nat ltac:(lia)) as [[-> _]|Hle].
      * simpl in Hne. lia.
      * simpl in Hle. lia.
    + (* over the budget with nothing kept: take it all the same *)
      assert (acc = []) as -> by (destruct acc; [reflexivity|simpl in He; lia]).
      destruct (IH ([] ++ [e])) as (p & Hp & Hpre & Hchar).
      rewrite summary_tokens_snoc in Hp. exists (e :: p).
      split; [rewrite Hp; reflexivity|]. split; [apply prefix_cons, Hpre|].
      intros [|i] Hi; simpl.
      * split; [|lia]. intros _ j Hj. left. split; [reflexivity|lia].
      * simpl in Hi. rewrite <- Nat.succ_lt_mono. rewrite (Hchar i) by lia.
        split.
        -- intros Hall [|j] Hj; [left; split; reflexivity|]. right.
           destruct (Hall j ltac:(lia)) as [[Habs _]|Hle]; [discriminate|].
           rewrite summary_tokens_snoc in Hle. simpl in Hle |- *. lia.
        -- intros Hall j Hj. right.
           destruct (Hall (S j) ltac:(lia)) as [[_ Habs]|Hle]; [discriminate|].
           rewrite summary_tokens_snoc. simpl in Hle |- *. lia.
    + (* within the budget *)
      destruct (IH (acc ++ [e])) as (p & Hp & Hpre & Hchar).
      rewrite summary_tokens_snoc in Hp. exists (e :: p).
      split; [rewrite Hp, <- app_assoc; reflexivity|].
      split; [apply prefix_cons, Hpre|].
      assert (summary_tokens acc + summary_tokens (take 1 (e :: rest)) ≤ M)
        as Hfirst by (simpl; lia).
      intros [|i] Hi; simpl.
      * split; [|lia]. intros _ j Hj. right.
        replace j with 0%nat by lia. exact Hfirst.
      * simpl in Hi. rewrite <- Nat.succ_lt_mono. rewrite (Hchar i) by lia.
        split.
        -- intros Hall [|j] Hj; [right; exact Hfirst|]. right.
           destruct (Hall j ltac:(lia)) as [[Habs _]|Hle].
           ++ destruct acc; discriminate.
           ++ rewrite summary_tokens_snoc in Hle. simpl in Hle |- *. lia.
        -- intros Hall j Hj. right.
           destruct (Hall (S j) ltac:(lia)) as [[_ Habs]|Hle]; [discriminate|].
           rewrite summary_tokens_snoc. simpl in Hle |- *. lia.
Qed.

(** C5. [truncateToTokenBudget] returns a prefix of the ordered list. The
    entry at index [i] is in it iff, walking up to [i], every entry other
    than the first keeps the running total of summary costs within
    [maxTokens]: the first entry is taken whatever it costs, and the walk
    stops at the first later entry that would exceed the budget. A list
    that is not empty gives a result that is not empty. *)
Theorem truncateToTokenBudget_prefix (entries : list Entry.t)
    (maxTokens : Z) :
  let result := truncateToTokenBudget entries maxTokens in
  result `prefix_of` entries
  ∧ (∀ i : nat, (i < length entries)%nat →
       ((i < length result)%nat ↔
        ∀ j : nat, (j ≤ i)%nat →
          j = 0%nat ∨ summary_tokens (take (S j) entries) ≤ maxTokens))
  ∧ (entries ≠ [] → result ≠ []).
Proof.
  intros result.
  destruct (truncate_loop_spec maxTokens entries []) as (p & Hp & Hpre & Hchar).
  simpl in Hp. assert (result = p) as Hres by exact Hp.
  clearbody result. subst result. clear Hp.
  split; [exact Hpre|]. split.
  - intros i Hi. rewrite (Hchar i Hi). simpl. split; intros Hall j Hj.
    + destruct (Hall j Hj) as [[_ ?]|?]; [left; assumption|right; assumption].
    + destruct (Hall j Hj) as [?|?]; [left; split; [reflexivity|assumption]|].
      right. assumption.
  - intros Hne ->. destruct entries as [|e rest]; [congruence|].
    specialize (Hchar 0%nat ltac:(simpl; lia)). simpl in Hchar.
    apply (Nat.lt_irrefl 0). apply Hchar. intros j Hj. left.
    split; [reflexivity|lia].
Qed.

(** With [maxTokens] given, the manager's [getRecent] is that selection
    applied to what it returns without. *)
Lemma getRecent_maxTokens `{JSON} (config : Config.t) (now M : Z)
    (maxAge : option Z) (sessionType taskId : option string)
    (db : Storage.Table) :
  Manager.getRecent config now
    (Options.mk (Some M) maxAge sessionType taskId) db
  = truncateToTokenBudget
      (Manager.getRecent config now
         (Options.mk None maxAge sessionType taskId) db) M.
Proof. reflexivity. Qed.

(** ** Rendering *)

Lemma length_append (s1 s2 : string) :
  String.length (s1 +:+ s2) = (String.length s1 + String.length s2)%nat.
Proof. induction s1 as [|c s1 IH]; simpl; [reflexivity|]. rewrite IH. reflexivity. Qed.

Lemma injection_estimateTokens_eq (text : string) :
  Injection.estimateTokens text = estimateTokens text.
Proof. reflexivity. Qed.

Lemma injection_estimateTokens_nonneg (text : string) :
  0 ≤ Injection.estimateTokens text.
Proof. apply estimateTokens_nonneg. Qed.

Lemma line_tokens_cons (nowMs : Z) (e : Entry.t) (entries : list Entry.t) :
  line_tokens nowMs (e :: entries)
  = Injection.estimateTokens (Injection.formatEntry e nowMs)
    + line_tokens nowMs entries.
Proof. reflexivity. Qed.

Lemma line_tokens_nonneg (nowMs : Z) (entries : list Entry.t) :
  0 ≤ line_tokens nowMs entries.
Proof.
  induction entries as [|e l IH]; [simpl; lia|]. rewrite line_tokens_cons.
  pose proof (injection_estimateTokens_nonneg (Injection.formatEntry e nowMs)).
  lia.
Qed.

(** A rendered line costs at least what its summary costs, so a list whose
    summaries exceed a budget has lines that exceed it. *)
Lemma summary_tokens_le_line_tokens (nowMs : Z) (entries : list Entry.t) :
  summary_tokens entries ≤ line_tokens nowMs entries.
Proof.
  induction entries as [|e l IH]; [simpl; lia|].
  rewrite line_tokens_cons. unfold summary_tokens in *. cbn [foldr].
  enough (estimateTokens (Entry.summary e)
          ≤ Injection.estimateTokens (Injection.formatEntry e nowMs)) by lia.
  unfold Injection.estimateTokens, estimateTokens, Injection.CHARS_PER_TOKEN,
    Injection.formatEntry.
  rewrite !length_append. apply Z.div_le_mono; lia.
Qed.

(** The loop either renders every entry, when they all fit, or renders the
    longest prefix that fits and closes with the marker. *)
Lemma format_loop_spec (nowMs : Z) (entries : list Entry.t) (budget : Z)
    (lines : list string) :
  (line_tokens nowMs entries ≤ budget →
   Injection.format_loop nowMs entries budget lines
   = lines ++ ((λ e, Injection.formatEntry e nowMs) <$> entries))
  ∧ (entries ≠ [] → budget < line_tokens nowMs entries →
     ∃ n : nat,
       (n < length entries)%nat
       ∧ Injection.format_loop nowMs entries budget lines
         = lines ++ ((λ e, Injection.formatEntry e nowMs) <$> take n entries)
             ++ [Injection.marker]
       ∧ (n = 0%nat ∨ line_tokens nowMs (take n entries) ≤ budget)
       ∧ budget < line_tokens nowMs (take (S n) entries)).
Proof.
  revert budget lines. induction entries as [|e rest IH]; intros budget lines.
  - simpl. split; [intros _; rewrite app_nil_r; reflexivity|congruence].
  - cbn [Injection.format_loop length take fmap list_fmap].
    rewrite line_tokens_cons.
    pose proof (injection_estimateTokens_nonneg (Injection.formatEntry e nowMs))
      as He.
    pose proof (line_tokens_nonneg nowMs rest) as Hrest.
    destruct (Z.ltb_spec
                (budget - Injection.estimateTokens (Injection.formatEntry e nowMs))
                0) as [Hover|Hfit].
    + split; [lia|]. intros _ _. exists 0%nat.
      split; [lia|]. split; [reflexivity|]. split; [left; reflexivity|].
      cbn [take]. rewrite line_tokens_cons.
      change (line_tokens nowMs (take 0 rest)) with 0. lia.
    + destruct (IH (budget - Injection.estimateTokens (Injection.formatEntry e nowMs))
                  (lines ++ [Injection.formatEntry e nowMs])) as [IHall IHcut].
      split.
      * intros Hle. rewrite IHall by lia. rewrite <- app_assoc. reflexivity.
      * intros _ Hlt.
        destruct IHcut as (n & Hn & Heq & Hle & Hgt);
          [intros ->; change (line_tokens nowMs []) with 0 in Hlt; lia|lia|].
        exists (S n). split; [simpl; lia|]. split.
        -- rewrite Heq, <- app_assoc. reflexivity.
        -- cbn [take]. rewrite !line_tokens_cons. split; [right|lia].
           destruct Hle as [->|Hle];
             [change (line_tokens nowMs (take 0 rest)) with 0|]; lia.
Qed.

(** C6. No entries give the empty string, whatever the options. When the
    header and the rendered lines together cost more than [maxTokens]
    (2000 when absent), the text is the header, then the lines of the
    first [n] entries, then the marker as its last line, where [n] is
    smaller than the number of entries: [n] is the count of leading
    entries whose lines fit after the header, and is not zero exactly when
    the first line fits. The list is taken not to be empty. *)
Theorem formatForSystemPrompt_truncates (clock : Z)
    (entries : list Entry.t) (options : Injection.FormatOptions) :
  let nowMs := default clock (Injection.now options) in
  let room :=
    default 2000 (Injection.maxTokens options)
    - Injection.estimateTokens Injection.header in
  entries ≠ [] →
  room < line_tokens nowMs entries →
  Injection.formatForSystemPrompt clock [] options = ""
  ∧ ∃ n : nat,
      (n < length entries)%nat
      ∧ Injection.format_lines clock entries options
        = ((λ e, Injection.formatEntry e nowMs) <$> take n entries)
            ++ [Injection.marker]
      ∧ Injection.formatForSystemPrompt clock entries options
        = Injection.header
            +:+ String.concat Injection.LF
                  (Injection.format_lines clock entries options)
      ∧ (n = 0%nat ∨ line_tokens nowMs (take n entries) ≤ room)
      ∧ room < line_tokens nowMs (take (S n) entries)
      ∧ ((0 < n)%nat ↔ line_tokens nowMs (take 1 entries) ≤ room).
Proof.
  intros nowMs room Hne Hover. split; [reflexivity|].
  destruct (format_loop_spec nowMs entries room []) as [_ Hcut].
  destruct (Hcut Hne Hover) as (n & Hn & Heq & Hle & Hgt).
  exists n. split; [exact Hn|]. split; [exact Heq|]. split.
  - unfold Injection.formatForSystemPrompt.
    destruct entries as [|e rest]; [simpl in Hn; lia|reflexivity].
  - split; [exact Hle|]. split; [exact Hgt|].
    destruct n as [|n].
    + split; [lia|]. intros Hfit. lia.
    + split; [|lia]. intros _. destruct Hle as [?|Hle]; [lia|].
      destruct entries as [|e rest]; [simpl in Hn; lia|].
      cbn [take] in Hle |- *. rewrite line_tokens_cons in Hle |- *.
      pose proof (line_tokens_nonneg nowMs (take n rest)).
      change (line_tokens nowMs (take 0 rest)) with 0. lia.
Qed.

(** Fifty long entries under a budget of 200, as in the test of the
    repository. *)
Lemma formatForSystemPrompt_truncates_witness :
  let e :=
    {| Entry.id := "entry"; Entry.sessionKey := "agent:main:main";
       Entry.sessionType := "dm";
       Entry.summary :=
         "This is a much longer summary text for entry number 7 to consume more tokens in the budget";
       Entry.taskId := None; Entry.pinned := false;
       Entry.createdAt := 1700000000000 - 60000;
       Entry.expiresAt := 1700000000000 + 7200000;
       Entry.metadata := None |} in
  let entries := replicate 50 e in
  let options := Injection.mkOptions (Some 200) (Some 1700000000000) in
  Injection.formatForSystemPrompt 0 [] options = ""
  ∧ ∃ n : nat,
      (n < length entries)%nat
      ∧ Injection.format_lines 0 entries options
        = ((λ e, Injection.formatEntry e 1700000000000) <$> take n entries)
            ++ [Injection.marker]
      ∧ Injection.formatForSystemPrompt 0 entries options
        = Injection.header
            +:+ String.concat Injection.LF
                  (Injection.format_lines 0 entries options)
      ∧ (n = 0%nat
         ∨ line_tokens 1700000000000 (take n entries)
             ≤ 200 - Injection.estimateTokens Injection.header)
      ∧ 200 - Injection.estimateTokens Injection.header
          < line_tokens 1700000000000 (take (S n) entries)
      ∧ ((0 < n)%nat
         ↔ line_tokens 1700000000000 (take 1 entries)
             ≤ 200 - Injection.estimateTokens Injection.header).
Proof.
  intros e entries options.
  apply (formatForSystemPrompt_truncates 0 entries options).
  - discriminate.
  - vm_compute. reflexivity.
Defined.

(** C6, as stated, fails: one entry under a budget that the header alone
    uses up is rendered as the header and the marker, with no entry line,
    although the list is not empty and its cost exceeds the budget. *)
Lemma formatForSystemPrompt_no_entry_line :
  let e := Storage.rowToEntry (H := emptyJSON) (sample_row 1 "a" 0 0 7200000) in
  let options := Injection.mkOptions (Some 5) (Some 300000) in
  5 < summary_tokens [e]
  ∧ Injection.format_lines 0 [e] options = [Injection.marker]
  ∧ Injection.formatForSystemPrompt 0 [e] options
    = Injection.header +:+ Injection.marker
  ∧ ¬ (∃ n : nat,
         (1 ≤ n)%nat
         ∧ Injection.format_lines 0 [e] options
           = ((λ e, Injection.formatEntry e 300000) <$> take n [e])
               ++ [Injection.marker]).
Proof.
  intros e options.
  assert (Injection.format_lines 0 [e] options = [Injection.marker]) as Hl
    by (vm_compute; reflexivity).
  split; [vm_compute; reflexivity|].
  split; [exact Hl|]. split; [vm_compute; reflexivity|].
  intros (n & Hn & Heq). destruct n as [|n]; [lia|].
  rewrite Hl in Heq. apply (f_equal length) in Heq.
  rewrite length_app, length_fmap in Heq.
  change (take (S n) [e]) with (e :: take n []) in Heq.
  cbn [length] in Heq. lia.
Qed.

(** ** The two orders of the store *)

Global Instance created_desc_total : Total Storage.created_desc.
Proof. intros r1 r2. unfold Storage.created_desc. lia. Qed.

Global Instance created_desc_trans : Transitive Storage.created_desc.
Proof. intros r1 r2 r3. unfold Storage.created_desc. lia. Qed.

Global Instance task_order_total : Total Storage.task_order.
Proof. intros r1 r2. unfold Storage.task_order. lia. Qed.

Global Instance task_order_trans : Transitive Storage.task_order.
Proof. intros r1 r2 r3. unfold Storage.task_order. lia. Qed.

Global Instance recent_order_total : Total Storage.recent_order.
Proof.
  intros r1 r2. unfold Storage.recent_order, Storage.created_desc. lia.
Qed.

Global Instance recent_order_trans : Transitive Storage.recent_order.
Proof.
  intros r1 r2 r3. unfold Storage.recent_order, Storage.created_desc. lia.
Qed.

Lemma primary_key_NoDup (db : Storage.Table) : primary_key db → NoDup db.
Proof. apply NoDup_fmap_1. Qed.

Lemma next_rowid_gt (db : Storage.Table) (r : Row.t) :
  r ∈ db → Row.rowid r < Storage.next_rowid db.
Proof.
  unfold Storage.next_rowid. induction db as [|x db IH]; intros Hin.
  - inversion Hin.
  - simpl. apply elem_of_cons in Hin as [->|Hin]; [lia|].
    specialize (IH Hin). lia.
Qed.

(** ** Adding, then reading back *)

Section add_facts.
Context `{JSON}.
Import Storage.

(** The cap never evicts an unpinned row that no other unpinned row
    precedes in the order of the subquery. *)
Lemma enforceMaxEntries_keeps_newest (k : Z) (db : Table) (r : Row.t) :
  0 < k → primary_key (db ++ [r]) → Row.pinned r = 0 →
  (∀ r', r' ∈ db → Row.pinned r' = 0 →
     Row.created_at r' ≤ Row.created_at r ∧ Row.rowid r' < Row.rowid r) →
  r ∈ (enforceMaxEntries k (db ++ [r])).2.
Proof.
  intros Hk Hpk Hp Hnewest. simpl. apply list_elem_of_filter.
  split; [|apply elem_of_app; right; apply list_elem_of_singleton; reflexivity].
  unfold enforce_subquery, sql_offset. intros Hsub.
  apply list_elem_of_fmap in Hsub as (y & Hid & Hy).
  match type of Hy with _ ∈ drop _ ?s => set (sorted := s) in * end.
  assert (sorted ≡ₚ filter (λ r0, Row.pinned r0 = 0) (db ++ [r])) as Hperm
    by apply merge_sort_Permutation.
  assert (StronglySorted created_desc sorted) as Hsorted
    by (apply StronglySorted_merge_sort; apply _).
  assert (NoDup sorted) as Hnd.
  { rewrite Hperm. apply NoDup_filter, primary_key_NoDup, Hpk. }
  assert (y = r) as ->.
  { eapply primary_key_inj; [exact Hpk| | |symmetry; exact Hid].
    - apply (subseteq_drop _ _ _) in Hy. rewrite Hperm in Hy.
      apply list_elem_of_filter in Hy as [_ Hy]. exact Hy.
    - apply elem_of_app. right. apply list_elem_of_singleton. reflexivity. }
  destruct (Z.to_nat k) as [|k'] eqn:Ek; [lia|].
  destruct sorted as [|x l]; [inversion Hy|].
  simpl in Hy. apply (subseteq_drop _ _ _) in Hy.
  apply NoDup_cons in Hnd as [Hx _].
  apply StronglySorted_cons in Hsorted as [Hall _].
  rewrite Forall_forall in Hall. specialize (Hall r Hy).
  assert (x ∈ filter (λ r0, Row.pinned r0 = 0) (db ++ [r])) as Hxin
    by (rewrite <- Hperm; left).
  apply list_elem_of_filter in Hxin as [Hxp Hxin].
  apply elem_of_app in Hxin as [Hxin|Hxin].
  - destruct (Hnewest x Hxin Hxp). unfold created_desc in Hall. lia.
  - apply list_elem_of_singleton in Hxin. subst x. contradiction.
Qed.

Lemma insert_fresh (now : Z) (uuid : string) (input : Input.t)
    (ttlMinutes : Z) (db : Table) :
  uuid ∉ Row.id <$> db →
  ∃ entry row,
    insert now uuid input ttlMinutes db = inr (entry, db ++ [row])
    ∧ Entry.id entry = uuid ∧ Row.id row = uuid ∧ Row.pinned row = 0
    ∧ Row.created_at row = now
    ∧ Row.expires_at row = now + ttlMinutes * 60 * 1000
    ∧ Row.rowid row = next_rowid db
    ∧ ((∀ m, Input.metadata input = Some m →
          JSON_stringify m ≠ "" ∧ JSON_parse (JSON_stringify m) = m) →
       rowToEntry row = entry).
Proof.
  intros Hfresh. unfold insert. rewrite bool_decide_eq_false_2 by exact Hfresh.
  eexists _, _. split; [reflexivity|]. repeat (split; [reflexivity|]).
  intros Hjson. unfold rowToEntry. simpl. f_equal.
  destruct (Input.metadata input) as [m|]; simpl; [|reflexivity].
  destruct (Hjson m eq_refl) as [Hne Hrt].
  apply min1_true in Hne. rewrite Hne, Hrt. reflexivity.
Qed.

End add_facts.

(** C2. [add] of a valid input returns the entry made of the input, the
    id drawn, the clock reading and the time to live, and [getById] on
    its id then returns that same entry, field by field, an absent task
    id and absent metadata included. It is taken that the manager was
    built from a valid configuration, that the table obeys its primary
    key, that [randomUUID] gave an id not in use, that [JSON.parse]
    undoes [JSON.stringify] on the metadata given, and that no unpinned
    row is dated after the clock reading of the insertion. *)
Theorem add_then_getById `{JSON} (config : Config.t)
    (t_prune t_insert : Z) (uuid : string) (input : Input.t)
    (db : Storage.Table) :
  ManagerConfigSchema_ok config →
  primary_key db →
  valid_input input →
  (∀ m, Input.metadata input = Some m →
     JSON_stringify m ≠ "" ∧ JSON_parse (JSON_stringify m) = m) →
  uuid ∉ Row.id <$> db →
  (∀ r, r ∈ db → Row.pinned r = 0 → Row.created_at r ≤ t_insert) →
  ∃ entry db',
    Manager.add config t_prune t_insert uuid input db = (inr entry, db')
    ∧ Manager.getById (Entry.id entry) db' = Some entry
    ∧ Entry.id entry = uuid
    ∧ Entry.sessionKey entry = Input.sessionKey input
    ∧ Entry.sessionType entry = Input.sessionType input
    ∧ Entry.summary entry = Input.summary input
    ∧ Entry.taskId entry = Input.taskId input
    ∧ Entry.metadata entry = Input.metadata input
    ∧ Entry.pinned entry = false
    ∧ Entry.createdAt entry = t_insert
    ∧ Entry.expiresAt entry
      = t_insert + Config.defaultTtlMinutes config * 60 * 1000.
Proof.
  intros [Hmax _] Hpk Hvalid Hjson Hfresh Hclock.
  unfold Manager.add. rewrite (parse_valid input Hvalid).
  set (db1 := (Manager.pruneExpired t_prune db).2).
  assert (∀ r, r ∈ db1 → r ∈ db) as Hsub.
  { intros r Hr. apply list_elem_of_filter in Hr as [_ Hr]. exact Hr. }
  assert (primary_key db1) as Hpk1 by apply primary_key_filter, Hpk.
  assert (uuid ∉ Row.id <$> db1) as Hfresh1.
  { intros Hin. apply Hfresh. apply list_elem_of_fmap in Hin as (r & -> & Hr).
    apply list_elem_of_fmap. eauto. }
  destruct (insert_fresh t_insert uuid input (Config.defaultTtlMinutes config)
              db1 Hfresh1)
    as (entry & row & Hins & Hid & Hrid & Hrp & Hrc & _ & Hrow & Hback).
  rewrite Hins. eexists entry, _. split; [reflexivity|].
  assert (primary_key (db1 ++ [row])) as Hpk2
    by (apply primary_key_snoc; [exact Hpk1|rewrite Hrid; exact Hfresh1]).
  split.
  - unfold Manager.getById. rewrite Hid, <- Hrid, <- (Hback Hjson).
    apply getById_elem.
    + apply primary_key_filter, Hpk2.
    + apply enforceMaxEntries_keeps_newest; [exact Hmax|exact Hpk2|exact Hrp|].
      intros r' Hr' Hp'. split.
      * rewrite Hrc. apply Hclock; [apply Hsub, Hr'|exact Hp'].
      * rewrite Hrow. apply next_rowid_gt, Hr'.
  - unfold Storage.insert in Hins.
    rewrite bool_decide_eq_false_2 in Hins by exact Hfresh1.
    inversion Hins. repeat split; reflexivity.
Qed.

(** The sample input of the tests on a table of two live rows under a cap
    of two. *)
Lemma add_then_getById_witness :
  let config := Config.mk 2 120 in
  let db := [sample_row 1 "a" 0 10 7200010; sample_row 2 "b" 0 20 7200020] in
  let input :=
    {| Input.sessionKey := "agent:main:main"; Input.sessionType := "dm";
       Input.summary := "Started auth refactor task for ki-at-obv";
       Input.taskId := Some "auth-refactor";
       Input.metadata := Some ∅ |} in
  ∃ entry db',
    Manager.add (H := emptyJSON) config 20 20 "c" input db = (inr entry, db')
    ∧ Manager.getById (H := emptyJSON) (Entry.id entry) db' = Some entry
    ∧ Entry.id entry = "c"
    ∧ Entry.sessionKey entry = Input.sessionKey input
    ∧ Entry.sessionType entry = Input.sessionType input
    ∧ Entry.summary entry = Input.summary input
    ∧ Entry.taskId entry = Input.taskId input
    ∧ Entry.metadata entry = Input.metadata input
    ∧ Entry.pinned entry = false
    ∧ Entry.createdAt entry = 20
    ∧ Entry.expiresAt entry = 20 + Config.defaultTtlMinutes config * 60 * 1000.
Proof.
  intros config db input.
  apply (add_then_getById (H := emptyJSON) config 20 20 "c" input db).
  - split; simpl; lia.
  - unfold primary_key. apply (bool_decide_unpack _). vm_compute. exact I.
  - split; [discriminate|]. split; [|discriminate].
    apply (bool_decide_unpack _). vm_compute. exact I.
  - intros m Hm. simpl in Hm. inversion Hm. split; [discriminate|reflexivity].
  - apply (bool_decide_unpack _). vm_compute. exact I.
  - intros r Hr _. simpl in Hr.
    apply elem_of_cons in Hr as [->|Hr]; [simpl; lia|].
    apply list_elem_of_singleton in Hr. subst r. simpl. lia.
Defined.

(** C2, as stated, fails when the clock has been set back: under a cap
    of two, on a table of two live rows dated 500 and 600, [add] at the
    clock reading 90 returns an entry that its own [enforceMaxEntries]
    has deleted as the oldest, and [getById] on its id finds nothing. *)
Lemma add_then_getById_clock_set_back :
  let config := Config.mk 2 120 in
  let db :=
    [sample_row 1 "a" 0 500 7200500; sample_row 2 "b" 0 600 7200600] in
  let input := sample_input "Third" in
  ManagerConfigSchema_ok config
  ∧ primary_key db
  ∧ valid_input input
  ∧ ("c" ∉ Row.id <$> db)
  ∧ ∃ entry db',
      Manager.add (H := emptyJSON) config 90 90 "c" input db
      = (inr entry, db')
      ∧ Entry.id entry = "c"
      ∧ Row.id <$> db' = ["a"; "b"]
      ∧ Manager.getById (H := emptyJSON) (Entry.id entry) db' = None.
Proof.
  intros config db input.
  split; [split; simpl; lia|].
  split; [unfold primary_key; apply (bool_decide_unpack _); vm_compute;
          exact I|].
  split; [apply (bool_decide_unpack _); vm_compute; exact I|].
  split; [apply (bool_decide_unpack _); vm_compute; exact I|].
  eexists _, _. split; [vm_compute; reflexivity|].
  split; [reflexivity|]. split; vm_compute; reflexivity.
Qed.

(** ** Reading the recent entries *)

Lemma StronglySorted_lookup {A} (R : relation A) (l : list A) (i j : nat)
    (x y : A) :
  StronglySorted R l → l !! i = Some x → l !! j = Some y → (i < j)%nat →
  R x y.
Proof.
  intros Hs. revert i j. induction Hs as [|a l Hs IH Hall]; intros i j Hi Hj Hlt.
  - rewrite lookup_nil in Hi. discriminate.
  - destruct i as [|i], j as [|j]; try lia; simpl in Hi, Hj.
    + inversion Hi; subst a. rewrite Forall_forall in Hall. apply Hall.
      eapply list_elem_of_lookup_2. exact Hj.
    + apply (IH i j Hi Hj). lia.
Qed.

Lemma rowid_ascending_NoDup (db : Storage.Table) :
  rowid_ascending db → NoDup db.
Proof.
  intros Hasc. apply NoDup_alt. intros i j r Hi Hj.
  destruct (Nat.lt_trichotomy i j) as [Hlt|[Heq|Hlt]]; [|exact Heq|].
  - pose proof (StronglySorted_lookup _ db i j r r Hasc Hi Hj Hlt). simpl in *. lia.
  - pose proof (StronglySorted_lookup _ db j i r r Hasc Hj Hi Hlt). simpl in *. lia.
Qed.

Lemma sql_limit_prefix {A} (n : Z) (l : list A) :
  Storage.sql_limit n l `prefix_of` l.
Proof.
  unfold Storage.sql_limit. destruct (n <? 0); [reflexivity|apply prefix_take].
Qed.

Lemma sql_limit_length {A} (n : Z) (l : list A) :
  0 ≤ n → Z.of_nat (length (Storage.sql_limit n l)) ≤ n.
Proof.
  intros Hn. unfold Storage.sql_limit.
  destruct (Z.ltb_spec n 0); [lia|]. rewrite length_take. lia.
Qed.

(** What [LIMIT] leaves out: with a bound that is not negative and is
    reached, the rows past it. *)
Lemma sql_limit_complete {A} (n : Z) (l : list A) (x : A) :
  x ∈ l →
  x ∈ Storage.sql_limit n l
  ∨ (0 ≤ n ∧ Z.of_nat (length (Storage.sql_limit n l)) = n
     ∧ x ∈ drop (Z.to_nat n) l).
Proof.
  intros Hx. unfold Storage.sql_limit.
  destruct (Z.ltb_spec n 0) as [Hneg|Hpos]; [left; exact Hx|].
  rewrite <- (take_drop (Z.to_nat n) l) in Hx.
  apply elem_of_app in Hx as [Hx|Hx]; [left; exact Hx|].
  right. split; [exact Hpos|]. split; [|exact Hx].
  rewrite length_take.
  destruct (decide (Z.to_nat n ≤ length l)%nat) as [Hle|Hgt]; [lia|].
  rewrite drop_ge in Hx by lia. inversion Hx.
Qed.

Section getRecent_facts.
Context `{JSON}.
Import Storage.

Lemma getRecent_rows_sorted (now : Z) (o : RecentFilter) (db : Table) :
  ∃ candidates : list Row.t,
    candidates ≡ₚ filter (recent_where now o) db
    ∧ StronglySorted recent_order candidates
    ∧ getRecent_rows now o db = sql_limit (default 100 (limit o)) candidates.
Proof.
  exists (merge_sort recent_order (filter (recent_where now o) db)).
  split; [apply merge_sort_Permutation|].
  split; [apply StronglySorted_merge_sort; apply _|reflexivity].
Qed.

End getRecent_facts.

(** The WHERE clause, condition by condition. *)
Lemma recent_where_spelled (now : Z) (o : Storage.RecentFilter)
    (r : Row.t) :
  Storage.recent_where now o r
  ↔ (now < Row.expires_at r ∨ Row.pinned r = 1)
    ∧ (∀ age, Storage.maxAgeMs o = Some age →
         now - age < Row.created_at r ∨ Row.pinned r = 1)
    ∧ (∀ st, Storage.sessionType o = Some st → Row.session_type r = st)
    ∧ (∀ t, Storage.taskId o = Some t → Row.task_id r = Some t).
Proof.
  unfold Storage.recent_where.
  destruct (Storage.maxAgeMs o) as [age|], (Storage.sessionType o) as [st|],
    (Storage.taskId o) as [t|]; split;
    intros (H1 & H2 & H3 & H4);
    (split; [exact H1|]);
    (split; [first [exact I|intros ? [= <-]; exact H2|apply H2; reflexivity
                   |intros ? [=]]|]);
    (split; [first [exact I|intros ? [= <-]; exact H3|apply H3; reflexivity
                   |intros ? [=]]|]);
    first [exact I|intros ? [= <-]; exact H4|apply H4; reflexivity
          |intros ? [=]].
Qed.

(** C4. The store's [getRecent], on a table whose rows lie in insertion
    order, with [limit] read as 100 when absent. It returns at most
    [limit] entries, for any limit that is not negative. A row is
    returned only if it is in the table and is live or pinned, is younger
    than [maxAgeMs] or pinned when [maxAgeMs] is given, and has the
    session type and the task id asked for when these are given; a row of
    the table for which all this holds is returned, unless the limit is
    reached and every row returned comes before it in the order. Of two
    rows returned the earlier one is pinned at least as much, then
    created no earlier, then, by equal creation time, inserted later. *)
Theorem getRecent_selects_and_orders `{JSON} (now : Z)
    (o : Storage.RecentFilter) (db : Storage.Table) :
  let lim := default 100 (Storage.limit o) in
  let rows := Storage.getRecent_rows now o db in
  let selected (r : Row.t) : Prop :=
    (now < Row.expires_at r ∨ Row.pinned r = 1)
    ∧ (∀ age, Storage.maxAgeMs o = Some age →
         now - age < Row.created_at r ∨ Row.pinned r = 1)
    ∧ (∀ st, Storage.sessionType o = Some st → Row.session_type r = st)
    ∧ (∀ t, Storage.taskId o = Some t → Row.task_id r = Some t) in
  let precedes (r' r : Row.t) : Prop :=
    Row.pinned r < Row.pinned r'
    ∨ (Row.pinned r' = Row.pinned r
       ∧ (Row.created_at r < Row.created_at r'
          ∨ (Row.created_at r' = Row.created_at r
             ∧ Row.rowid r ≤ Row.rowid r'))) in
  rowid_ascending db →
  Storage.getRecent now o db = Storage.rowToEntry <$> rows
  ∧ (0 ≤ lim → Z.of_nat (length (Storage.getRecent now o db)) ≤ lim)
  ∧ (∀ r, r ∈ rows → r ∈ db ∧ selected r)
  ∧ (∀ r, r ∈ db → selected r →
       r ∈ rows
       ∨ (0 ≤ lim ∧ Z.of_nat (length rows) = lim
          ∧ ∀ r', r' ∈ rows → precedes r' r))
  ∧ (∀ (i j : nat) (ri rj : Row.t),
       rows !! i = Some ri → rows !! j = Some rj → (i < j)%nat →
       Row.pinned rj ≤ Row.pinned ri
       ∧ (Row.pinned ri = Row.pinned rj →
          Row.created_at rj ≤ Row.created_at ri)
       ∧ (Row.pinned ri = Row.pinned rj →
          Row.created_at ri = Row.created_at rj →
          inserted_before db rj ri)).
Proof.
  intros lim rows selected precedes Hasc.
  assert (∀ r, selected r ↔ Storage.recent_where now o r) as Hsel
    by (intros r; symmetry; apply recent_where_spelled).
  destruct (getRecent_rows_sorted now o db) as (cand & Hperm & Hsorted & Hrows).
  fold lim in Hrows. fold rows in Hrows.
  assert (rows `prefix_of` cand) as Hpre
    by (rewrite Hrows; apply sql_limit_prefix).
  assert (∀ r, r ∈ rows → r ∈ db ∧ selected r) as Hsound.
  { intros r Hr. destruct Hpre as [rest Hrest].
    assert (r ∈ cand) as Hc by (rewrite Hrest; apply elem_of_app; left; exact Hr).
    rewrite Hperm in Hc. apply list_elem_of_filter in Hc as [Hw Hin].
    split; [exact Hin|apply Hsel, Hw]. }
  assert (NoDup cand) as Hnd
    by (rewrite Hperm; apply NoDup_filter, rowid_ascending_NoDup, Hasc).
  split; [reflexivity|]. split.
  { intros Hlim. unfold Storage.getRecent. rewrite length_fmap.
    fold rows. rewrite Hrows. apply sql_limit_length, Hlim. }
  split; [exact Hsound|]. split.
  - intros r Hin Hw. apply Hsel in Hw.
    assert (r ∈ cand) as Hc
      by (rewrite Hperm; apply list_elem_of_filter; split; assumption).
    destruct (sql_limit_complete lim cand r Hc) as [Hr|(Hlim & Hlen & Hdrop)].
    + left. rewrite Hrows. exact Hr.
    + right. split; [exact Hlim|]. split; [rewrite Hrows; exact Hlen|].
      intros r' Hr'. rewrite Hrows in Hr'. unfold Storage.sql_limit in Hr'.
      destruct (Z.ltb_spec lim 0); [lia|].
      rewrite <- (take_drop (Z.to_nat lim) cand) in Hsorted.
      assert (Storage.recent_order r' r) as Hord
        by (eapply StronglySorted_app_1_elem_of; eassumption).
      unfold Storage.recent_order, Storage.created_desc in Hord.
      unfold precedes. lia.
  - intros i j ri rj Hi Hj Hlt.
    assert (cand !! i = Some ri) as Hci
      by (eapply prefix_lookup_Some; eassumption).
    assert (cand !! j = Some rj) as Hcj
      by (eapply prefix_lookup_Some; eassumption).
    pose proof (StronglySorted_lookup _ cand i j ri rj Hsorted Hci Hcj Hlt)
      as Hord.
    unfold Storage.recent_order, Storage.created_desc in Hord.
    split; [lia|]. split; [lia|]. intros Hp Hc.
    assert (Row.rowid rj ≤ Row.rowid ri) as Hrowid by lia.
    destruct (Hsound ri (list_elem_of_lookup_2 _ _ _ Hi)) as [Hini _].
    destruct (Hsound rj (list_elem_of_lookup_2 _ _ _ Hj)) as [Hinj _].
    apply list_elem_of_lookup_1 in Hini as [b Hb].
    apply list_elem_of_lookup_1 in Hinj as [a Ha].
    exists a, b. split; [|split; assumption].
    destruct (Nat.lt_trichotomy a b) as [Hab|[Hab|Hab]]; [exact Hab| |].
    + subst b. assert (ri = rj) as -> by congruence.
      pose proof (NoDup_lookup _ _ _ _ Hnd Hci Hcj). lia.
    + pose proof (StronglySorted_lookup _ db b a ri rj Hasc Hb Ha Hab) as Hlt'.
      simpl in Hlt'. lia.
Qed.

(** Three rows of session type dm, one pinned and expired, two live and
    created in the same millisecond, under a limit of two and a filter on
    the session type. *)
Lemma getRecent_selects_and_orders_witness :
  let db := [sample_row 1 "a" 1 10 20; sample_row 2 "b" 0 50 7200050;
             sample_row 3 "c" 0 50 7200050] in
  let o := Storage.mkFilter (Some 2) None (Some "dm") None in
  rowid_ascending db
  ∧ Z.of_nat (length (Storage.getRecent (H := emptyJSON) 100 o db)) ≤ 2
  ∧ Entry.id <$> Storage.getRecent (H := emptyJSON) 100 o db = ["a"; "c"]
  ∧ ∀ r, r ∈ Storage.getRecent_rows 100 o db →
      r ∈ db ∧ (100 < Row.expires_at r ∨ Row.pinned r = 1)
      ∧ Row.session_type r = "dm".
Proof.
  intros db o.
  assert (rowid_ascending db) as Hasc
    by (unfold rowid_ascending; repeat constructor; simpl; lia).
  split; [exact Hasc|].
  destruct (getRecent_selects_and_orders (H := emptyJSON) 100 o db Hasc)
    as (_ & Hlen & Hsound & _).
  split; [apply Hlen; simpl; lia|]. split; [vm_compute; reflexivity|].
  intros r Hr. destruct (Hsound r Hr) as (Hin & Hlive & _ & Hst & _).
  split; [exact Hin|]. split; [exact Hlive|]. apply Hst. reflexivity.
Defined.

(** A negative limit is no limit to [LIMIT]: with [limit = -1] every
    live row comes back. *)
Example getRecent_limit_minus_one :
  let db := [sample_row 1 "a" 0 10 7200010; sample_row 2 "b" 0 20 7200020] in
  let o := Storage.mkFilter (Some (-1)) None None None in
  Entry.id <$> Storage.getRecent (H := emptyJSON) 30 o db = ["b"; "a"].
Proof. vm_compute. reflexivity. Qed.

(** ** Insertion order is kept by every statement *)

Lemma rowid_ascending_filter (P : Row.t → Prop) `{∀ r, Decision (P r)}
    (db : list Row.t) :
  rowid_ascending db → rowid_ascending (filter P db).
Proof.
  unfold rowid_ascending. induction 1 as [|r db Hs IH Hall].
  - constructor.
  - rewrite filter_cons. destruct (decide (P r)); [|exact IH].
    constructor; [exact IH|].
    rewrite Forall_forall in Hall |- *. intros x Hx.
    apply list_elem_of_filter in Hx as [_ Hx]. apply Hall, Hx.
Qed.

Lemma rowid_ascending_snoc (db : Storage.Table) (r : Row.t) :
  rowid_ascending db → Row.rowid r = Storage.next_rowid db →
  rowid_ascending (db ++ [r]).
Proof.
  unfold rowid_ascending. intros Hasc Hr. apply StronglySorted_app_2.
  - intros x1 x2 H1 H2. apply list_elem_of_singleton in H2. subst x2.
    rewrite Hr. apply next_rowid_gt, H1.
  - exact Hasc.
  - repeat constructor.
Qed.

Lemma rowid_ascending_mutate `{JSON} (db : Storage.Table) (op : Mutation) :
  rowid_ascending db → rowid_ascending (mutate db op).
Proof.
  intros Hasc. destruct op as [now uuid input ttl|i|i|i|t|now|k]; simpl;
    try (apply rowid_ascending_filter; exact Hasc).
  - unfold Storage.insert. case_bool_decide; [exact Hasc|].
    apply rowid_ascending_snoc; [exact Hasc|reflexivity].
  - unfold rowid_ascending.
    eapply (StronglySorted_fmap _ _ (λ a b, Row.rowid a < Row.rowid b));
      [|exact Hasc].
    intros x y. destruct (decide (Row.id x = i)), (decide (Row.id y = i));
      simpl; auto.
  - unfold rowid_ascending.
    eapply (StronglySorted_fmap _ _ (λ a b, Row.rowid a < Row.rowid b));
      [|exact Hasc].
    intros x y. destruct (decide (Row.id x = i)), (decide (Row.id y = i));
      simpl; auto.
Qed.

(** ** Clearing *)

Lemma foldl_delete_elem (ids : list string) (db : list Row.t) (r : Row.t) :
  r ∈ foldl (λ acc i, (Storage.delete i acc).2) db ids
  ↔ r ∈ db ∧ Row.id r ∉ ids.
Proof.
  revert db. induction ids as [|i ids IH]; intros db; simpl.
  - split; [intros Hr; split; [exact Hr|apply not_elem_of_nil]|tauto].
  - rewrite IH, list_elem_of_filter, not_elem_of_cons. tauto.
Qed.

Lemma foldl_fmap_ids {A B C} (f : A → B → A) (g : C → B) (a : A)
    (l : list C) :
  foldl (λ acc x, f acc (g x)) a l = foldl f a (g <$> l).
Proof. revert a. induction l as [|x l IH]; intros a; simpl; auto. Qed.

(** C9. [clear] reads the first 10000 entries of the store's [getRecent],
    that is, of the rows that are pinned or not yet expired, and deletes
    each by its id with the store's [delete], the statement behind the
    manager's own [delete]. The rows left are those of the table whose id
    was not read; when no more than 10000 rows are pinned or live, none of
    these is left. The method returns nothing. *)
Theorem clear_deletes_fetched `{JSON} (now : Z) (db : Storage.Table) :
  let everything := Storage.mkFilter (Some 10000) None None None in
  let fetched := Storage.getRecent now everything db in
  let after := (Manager.clear now db).2 in
  (Manager.clear now db).1 = Undefined
  ∧ Z.of_nat (length fetched) ≤ 10000
  ∧ after = foldl (λ acc e, (Manager.delete (Entry.id e) acc).2) db fetched
  ∧ (∀ r, r ∈ after ↔ r ∈ db ∧ Row.id r ∉ Entry.id <$> fetched)
  ∧ (∀ e, e ∈ fetched → Manager.getById (Entry.id e) after = None)
  ∧ (Z.of_nat (length (filter (Storage.recent_where now everything) db))
       ≤ 10000 →
     ∀ r, r ∈ after → ¬ (now < Row.expires_at r ∨ Row.pinned r = 1)).
Proof.
  intros everything fetched after.
  assert (∀ r, r ∈ after ↔ r ∈ db ∧ Row.id r ∉ Entry.id <$> fetched) as Hchar.
  { intros r. unfold after, Manager.clear. cbn [snd]. fold everything. fold fetched.
    rewrite (foldl_fmap_ids (λ acc i, (Storage.delete i acc).2) Entry.id).
    apply foldl_delete_elem. }
  split; [reflexivity|]. split.
  { unfold fetched, Storage.getRecent, Storage.getRecent_rows.
    rewrite length_fmap. apply (sql_limit_length 10000). lia. }
  split; [reflexivity|]. split; [exact Hchar|]. split.
  - intros e He. unfold Manager.getById, Storage.getById.
    destruct (filter (λ r, Row.id r = Entry.id e) after) as [|r l] eqn:E;
      [reflexivity|exfalso].
    assert (r ∈ filter (λ r, Row.id r = Entry.id e) after) as Hr
      by (rewrite E; left).
    apply list_elem_of_filter in Hr as [Hid Hr].
    apply Hchar in Hr as [_ Hnot]. apply Hnot. rewrite Hid.
    apply list_elem_of_fmap. eauto.
  - intros Hfew r Hr Hlive. apply Hchar in Hr as [Hin Hnot]. apply Hnot.
    assert (Storage.recent_where now everything r) as Hw
      by (unfold Storage.recent_where; simpl; tauto).
    assert (r ∈ Storage.getRecent_rows now everything db) as Hrow.
    { unfold Storage.getRecent_rows. simpl.
      set (cand := merge_sort Storage.recent_order
                     (filter (Storage.recent_where now everything) db)).
      assert (cand ≡ₚ filter (Storage.recent_where now everything) db) as Hperm
        by apply merge_sort_Permutation.
      assert (r ∈ cand) as Hc
        by (rewrite Hperm; apply list_elem_of_filter; split; assumption).
      destruct (sql_limit_complete 10000 cand r Hc) as [Hrow|(_ & _ & Hdrop)];
        [exact Hrow|].
      rewrite drop_ge in Hdrop; [inversion Hdrop|]. rewrite Hperm. lia. }
    unfold fetched, Storage.getRecent. rewrite <- list_fmap_compose.
    apply list_elem_of_fmap. exists r. split; [reflexivity|exact Hrow].
Qed.

(** C9, as stated, fails on the count: one live row is removed and the
    call returns [undefined], not the number of rows removed. *)
Lemma clear_returns_no_count :
  let db := [sample_row 1 "a" 0 10 7200010] in
  (Manager.clear (H := emptyJSON) 30 db).2 = []
  ∧ Storage.changes db (Manager.clear (H := emptyJSON) 30 db).2 = 1
  ∧ (Manager.clear (H := emptyJSON) 30 db).1 ≠ Number 1.
Proof.
  intros db. split; [vm_compute; reflexivity|].
  split; [vm_compute; reflexivity|]. vm_compute. discriminate.
Qed.

(** An expired row that is not pinned is not read, and so not deleted. *)
Example clear_leaves_expired :
  let db := [sample_row 1 "a" 0 10 20; sample_row 2 "b" 1 10 20;
             sample_row 3 "c" 0 25 7200025] in
  Row.id <$> (Manager.clear (H := emptyJSON) 30 db).2 = ["a"].
Proof. vm_compute. reflexivity. Qed.

(** ** Capture *)

Lemma substring_length (n : nat) (s : string) :
  String.length (String.substring 0 n s) = Nat.min n (String.length s).
Proof.
  revert s. induction n as [|n IH]; intros s.
  - destruct s; reflexivity.
  - destruct s as [|c s]; [reflexivity|]. simpl. rewrite IH. reflexivity.
Qed.

(** The summary: the trimmed text when it is not blank, cut to 197
    characters and three dots when longer than 200, else the fallback. *)
Lemma summary_of_cases (accumulatedText : option string) :
  match accumulatedText with
  | None => Capture.summary_of accumulatedText = Capture.fallback
  | Some a =>
      (Capture.trim a = "" →
       Capture.summary_of accumulatedText = Capture.fallback)
      ∧ (Capture.trim a ≠ "" → (String.length (Capture.trim a) ≤ 200)%nat →
         Capture.summary_of accumulatedText = Capture.trim a)
      ∧ ((200 < String.length (Capture.trim a))%nat →
         Capture.summary_of accumulatedText
         = String.substring 0 197 (Capture.trim a) +:+ "..."
         ∧ String.length (Capture.summary_of accumulatedText) = 200%nat)
  end.
Proof.
  destruct accumulatedText as [a|]; [|reflexivity].
  unfold Capture.summary_of.
  destruct (min1 a) eqn:Ha.
  - destruct (min1 (Capture.trim a)) eqn:Ht; simpl.
    + apply min1_true in Ht.
      destruct (Nat.ltb_spec 200 (String.length (Capture.trim a))) as [Hl|Hs].
      * split; [contradiction|]. split; [lia|]. intros _.
        split; [reflexivity|]. rewrite length_append, substring_length.
        change (String.length "...") with 3%nat. lia.
      * split; [contradiction|]. split; [reflexivity|lia].
    + apply min1_false in Ht. split; [reflexivity|].
      split; [contradiction|]. rewrite Ht. simpl. lia.
  - apply min1_false in Ha. subst a. simpl.
    split; [reflexivity|]. split; [intros Hne; exfalso; apply Hne; reflexivity|].
    change (Capture.trim "") with "". simpl. lia.
Qed.

Lemma forget_lookup (runId : string) (b : Capture.Buffers) :
  Capture.runTextBuffers (Capture.forget runId b) !! runId = None
  ∧ Capture.runSessionKeys (Capture.forget runId b) !! runId = None
  ∧ ∀ other, other ≠ runId →
      Capture.runTextBuffers (Capture.forget runId b) !! other
      = Capture.runTextBuffers b !! other
      ∧ Capture.runSessionKeys (Capture.forget runId b) !! other
        = Capture.runSessionKeys b !! other.
Proof.
  unfold Capture.forget. simpl. rewrite !lookup_delete_eq.
  split; [reflexivity|]. split; [reflexivity|].
  intros other Hne. rewrite !lookup_delete_ne by congruence. split; reflexivity.
Qed.

(** *** What [trim] strips *)

Lemma is_space_spec (c : ascii) : Capture.is_space c = true ↔ white_space c.
Proof.
  unfold Capture.is_space, white_space. set (n := nat_of_ascii c).
  rewrite !elem_of_cons, elem_of_nil.
  rewrite !orb_true_iff, andb_true_iff, !Nat.leb_le, !Nat.eqb_eq. lia.
Qed.

Lemma list_ascii_rev_string (s : string) :
  list_ascii_of_string (Capture.rev_string s)
  = reverse (list_ascii_of_string s).
Proof.
  unfold Capture.rev_string. rewrite list_ascii_of_string_of_list_ascii.
  apply rev_alt.
Qed.

(** [trim_start] drops white space, and all of it, from the front. *)
Lemma trim_start_spec (s : string) :
  ∃ pre : list ascii,
    list_ascii_of_string s = pre ++ list_ascii_of_string (Capture.trim_start s)
    ∧ Forall white_space pre
    ∧ ∀ c, head (list_ascii_of_string (Capture.trim_start s)) = Some c →
        ¬ white_space c.
Proof.
  induction s as [|c s (pre & Heq & Hpre & Hhead)].
  - exists []. split; [reflexivity|]. split; [constructor|]. intros c Hc.
    discriminate.
  - cbn [Capture.trim_start]. destruct (Capture.is_space c) eqn:Hc.
    + exists (c :: pre). cbn [list_ascii_of_string]. rewrite Heq.
      split; [reflexivity|]. split; [|exact Hhead].
      constructor; [apply is_space_spec, Hc|exact Hpre].
    + exists []. split; [reflexivity|]. split; [constructor|].
      intros c' Hc'. cbn in Hc'. inversion Hc'; subst c'.
      rewrite <- is_space_spec, Hc. discriminate.
Qed.

(** [trim] strips the white space, and all of it, from both ends. *)
Lemma trim_trimmed (a : string) : trimmed a (Capture.trim a).
Proof.
  unfold Capture.trim.
  destruct (trim_start_spec a) as (pre & Ha & Hpre & Hhead).
  set (s1 := Capture.trim_start a) in *.
  destruct (trim_start_spec (Capture.rev_string s1))
    as (pre2 & H2 & Hpre2 & Hhead2).
  set (s3 := Capture.trim_start (Capture.rev_string s1)) in *.
  rewrite list_ascii_rev_string in H2.
  assert (list_ascii_of_string s1
          = list_ascii_of_string (Capture.rev_string s3) ++ reverse pre2)
    as Hs1.
  { rewrite list_ascii_rev_string, <- reverse_app, <- H2.
    rewrite reverse_involutive. reflexivity. }
  exists pre, (reverse pre2). split; [rewrite Ha, Hs1; reflexivity|].
  split; [exact Hpre|]. split.
  { apply Forall_forall. intros c Hc. rewrite elem_of_reverse in Hc.
    rewrite Forall_forall in Hpre2. apply Hpre2, Hc. }
  split.
  - intros c Hc. apply Hhead. rewrite Hs1.
    destruct (list_ascii_of_string (Capture.rev_string s3)); [discriminate|].
    exact Hc.
  - intros c Hc. apply Hhead2. rewrite list_ascii_rev_string in Hc.
    rewrite last_reverse in Hc. exact Hc.
Qed.

(** Two ways of cutting white space off the front of one list, down to
    an element that is none, cut at the same place. *)
Lemma front_unique (p1 p2 x1 x2 : list ascii) :
  p1 ++ x1 = p2 ++ x2 → Forall white_space p1 → Forall white_space p2 →
  (∀ c, head x1 = Some c → ¬ white_space c) →
  (∀ c, head x2 = Some c → ¬ white_space c) →
  x1 ≠ [] → x2 ≠ [] → x1 = x2.
Proof.
  revert p2. induction p1 as [|a p1 IH]; intros p2 Heq H1 H2 Hx1 Hx2 N1 N2.
  - destruct p2 as [|b p2]; [exact Heq|]. exfalso.
    destruct x1 as [|c x1]; [contradiction|]. cbn in Heq.
    inversion Heq; subst c. apply (Hx1 b eq_refl).
    apply Forall_cons in H2 as [Hb _]. exact Hb.
  - destruct p2 as [|b p2].
    + exfalso. destruct x2 as [|c x2]; [contradiction|]. cbn in Heq.
      inversion Heq; subst c. apply (Hx2 a eq_refl).
      apply Forall_cons in H1 as [Ha _]. exact Ha.
    + cbn in Heq. inversion Heq; subst b.
      apply Forall_cons in H1 as [_ H1]. apply Forall_cons in H2 as [_ H2].
      eapply IH; eassumption.
Qed.

(** A string has one trimmed form. *)
Lemma trimmed_unique (a t1 t2 : string) :
  trimmed a t1 → trimmed a t2 → t1 = t2.
Proof.
  intros (p1 & q1 & E1 & Hp1 & Hq1 & Hh1 & Hl1)
         (p2 & q2 & E2 & Hp2 & Hq2 & Hh2 & Hl2).
  rewrite <- (string_of_list_ascii_of_string t1),
    <- (string_of_list_ascii_of_string t2). f_equal.
  set (l1 := list_ascii_of_string t1) in *.
  set (l2 := list_ascii_of_string t2) in *.
  assert (∀ l p q l' p' q',
            p ++ l ++ q = p' ++ l' ++ q' → l = [] →
            Forall white_space p → Forall white_space q →
            (∀ c, head l' = Some c → ¬ white_space c) → l' = []) as Hnil.
  { intros l p q l' p' q' E -> Hp Hq Hh. destruct l' as [|c l']; [reflexivity|].
    exfalso. apply (Hh c eq_refl).
    assert (c ∈ p ++ [] ++ q) as Hc
      by (rewrite E; rewrite !elem_of_app; right; left; left).
    rewrite Forall_forall in Hp, Hq.
    rewrite !elem_of_app in Hc. destruct Hc as [Hc|[Hc|Hc]]; auto.
    inversion Hc. }
  rewrite E1 in E2.
  destruct (decide (l1 = [])) as [N1|N1].
  { rewrite N1. symmetry. eapply (Hnil l1 p1 q1 l2 p2 q2); eassumption. }
  destruct (decide (l2 = [])) as [N2|N2].
  { rewrite N2. symmetry in E2.
    eapply (Hnil l2 p2 q2 l1 p1 q1); eassumption. }
  assert (l1 ++ q1 = l2 ++ q2) as Hrest.
  { apply (front_unique p1 p2); try assumption.
    - intros c Hc. apply Hh1. destruct l1; [contradiction|exact Hc].
    - intros c Hc. apply Hh2. destruct l2; [contradiction|exact Hc].
    - destruct l1; [contradiction|discriminate].
    - destruct l2; [contradiction|discriminate]. }
  apply (f_equal reverse) in Hrest. rewrite !reverse_app in Hrest.
  apply front_unique in Hrest.
  - apply (f_equal reverse) in Hrest. rewrite !reverse_involutive in Hrest.
    exact Hrest.
  - apply Forall_reverse, Hq1.
  - apply Forall_reverse, Hq2.
  - intros c Hc. rewrite head_reverse in Hc. apply Hl1, Hc.
  - intros c Hc. rewrite head_reverse in Hc. apply Hl2, Hc.
  - intros Hr. apply N1. apply (f_equal reverse) in Hr.
    rewrite reverse_involutive in Hr. exact Hr.
  - intros Hr. apply N2. apply (f_equal reverse) in Hr.
    rewrite reverse_involutive in Hr. exact Hr.
Qed.



(** *** One event *)








(** A run from its first text to its end, and a run that ends in error. *)
Example run_captures_once :
  (Capture.run default_env
     [assistant_event "run-1" "agent:main:telegram:group:-12" "  Done.  ";
      lifecycle_event "run-1" None "end"]
     no_buffers)
  = (no_buffers,
     [ {| Input.sessionKey := "agent:main:telegram:group:-12";
          Input.sessionType := "group"; Input.summary := "Done.";
          Input.taskId := None; Input.metadata := None |} ])
  ∧ Capture.run default_env
      [assistant_event "run-2" "hook:42" "partial";
       lifecycle_event "run-2" (Some "hook:42") "error"]
      no_buffers
    = (no_buffers, []).
Proof. split; vm_compute; reflexivity. Qed.

(** The text buffered for a run is that of its latest assistant event. *)
Example run_keeps_latest_text :
  Input.summary <$>
    (Capture.run default_env
       [assistant_event "run-1" "agent:main:main" "Hello ";
        assistant_event "run-1" "agent:main:main" "world";
        lifecycle_event "run-1" None "end"]
       no_buffers).2
  = ["world"].
Proof. vm_compute. reflexivity. Qed.

(** Text that is nothing but a no-break space counts as blank; and an
    empty session key on the event that ends a run is not replaced by the
    one remembered, so that no call is made. *)
Example run_blank_text_and_empty_key :
  Input.summary <$>
    (Capture.run default_env
       [assistant_event "run-1" "agent:main:main"
          (String (ascii_of_nat 160) "");
        lifecycle_event "run-1" None "end"]
       no_buffers).2
  = ["Agent turn completed"]
  ∧ (Capture.run default_env
       [assistant_event "run-1" "agent:main:main" "Done.";
        lifecycle_event "run-1" (Some "") "end"]
       no_buffers)
    = (no_buffers, []).
Proof. split; vm_compute; reflexivity. Qed.

(** ** The cap over a series of calls *)

Lemma filter_keeps_all {A} (P : A → Prop) `{∀ x, Decision (P x)}
    (l : list A) :
  Forall P l → filter P l = l.
Proof.
  induction 1 as [|x l Hx Hl IH]; [reflexivity|].
  rewrite filter_cons_True by exact Hx. rewrite IH. reflexivity.
Qed.

Lemma filter_drops_all {A} (P : A → Prop) `{∀ x, Decision (P x)}
    (l : list A) :
  Forall (λ x, ¬ P x) l → filter P l = [].
Proof.
  induction 1 as [|x l Hx Hl IH]; [reflexivity|].
  rewrite filter_cons_False by exact Hx. exact IH.
Qed.

Lemma rowid_inj (db : list Row.t) (r1 r2 : Row.t) :
  rowid_ascending db → r1 ∈ db → r2 ∈ db → Row.rowid r1 = Row.rowid r2 →
  r1 = r2.
Proof.
  intros Hasc H1 H2 Heq.
  apply list_elem_of_lookup_1 in H1 as [i Hi].
  apply list_elem_of_lookup_1 in H2 as [j Hj].
  destruct (Nat.lt_trichotomy i j) as [Hlt|[->|Hlt]]; [|congruence|].
  - pose proof (StronglySorted_lookup _ db i j r1 r2 Hasc Hi Hj Hlt) as Hr.
    simpl in Hr. lia.
  - pose proof (StronglySorted_lookup _ db j i r2 r1 Hasc Hj Hi Hlt) as Hr.
    simpl in Hr. lia.
Qed.

(** A table in insertion order whose creation times do not decrease is,
    read backwards, in the order of the subquery of [enforceMaxEntries]. *)
Lemma reverse_created_desc (db : list Row.t) :
  rowid_ascending db → created_ascending db →
  StronglySorted Storage.created_desc (reverse db).
Proof.
  unfold rowid_ascending, created_ascending.
  induction db as [|x l IH]; intros Hr Hc; [constructor|].
  apply StronglySorted_cons in Hr as [Hrx Hr].
  apply StronglySorted_cons in Hc as [Hcx Hc].
  rewrite reverse_cons. apply StronglySorted_app_2.
  - intros x1 x2 H1 H2. apply list_elem_of_singleton in H2. subst x2.
    rewrite elem_of_reverse in H1. rewrite Forall_forall in Hrx, Hcx.
    specialize (Hrx x1 H1). specialize (Hcx x1 H1).
    unfold Storage.created_desc. lia.
  - apply IH; assumption.
  - repeat constructor.
Qed.

Lemma filter_not_in_prefix (l1 l2 : list Row.t) :
  primary_key (l1 ++ l2) →
  filter (λ r, Row.id r ∉ Row.id <$> reverse l1) (l1 ++ l2) = l2.
Proof.
  intros Hpk. rewrite filter_app.
  rewrite filter_drops_all, filter_keeps_all; [reflexivity| |].
  - apply Forall_forall. intros r Hr Hin.
    apply list_elem_of_fmap in Hin as (r' & Hid & Hr').
    rewrite elem_of_reverse in Hr'.
    assert (r = r') as <-.
    { eapply primary_key_inj; [exact Hpk| | |exact Hid];
        apply elem_of_app; [right|left]; assumption. }
    unfold primary_key in Hpk. rewrite fmap_app in Hpk.
    apply NoDup_app in Hpk as (_ & Hdisj & _).
    apply (Hdisj (Row.id r)); apply list_elem_of_fmap; eauto.
  - apply Forall_forall. intros r Hr Hnot. apply Hnot.
    apply list_elem_of_fmap. exists r. split; [reflexivity|].
    rewrite elem_of_reverse. exact Hr.
Qed.

(** On such a table with no pinned row, the cap keeps the last
    [maxEntries] rows. *)
Lemma enforceMaxEntries_ascending (k : Z) (db : list Row.t) :
  primary_key db → rowid_ascending db → created_ascending db →
  Forall (λ r, Row.pinned r = 0) db →
  (Storage.enforceMaxEntries k db).2 = drop (length db - Z.to_nat k) db.
Proof.
  intros Hpk Hrow Hcre Hunp. simpl. unfold Storage.enforce_subquery.
  rewrite (filter_keeps_all _ db Hunp).
  assert (merge_sort Storage.created_desc db = reverse db) as ->.
  { apply StronglySorted_unique_strong with (R := Storage.created_desc).
    - intros x1 x2 H1 H2 H12 H21.
      rewrite merge_sort_Permutation in H1. rewrite elem_of_reverse in H2.
      apply (rowid_inj db x1 x2 Hrow H1 H2).
      unfold Storage.created_desc in H12, H21. lia.
    - apply StronglySorted_merge_sort; apply _.
    - apply reverse_created_desc; assumption.
    - rewrite merge_sort_Permutation. symmetry. apply reverse_Permutation. }
  unfold Storage.sql_offset. rewrite drop_reverse.
  set (m := (length db - Z.to_nat k)%nat).
  transitivity
    (filter (λ r, Row.id r ∉ Row.id <$> reverse (take m db))
       (take m db ++ drop m db)).
  - rewrite take_drop. reflexivity.
  - apply filter_not_in_prefix. rewrite take_drop. exact Hpk.
Qed.

Section cap_facts.
Context `{JSON}.

Lemma stored_ids (ttlMinutes : Z) (db : list Row.t) (calls : list Call.t) :
  Forall2 (stored_as ttlMinutes) db calls →
  Row.id <$> db = Call.uuid <$> calls.
Proof.
  induction 1 as [|r c db calls Hrc Hrest IH]; [reflexivity|].
  rewrite !fmap_cons, IH. destruct Hrc as [-> _]. reflexivity.
Qed.

Lemma stored_unpinned (ttlMinutes : Z) (db : list Row.t)
    (calls : list Call.t) :
  Forall2 (stored_as ttlMinutes) db calls →
  Forall (λ r, Row.pinned r = 0) db.
Proof.
  induction 1 as [|r c db calls Hrc Hrest IH]; constructor; [|exact IH].
  destruct Hrc as (_ & _ & _ & _ & _ & Hp & _). exact Hp.
Qed.

(** The row an insertion appends is the one its call asks for. *)
Lemma insert_stored (ttlMinutes : Z) (c : Call.t) (db : Storage.Table) :
  Call.uuid c ∉ Row.id <$> db →
  ∃ entry row,
    Storage.insert (Call.t_insert c) (Call.uuid c) (Call.input c)
      ttlMinutes db
    = inr (entry, db ++ [row])
    ∧ stored_as ttlMinutes row c
    ∧ Row.rowid row = Storage.next_rowid db.
Proof.
  intros Hfresh. unfold Storage.insert.
  rewrite bool_decide_eq_false_2 by exact Hfresh.
  eexists _, _. split; [reflexivity|]. split; [|reflexivity].
  repeat split; reflexivity.
Qed.

Lemma settled_length (ttlMinutes : Z) (k : nat) (calls : list Call.t)
    (db : Storage.Table) :
  settled ttlMinutes k calls db → length db = Nat.min (length calls) k.
Proof.
  intros (Hst & _). apply Forall2_length in Hst.
  rewrite Hst, length_drop. lia.
Qed.

(** One more call of [add] that finds the rows stored dated no later
    than its own and none of them expired keeps the table settled. *)
Lemma add_settled (config : Config.t) (calls : list Call.t) (c : Call.t)
    (db : Storage.Table) :
  let ttl := Config.defaultTtlMinutes config in
  let k := Z.to_nat (Config.maxEntries config) in
  0 < Config.maxEntries config →
  valid_input (Call.input c) →
  NoDup (Call.uuid <$> (calls ++ [c])) →
  Forall (λ c', keeps_alive ttl c' c) (drop (length calls - k) calls) →
  settled ttl k calls db →
  settled ttl k (calls ++ [c])
    (Manager.add config (Call.t_prune c) (Call.t_insert c) (Call.uuid c)
       (Call.input c) db).2.
Proof.
  intros ttl k Hk Hvalid Hnd Halive Hset.
  pose proof (settled_length ttl k calls db Hset) as Hlen.
  destruct Hset as (Hst & Hrow & Hcre).
  set (W := drop (length calls - k) calls) in *.
  pose proof (stored_ids ttl db W Hst) as Hids.
  pose proof (stored_unpinned ttl db W Hst) as Hunp.
  rewrite fmap_app in Hnd. apply NoDup_app in Hnd as (Hnd0 & Hdisj & _).
  assert (Call.uuid <$> W `sublist_of` Call.uuid <$> calls) as Hsub
    by apply fmap_sublist, sublist_drop.
  assert (primary_key db) as Hpk.
  { unfold primary_key. rewrite Hids.
    eapply sublist_NoDup; [exact Hnd0|exact Hsub]. }
  assert (Call.uuid c ∉ Row.id <$> db) as Hfresh.
  { rewrite Hids. intros Hin. apply (Hdisj (Call.uuid c)).
    - eapply elem_of_sublist; [exact Hin|exact Hsub].
    - apply list_elem_of_singleton. reflexivity. }
  rewrite Forall_forall in Halive.
  assert (∀ r, r ∈ db →
            Row.created_at r ≤ Call.t_insert c
            ∧ Call.t_prune c < Row.expires_at r) as Hbounds.
  { intros r Hr. apply list_elem_of_lookup_1 in Hr as [i Hi].
    destruct (Forall2_lookup_l _ _ _ _ _ Hst Hi) as (c' & Hc' & Hrc).
    destruct (Halive c' (list_elem_of_lookup_2 _ _ _ Hc')) as [Hle Hlt].
    destruct Hrc as (_ & _ & _ & _ & _ & _ & Hcr & Hex & _). lia. }
  unfold Manager.add. rewrite (parse_valid _ Hvalid).
  assert ((Manager.pruneExpired (Call.t_prune c) db).2 = db) as ->.
  { unfold Manager.pruneExpired, Storage.pruneExpired. cbn [snd].
    apply filter_keeps_all. apply Forall_forall. intros r Hr [Hexp _].
    destruct (Hbounds r Hr). lia. }
  destruct (insert_stored ttl c db Hfresh) as (entry & row & Hins & Hrc & Hrr).
  fold ttl. rewrite Hins. cbn [snd].
  assert (Row.id row = Call.uuid c) as Hrid by (destruct Hrc as [-> _]; reflexivity).
  assert (primary_key (db ++ [row])) as Hpk2
    by (apply primary_key_snoc; [exact Hpk|rewrite Hrid; exact Hfresh]).
  assert (rowid_ascending (db ++ [row])) as Hrow2
    by (apply rowid_ascending_snoc; assumption).
  assert (created_ascending (db ++ [row])) as Hcre2.
  { apply StronglySorted_app_2; [|exact Hcre|repeat constructor].
    intros x1 x2 H1 H2. apply list_elem_of_singleton in H2. subst x2.
    destruct Hrc as (_ & _ & _ & _ & _ & _ & -> & _). apply Hbounds, H1. }
  assert (Forall2 (stored_as ttl) (db ++ [row]) (W ++ [c])) as Hst2
    by (apply Forall2_app; [exact Hst|constructor; [exact Hrc|constructor]]).
  assert (Forall (λ r, Row.pinned r = 0) (db ++ [row])) as Hunp2
    by (eapply stored_unpinned; exact Hst2).
  rewrite (enforceMaxEntries_ascending _ (db ++ [row]) Hpk2 Hrow2 Hcre2 Hunp2).
  fold k. set (m := (length (db ++ [row]) - k)%nat).
  split; [|split].
  - assert (drop (length (calls ++ [c]) - k) (calls ++ [c])
            = drop m (W ++ [c])) as ->.
    { unfold W. rewrite <- drop_app_le by lia. rewrite drop_drop.
      f_equal. unfold m. rewrite !length_app. simpl. lia. }
    apply Forall2_drop, Hst2.
  - unfold rowid_ascending in *. rewrite <- (take_drop m (db ++ [row])) in Hrow2.
    apply StronglySorted_app_1_r in Hrow2. exact Hrow2.
  - unfold created_ascending in *.
    rewrite <- (take_drop m (db ++ [row])) in Hcre2.
    apply StronglySorted_app_1_r in Hcre2. exact Hcre2.
Qed.

Lemma add_all_settled (config : Config.t) (calls : list Call.t) :
  let ttl := Config.defaultTtlMinutes config in
  let k := Z.to_nat (Config.maxEntries config) in
  0 < Config.maxEntries config →
  Forall (λ c, valid_input (Call.input c)) calls →
  NoDup (Call.uuid <$> calls) →
  window_alive ttl k calls →
  settled ttl k calls (add_all config calls []).
Proof.
  intros ttl k Hk. induction calls as [|c calls IH] using rev_ind;
    intros Hvalid Hnd Hwin.
  - split; [constructor|]. split; constructor.
  - unfold add_all. rewrite foldl_app. cbn [foldl].
    apply Forall_app in Hvalid as [Hvalid Hc].
    apply add_settled.
    + exact Hk.
    + apply Forall_inv in Hc. exact Hc.
    + exact Hnd.
    + apply Forall_forall. intros c' Hc'.
      apply list_elem_of_lookup_1 in Hc' as [i Hi].
      rewrite lookup_drop in Hi.
      pose proof (lookup_lt_Some _ _ _ Hi) as Hlt.
      apply (Hwin (length calls - Z.to_nat (Config.maxEntries config) + i)%nat
               (length calls)).
      * rewrite lookup_app_l by exact Hlt. exact Hi.
      * rewrite lookup_app_r by lia. rewrite Nat.sub_diag. reflexivity.
      * fold k. lia.
    + apply IH; [exact Hvalid| |].
      * rewrite fmap_app in Hnd. apply NoDup_app in Hnd as (Hnd & _). exact Hnd.
      * intros i j c1 c2 Hi Hj Hij. apply (Hwin i j); [| |exact Hij].
        -- apply lookup_app_l_Some. exact Hi.
        -- apply lookup_app_l_Some. exact Hj.
Qed.

(** Calls any two of which keep the earlier entry alive do so within
    every window. *)
Lemma pairwise_window_alive (ttlMinutes : Z) (k : nat)
    (calls : list Call.t) :
  StronglySorted (keeps_alive ttlMinutes) calls →
  window_alive ttlMinutes k calls.
Proof.
  intros Hs i j c c' Hi Hj [Hlt _].
  exact (StronglySorted_lookup _ calls i j c c' Hs Hi Hj Hlt).
Qed.

End cap_facts.

(** C3. Calls of [add] on an empty table, oldest first, under a cap of
    [k >= 1]: when every input is valid, the ids drawn are distinct and
    every call finds the entries of the [k] calls before it, the ones
    still stored, dated no later than its own and not expired when it
    prunes, the table ends with the rows of the last [k] calls, one for
    one and in the order of the calls, none pinned; their number is [k]
    when there were more than [k] calls, and the number of calls
    otherwise. *)
Theorem add_all_keeps_newest `{JSON} (config : Config.t)
    (calls : list Call.t) :
  let k := Config.maxEntries config in
  let ttl := Config.defaultTtlMinutes config in
  let db := add_all config calls [] in
  let newest := drop (length calls - Z.to_nat k) calls in
  0 < k →
  Forall (λ c, valid_input (Call.input c)) calls →
  NoDup (Call.uuid <$> calls) →
  (∀ (i j : nat) (c c' : Call.t),
     calls !! i = Some c → calls !! j = Some c' →
     (i < j ≤ i + Z.to_nat k)%nat →
     Call.t_insert c ≤ Call.t_insert c'
     ∧ Call.t_prune c' < Call.t_insert c + ttl * 60 * 1000) →
  Manager.count db = Z.min k (Z.of_nat (length calls))
  ∧ (k < Z.of_nat (length calls) → Manager.count db = k)
  ∧ Row.id <$> db = Call.uuid <$> newest
  ∧ Forall2 (stored_as ttl) db newest
  ∧ Forall (λ r, Row.pinned r = 0) db.
Proof.
  intros k ttl db newest Hk Hvalid Hnd Hwin.
  pose proof (add_all_settled config calls Hk Hvalid Hnd Hwin) as Hset.
  pose proof (settled_length _ _ _ _ Hset) as Hlen.
  destruct Hset as (Hst & _).
  fold db in Hst, Hlen. fold k in Hst, Hlen. fold ttl in Hst. fold newest in Hst.
  assert (Manager.count db = Z.min k (Z.of_nat (length calls))) as Hcount
    by (unfold Manager.count, Storage.count; rewrite Hlen; lia).
  split; [exact Hcount|]. split; [intros Hmore; rewrite Hcount; lia|].
  split; [eapply stored_ids; exact Hst|].
  split; [exact Hst|]. eapply stored_unpinned. exact Hst.
Qed.

(** Four calls fifty minutes apart under a cap of two and a time to live
    of two hours: the first entry would have expired by the fourth call,
    had the cap not removed it at the third. *)
Lemma add_all_keeps_newest_witness :
  let config := Config.mk 2 120 in
  let calls :=
    [sample_call 0 "a" "Entry 0"; sample_call 3000000 "b" "Entry 1";
     sample_call 6000000 "c" "Entry 2"; sample_call 9000000 "d" "Entry 3"] in
  Manager.count (add_all (H := emptyJSON) config calls []) = 2
  ∧ Row.id <$> add_all (H := emptyJSON) config calls [] = ["c"; "d"]
  ∧ Row.summary <$> add_all (H := emptyJSON) config calls []
    = ["Entry 2"; "Entry 3"].
Proof.
  intros config calls.
  destruct (add_all_keeps_newest (H := emptyJSON) config calls)
    as (_ & Hcount & Hids & Hst & _).
  - simpl. lia.
  - apply (bool_decide_unpack _). vm_compute. exact I.
  - apply (bool_decide_unpack _). vm_compute. exact I.
  - intros i j c c' Hi Hj Hij.
    destruct i as [|[|[|[|i]]]], j as [|[|[|[|j]]]];
      cbn in Hi, Hj; simplify_eq; cbn in Hij |- *; lia.
  - split; [apply Hcount; simpl; lia|]. split; [exact Hids|].
    vm_compute. reflexivity.
Defined.

(** Five calls within two milliseconds under a cap of three, as in the
    test of the repository. *)
Example add_all_burst :
  let config := Config.mk 3 120 in
  let calls :=
    [sample_call 1000 "a" "Entry 0"; sample_call 1000 "b" "Entry 1";
     sample_call 1000 "c" "Entry 2"; sample_call 1001 "d" "Entry 3";
     sample_call 1001 "e" "Entry 4"] in
  Manager.count (add_all (H := emptyJSON) config calls []) = 3
  ∧ Row.id <$> add_all (H := emptyJSON) config calls [] = ["c"; "d"; "e"].
Proof. split; vm_compute; reflexivity. Qed.

(** C3, as stated, fails when entries expire between the calls: with a
    time to live of zero minutes and a cap of two, three calls one
    millisecond apart leave one row, the last. *)
Lemma add_all_expiring :
  let config := Config.mk 2 0 in
  let calls :=
    [sample_call 1000 "a" "Entry 0"; sample_call 1001 "b" "Entry 1";
     sample_call 1002 "c" "Entry 2"] in
  ManagerConfigSchema_ok config
  ∧ Config.maxEntries config < Z.of_nat (length calls)
  ∧ Manager.count (add_all (H := emptyJSON) config calls []) = 1
  ∧ Row.id <$> add_all (H := emptyJSON) config calls [] = ["c"]
  ∧ Manager.count (add_all (H := emptyJSON) config calls [])
    ≠ Config.maxEntries config.
Proof.
  intros config calls. split; [split; simpl; lia|].
  split; [simpl; lia|]. split; [vm_compute; reflexivity|].
  split; [vm_compute; reflexivity|]. vm_compute. discriminate.
Qed.

(** ** The clock and the dates of the rows *)

(** While the clock does not run backwards, no row is dated after the
    latest reading: the assumption of C2 on the dates holds of every table
    that calls of [add] have built. *)
Lemma add_dated `{JSON} (config : Config.t) (t_prune t_insert t t' : Z)
    (uuid : string) (input : Input.t) (db : Storage.Table) :
  (∀ r, r ∈ db → Row.created_at r ≤ t) → t ≤ t' → t_insert ≤ t' →
  ∀ r, r ∈ (Manager.add config t_prune t_insert uuid input db).2 →
    Row.created_at r ≤ t'.
Proof.
  intros Hdb Ht Hins r. unfold Manager.add.
  destruct (CreateEntrySchema_parse input) as [e|validated]; cbn [snd].
  - intros Hr. specialize (Hdb r Hr). lia.
  - assert (∀ x, x ∈ (Manager.pruneExpired t_prune db).2 → x ∈ db) as Hsub
      by (intros x Hx; apply list_elem_of_filter in Hx as [_ Hx]; exact Hx).
    unfold Storage.insert. case_bool_decide; cbn [snd].
    + intros Hr. specialize (Hdb r (Hsub r Hr)). lia.
    + intros Hr. apply list_elem_of_filter in Hr as [_ Hr].
      apply elem_of_app in Hr as [Hr|Hr].
      * specialize (Hdb r (Hsub r Hr)). lia.
      * apply list_elem_of_singleton in Hr. subst r. simpl. lia.
Qed.

(** * Further properties of the store *)

Section store_extras.
Context `{JSON}.
Import Storage.

Lemma update_pinned_elem (v : Z) (i : string) (db : list Row.t) (r : Row.t) :
  r ∈ (update_pinned v i db).2
  ↔ ∃ r0, r0 ∈ db
          ∧ r = (if decide (Row.id r0 = i) then set_pinned v r0 else r0).
Proof.
  simpl. rewrite list_elem_of_fmap. split; intros (r0 & H1 & H2); eauto.
Qed.

Lemma filter_id_update_pinned (v : Z) (i j : string) (db : list Row.t) :
  j ≠ i →
  filter (λ r, Row.id r = j) (update_pinned v i db).2
  = filter (λ r, Row.id r = j) db.
Proof.
  intros Hne. unfold update_pinned. cbn [snd]. unfold Table.
  induction db as [|x l IH]; [reflexivity|].
  rewrite fmap_cons. destruct (decide (Row.id x = i)) as [Hx|Hx].
  - rewrite !filter_cons_False, IH; [reflexivity|congruence|simpl; congruence].
  - destruct (decide (Row.id x = j)) as [Hj|Hj].
    + rewrite !filter_cons_True, IH by exact Hj. reflexivity.
    + rewrite !filter_cons_False, IH by exact Hj. reflexivity.
Qed.

Lemma getById_absent (i : string) (db : Table) :
  i ∉ Row.id <$> db → getById i db = None.
Proof.
  intros Hnot. unfold getById.
  destruct (filter (λ r, Row.id r = i) db) as [|r l] eqn:E; [reflexivity|].
  exfalso. apply Hnot.
  assert (r ∈ filter (λ r, Row.id r = i) db) as Hr by (rewrite E; left).
  apply list_elem_of_filter in Hr as [Hid Hin].
  apply list_elem_of_fmap. eauto.
Qed.

(** X1. [pin] and [unpin] of an id that is in the table report a change,
    leave every other row and the number of rows as they were, and
    change nothing of the row but its flag: [getById] then returns the
    entry it returned before with [pinned] true, respectively false. *)
Theorem pin_unpin_present (i : string) (db : Table) (e : Entry.t) :
  primary_key db → getById i db = Some e →
  let flagged (b : bool) :=
    {| Entry.id := Entry.id e; Entry.sessionKey := Entry.sessionKey e;
       Entry.sessionType := Entry.sessionType e;
       Entry.summary := Entry.summary e; Entry.taskId := Entry.taskId e;
       Entry.pinned := b; Entry.createdAt := Entry.createdAt e;
       Entry.expiresAt := Entry.expiresAt e;
       Entry.metadata := Entry.metadata e |} in
  (pin i db).1 = true
  ∧ getById i (pin i db).2 = Some (flagged true)
  ∧ (unpin i db).1 = true
  ∧ getById i (unpin i db).2 = Some (flagged false)
  ∧ (∀ j, j ≠ i →
       getById j (pin i db).2 = getById j db
       ∧ getById j (unpin i db).2 = getById j db)
  ∧ count (pin i db).2 = count db
  ∧ count (unpin i db).2 = count db.
Proof.
  intros Hpk Hget flagged.
  assert (∃ r, r ∈ db ∧ Row.id r = i ∧ e = rowToEntry r) as (r & Hr & Hid & He).
  { unfold getById in Hget.
    destruct (filter (λ r, Row.id r = i) db) as [|r l] eqn:E; [discriminate|].
    assert (r ∈ filter (λ r, Row.id r = i) db) as Hr by (rewrite E; left).
    apply list_elem_of_filter in Hr as [Hid Hin].
    exists r. simpl in Hget. inversion Hget. auto. }
  assert (i ∈ Row.id <$> db) as Hin
    by (apply list_elem_of_fmap; exists r; auto).
  assert (∀ v, getById i (update_pinned v i db).2
               = Some (rowToEntry (set_pinned v r))) as Hflag.
  { intros v.
    assert (set_pinned v r ∈ (update_pinned v i db).2) as Hr'.
    { apply update_pinned_elem. exists r. split; [exact Hr|].
      rewrite decide_True by exact Hid. reflexivity. }
    rewrite <- (getById_elem _ (set_pinned v r)
                  (primary_key_update_pinned v i db Hpk) Hr').
    simpl. rewrite Hid. reflexivity. }
  assert (∀ v j, j ≠ i → getById j (update_pinned v i db).2 = getById j db)
    as Hother.
  { intros v j Hne. unfold getById. f_equal. f_equal.
    apply filter_id_update_pinned, Hne. }
  unfold pin, unpin. subst flagged e.
  split; [simpl; apply bool_decide_eq_true_2, Hin|].
  split; [rewrite Hflag; reflexivity|].
  split; [simpl; apply bool_decide_eq_true_2, Hin|].
  split; [rewrite Hflag; reflexivity|].
  split; [intros j Hne; split; apply Hother, Hne|].
  unfold count. simpl. rewrite !length_fmap. split; reflexivity.
Qed.


(** X2. An id that is not in the table: [getById] returns nothing, and
    [pin], [unpin] and [delete] report no change and leave the table as
    it is. *)
Theorem absent_id_changes_nothing (i : string) (db : Table) :
  i ∉ Row.id <$> db →
  getById i db = None
  ∧ pin i db = (false, db)
  ∧ unpin i db = (false, db)
  ∧ delete i db = (false, db).
Proof.
  intros Hnot.
  assert (∀ v, update_pinned v i db = (false, db)) as Hupd.
  { intros v. unfold update_pinned. f_equal.
    - apply bool_decide_eq_false_2, Hnot.
    - rewrite <- (list_fmap_id db) at 2. apply list_fmap_ext.
      intros k r Hk. rewrite decide_False; [reflexivity|].
      intros Hid. apply Hnot. apply list_elem_of_fmap. exists r.
      split; [symmetry; exact Hid|]. eapply list_elem_of_lookup_2, Hk. }
  split; [apply getById_absent, Hnot|].
  split; [apply Hupd|]. split; [apply Hupd|].
  unfold delete.
  assert (filter (λ r, Row.id r ≠ i) db = db) as ->.
  { apply filter_keeps_all, Forall_forall. intros r Hr Hid. apply Hnot.
    apply list_elem_of_fmap. eauto. }
  unfold changes. rewrite Z.sub_diag. reflexivity.
Qed.


(** X3. [pin] and [unpin] are idempotent, the later of two flags on one
    id wins, and on a row that is not pinned [pin] then [unpin] gives the
    table back. *)
Theorem pin_unpin_compose (i : string) (db : Table) :
  (pin i (pin i db).2).2 = (pin i db).2
  ∧ (unpin i (unpin i db).2).2 = (unpin i db).2
  ∧ (unpin i (pin i db).2).2 = (unpin i db).2
  ∧ (pin i (unpin i db).2).2 = (pin i db).2
  ∧ ((∀ r, r ∈ db → Row.id r = i → Row.pinned r = 0) →
     (unpin i (pin i db).2).2 = db).
Proof.
  assert (∀ v w, (update_pinned w i (update_pinned v i db).2).2
                 = (update_pinned w i db).2) as Hlast.
  { intros v w. simpl. rewrite <- list_fmap_compose. apply list_fmap_ext.
    intros k r _. simpl. destruct (decide (Row.id r = i)) as [Hid|Hid].
    - simpl. rewrite decide_True by exact Hid. reflexivity.
    - rewrite decide_False by exact Hid. reflexivity. }
  unfold pin, unpin. repeat (split; [apply Hlast|]).
  intros Hunp. rewrite Hlast. simpl.
  rewrite <- (list_fmap_id db) at 2. apply list_fmap_ext.
  intros k r Hk. destruct (decide (Row.id r = i)) as [Hid|Hid]; [|reflexivity].
  rewrite <- (Hunp r (list_elem_of_lookup_2 _ _ _ Hk) Hid).
  apply set_pinned_same.
Qed.

End store_extras.

Lemma pin_unpin_present_witness :
  let db := [sample_row 1 "a" 0 10 20; sample_row 2 "b" 1 10 20] in
  (Storage.pin "a" db).1 = true
  ∧ Entry.pinned <$>
      Storage.getById (H := emptyJSON) "a" (Storage.pin "a" db).2
    = Some true
  ∧ Entry.pinned <$>
      Storage.getById (H := emptyJSON) "b" (Storage.unpin "b" db).2
    = Some false.
Proof.
  intros db.
  assert (primary_key db) as Hpk
    by (unfold primary_key; apply (bool_decide_unpack _); vm_compute; exact I).
  destruct (pin_unpin_present (H := emptyJSON) "a" db
              (Storage.rowToEntry (H := emptyJSON) (sample_row 1 "a" 0 10 20))
              Hpk eq_refl) as (Hp & Hgp & _).
  destruct (pin_unpin_present (H := emptyJSON) "b" db
              (Storage.rowToEntry (H := emptyJSON) (sample_row 2 "b" 1 10 20))
              Hpk eq_refl) as (_ & _ & _ & Hgu & _).
  split; [exact Hp|]. split; [rewrite Hgp; reflexivity|].
  rewrite Hgu. reflexivity.
Defined.

Lemma absent_id_changes_nothing_witness :
  let db := [sample_row 1 "a" 0 10 20] in
  Storage.getById (H := emptyJSON) "zz" db = None
  ∧ Storage.pin "zz" db = (false, db)
  ∧ Storage.unpin "zz" db = (false, db)
  ∧ Storage.delete "zz" db = (false, db).
Proof.
  intros db. apply (absent_id_changes_nothing (H := emptyJSON) "zz" db).
  apply (bool_decide_unpack _). vm_compute. exact I.
Defined.

Section delete_extras.
Context `{JSON}.
Import Storage.

Lemma length_filter_complement {A} (P : A → Prop) `{∀ x, Decision (P x)}
    (l : list A) :
  (length (filter P l) + length (filter (λ x, ¬ P x) l) = length l)%nat.
Proof.
  rewrite <- length_app. apply Permutation_length, filter_app_complement.
Qed.

Lemma length_filter_id (i : string) (db : list Row.t) :
  primary_key db → i ∈ Row.id <$> db →
  length (filter (λ r, Row.id r = i) db) = 1%nat.
Proof.
  unfold primary_key. induction db as [|x l IH]; intros Hnd Hin.
  - inversion Hin.
  - rewrite fmap_cons in Hnd, Hin. apply NoDup_cons in Hnd as [Hx Hnd].
    destruct (decide (Row.id x = i)) as [Hid|Hid].
    + rewrite filter_cons_True by exact Hid. simpl. f_equal.
      rewrite filter_drops_all; [reflexivity|].
      apply Forall_forall. intros r Hr Hri. apply Hx. rewrite Hid, <- Hri.
      apply list_elem_of_fmap. eauto.
    + rewrite filter_cons_False by exact Hid. apply IH; [exact Hnd|].
      apply elem_of_cons in Hin as [Hin|Hin]; [congruence|exact Hin].
Qed.

(** X4. [delete] of an id that is in the table reports a change, removes
    that one row and no other: the number of rows drops by one, [getById]
    no longer finds the id and finds every other id as before. *)
Theorem delete_present (i : string) (db : Table) :
  primary_key db → i ∈ Row.id <$> db →
  (delete i db).1 = true
  ∧ count (delete i db).2 = count db - 1
  ∧ getById i (delete i db).2 = None
  ∧ (∀ j, j ≠ i → getById j (delete i db).2 = getById j db)
  ∧ (∀ r, r ∈ (delete i db).2 ↔ r ∈ db ∧ Row.id r ≠ i).
Proof.
  intros Hpk Hin.
  assert (count (delete i db).2 = count db - 1) as Hcount.
  { unfold delete, count. cbn [snd].
    pose proof (length_filter_complement (λ r, Row.id r = i) db) as Hsum.
    rewrite (length_filter_id i db Hpk Hin) in Hsum. unfold Table in *. lia. }
  split; [|split; [exact Hcount|split; [|split]]].
  - unfold delete, changes, count in *. cbn [fst snd] in *.
    apply Z.ltb_lt. unfold Table in *. lia.
  - apply getById_absent. intros Hi.
    apply list_elem_of_fmap in Hi as (r & -> & Hr).
    apply list_elem_of_filter in Hr as [Hne _]. apply Hne. reflexivity.
  - intros j Hne. unfold getById, delete. cbn [snd]. f_equal. f_equal.
    unfold Table. rewrite list_filter_filter. apply list_filter_iff. intros r.
    split; [tauto|]. intros Hj. split; [exact Hj|congruence].
  - intros r. unfold delete. cbn [snd]. rewrite list_elem_of_filter. tauto.
Qed.

Lemma getByTaskId_length (t : string) (db : Table) :
  length (getByTaskId t db)
  = length (filter (λ r, Row.task_id r = Some t) db).
Proof.
  unfold getByTaskId. rewrite length_fmap.
  apply Permutation_length, merge_sort_Permutation.
Qed.

(** X5. [deleteByTaskId] returns the number of entries [getByTaskId]
    finds for the task, which is by how much the number of rows drops;
    afterwards [getByTaskId] finds none for that task and, for every
    other task, what it found before; the rows left are those of other
    tasks or of none. *)
Theorem deleteByTaskId_counts (t : string) (db : Table) :
  (deleteByTaskId t db).1 = Z.of_nat (length (getByTaskId t db))
  ∧ count (deleteByTaskId t db).2 = count db - (deleteByTaskId t db).1
  ∧ getByTaskId t (deleteByTaskId t db).2 = []
  ∧ (∀ t', t' ≠ t →
       getByTaskId t' (deleteByTaskId t db).2 = getByTaskId t' db)
  ∧ (∀ r, r ∈ (deleteByTaskId t db).2
          ↔ r ∈ db ∧ Row.task_id r ≠ Some t).
Proof.
  pose proof (length_filter_complement (λ r, Row.task_id r = Some t) db)
    as Hsum.
  split; [|split; [|split; [|split]]].
  - rewrite getByTaskId_length. unfold deleteByTaskId, changes.
    cbn [fst]. unfold Table in *. lia.
  - unfold deleteByTaskId, changes, count. cbn [fst snd]. lia.
  - unfold getByTaskId, deleteByTaskId. cbn [snd]. unfold Table.
    rewrite filter_drops_all; [reflexivity|].
    apply Forall_forall. intros r Hr.
    apply list_elem_of_filter in Hr as [Hne _]. exact Hne.
  - intros t' Hne. unfold getByTaskId, deleteByTaskId. cbn [snd].
    f_equal. f_equal. unfold Table. rewrite list_filter_filter.
    apply list_filter_iff.
    intros r. split; [tauto|]. intros Hr. split; [exact Hr|congruence].
  - intros r. unfold deleteByTaskId. cbn [snd].
    rewrite list_elem_of_filter. tauto.
Qed.

(** X6. [getByTaskId] returns exactly the entries of the task, expired
    and pinned ones alike and however many they are, the later created
    first, and those created in the same millisecond in the order of
    their insertion. *)
Theorem getByTaskId_all (t : string) (db : Table) :
  ∃ rows : list Row.t,
    getByTaskId t db = rowToEntry <$> rows
    ∧ rows ≡ₚ filter (λ r, Row.task_id r = Some t) db
    ∧ (∀ r, r ∈ rows ↔ r ∈ db ∧ Row.task_id r = Some t)
    ∧ (∀ (i j : nat) (ri rj : Row.t),
         rows !! i = Some ri → rows !! j = Some rj → (i < j)%nat →
         Row.created_at rj ≤ Row.created_at ri
         ∧ (Row.created_at ri = Row.created_at rj →
            Row.rowid ri ≤ Row.rowid rj)).
Proof.
  exists (merge_sort task_order (filter (λ r, Row.task_id r = Some t) db)).
  split; [reflexivity|]. split; [apply merge_sort_Permutation|]. split.
  - intros r. rewrite merge_sort_Permutation, list_elem_of_filter. tauto.
  - intros i j ri rj Hi Hj Hlt.
    assert (task_order ri rj) as Hord.
    { eapply StronglySorted_lookup; [|exact Hi|exact Hj|exact Hlt].
      apply StronglySorted_merge_sort; apply _. }
    unfold task_order in Hord. lia.
Qed.

(** X7. [pruneExpired] at the clock reading [now] returns the number of
    rows that are not pinned and expire at [now] or before, and leaves
    exactly the others, each as it was. Pruning again at that reading or
    an earlier one deletes nothing. *)
Theorem pruneExpired_exact (now : Z) (db : Table) :
  (pruneExpired now db).1 = Z.of_nat (length (expired now db))
  ∧ (∀ r, r ∈ (pruneExpired now db).2
          ↔ r ∈ db ∧ (now < Row.expires_at r ∨ Row.pinned r ≠ 0))
  ∧ expired now (pruneExpired now db).2 = []
  ∧ (∀ earlier, earlier ≤ now →
       pruneExpired earlier (pruneExpired now db).2
       = (0, (pruneExpired now db).2)).
Proof.
  assert (∀ earlier, earlier ≤ now →
            filter (λ r, ¬ (Row.expires_at r ≤ earlier ∧ Row.pinned r = 0))
              (pruneExpired now db).2 = (pruneExpired now db).2) as Hidem.
  { intros earlier Hle. apply filter_keeps_all, Forall_forall.
    intros r Hr. cbn [pruneExpired snd] in Hr.
    apply list_elem_of_filter in Hr as [Hkeep _]. intros [Hexp Hp].
    apply Hkeep. split; [lia|exact Hp]. }
  split; [|split; [|split]].
  - pose proof (length_filter_complement
                  (λ r, Row.expires_at r ≤ now ∧ Row.pinned r = 0) db) as Hsum.
    unfold pruneExpired, changes, expired. cbn [fst]. unfold Table in *. lia.
  - intros r. unfold pruneExpired. cbn [snd]. rewrite list_elem_of_filter.
    split.
    + intros [Hk Hin]. split; [exact Hin|lia].
    + intros [Hin Hk]. split; [lia|exact Hin].
  - unfold expired. apply filter_drops_all, Forall_forall. intros r Hr.
    cbn [pruneExpired snd] in Hr. apply list_elem_of_filter in Hr as [Hkeep _].
    exact Hkeep.
  - intros earlier Hle. unfold pruneExpired at 1. rewrite (Hidem earlier Hle).
    unfold changes. rewrite Z.sub_diag. reflexivity.
Qed.

End delete_extras.

Lemma delete_present_witness :
  let db := [sample_row 1 "a" 0 10 20; sample_row 2 "b" 1 10 20] in
  (Storage.delete "b" db).1 = true
  ∧ Storage.count (Storage.delete "b" db).2 = Storage.count db - 1
  ∧ Storage.getById (H := emptyJSON) "b" (Storage.delete "b" db).2 = None.
Proof.
  intros db.
  destruct (delete_present (H := emptyJSON) "b" db) as (H1 & H2 & H3 & _).
  - unfold primary_key. apply (bool_decide_unpack _). vm_compute. exact I.
  - apply (bool_decide_unpack _). vm_compute. exact I.
  - split; [exact H1|]. split; [exact H2|exact H3].
Defined.

(** Three entries of one task created in the same millisecond and a later
    one: the later one first, the three in the order of their insertion. *)
Example getByTaskId_ties :
  let row (rowid : Z) (id : string) (created_at : Z) : Row.t :=
    {| Row.rowid := rowid; Row.id := id; Row.session_key := "agent:main:main";
       Row.session_type := "dm"; Row.summary := "Step"; Row.task_id := Some "T";
       Row.pinned := 0; Row.created_at := created_at;
       Row.expires_at := created_at + 7200000; Row.metadata := None |} in
  Entry.id <$>
    Storage.getByTaskId (H := emptyJSON) "T"
      [row 1 "a" 5; row 2 "b" 5; row 3 "c" 5; row 4 "d" 9]
  = ["d"; "a"; "b"; "c"].
Proof. vm_compute. reflexivity. Qed.

(** * Further properties of the cap and of insertion *)

Lemma filter_not_in_suffix (l1 l2 : list Row.t) :
  primary_key (l1 ++ l2) →
  filter (λ r, Row.id r ∉ Row.id <$> l2) (l1 ++ l2) = l1.
Proof.
  intros Hpk. rewrite filter_app.
  rewrite filter_keeps_all, filter_drops_all; [apply app_nil_r| |].
  - apply Forall_forall. intros r Hr Hnot. apply Hnot.
    apply list_elem_of_fmap. eauto.
  - apply Forall_forall. intros r Hr Hin.
    apply list_elem_of_fmap in Hin as (r' & Hid & Hr').
    assert (r = r') as <-.
    { eapply primary_key_inj; [exact Hpk| | |exact Hid];
        apply elem_of_app; [left|right]; assumption. }
    unfold primary_key in Hpk. rewrite fmap_app in Hpk.
    apply NoDup_app in Hpk as (_ & Hdisj & _).
    apply (Hdisj (Row.id r)); apply list_elem_of_fmap; eauto.
Qed.

Lemma filter_comm {A} (P Q : A → Prop) `{∀ x, Decision (P x)}
    `{∀ x, Decision (Q x)} (l : list A) :
  filter P (filter Q l) = filter Q (filter P l).
Proof.
  rewrite !list_filter_filter. apply list_filter_iff. intros x. tauto.
Qed.

(** The unpinned rows the cap leaves are the first [maxEntries] of the
    subquery's order. *)
Lemma enforce_unpinned_length (k : Z) (db : list Row.t) :
  primary_key db →
  length (unpinned (Storage.enforceMaxEntries k db).2)
  = Nat.min (Z.to_nat k) (length (unpinned db)).
Proof.
  intros Hpk. unfold unpinned, Storage.enforceMaxEntries. cbn [snd].
  unfold Storage.enforce_subquery, Storage.sql_offset, Storage.Table.
  rewrite filter_comm.
  set (U := filter (λ r, Row.pinned r = 0) db).
  set (sorted := merge_sort Storage.created_desc U).
  assert (sorted ≡ₚ U) as Hperm by apply merge_sort_Permutation.
  assert (primary_key sorted) as Hpks.
  { unfold primary_key. rewrite Hperm. apply primary_key_filter, Hpk. }
  rewrite <- (Permutation_length Hperm). clearbody sorted.
  rewrite <- Hperm.
  transitivity
    (length (filter (λ r, Row.id r ∉ Row.id <$> drop (Z.to_nat k) sorted)
               (take (Z.to_nat k) sorted ++ drop (Z.to_nat k) sorted))).
  - rewrite take_drop. reflexivity.
  - rewrite filter_not_in_suffix by (rewrite take_drop; exact Hpks).
    apply length_take.
Qed.

Lemma enforce_keeps_flagged (k : Z) (db : list Row.t) (r : Row.t) :
  primary_key db → r ∈ db → Row.pinned r ≠ 0 →
  r ∈ (Storage.enforceMaxEntries k db).2.
Proof.
  intros Hpk Hin Hp. cbn [Storage.enforceMaxEntries snd].
  apply list_elem_of_filter. split; [|exact Hin]. intros Hsub.
  apply enforce_subquery_unpinned in Hsub as (r' & Hin' & Hp' & Hid).
  assert (r' = r) as -> by (eapply primary_key_inj; eauto). contradiction.
Qed.

(** X8. [enforceMaxEntries] leaves [maxEntries] unpinned rows, or all of
    them when they are fewer, and none when [maxEntries] is zero or
    negative; it returns how many it deleted; it deletes no row that is
    pinned and adds none; under the cap it deletes nothing. *)
Theorem enforceMaxEntries_caps (k : Z) (db : Storage.Table) :
  primary_key db →
  let after := (Storage.enforceMaxEntries k db).2 in
  length (unpinned after) = Nat.min (Z.to_nat k) (length (unpinned db))
  ∧ (Storage.enforceMaxEntries k db).1
    = Z.of_nat (length (unpinned db) - Z.to_nat k)
  ∧ (∀ r, r ∈ db → Row.pinned r ≠ 0 → r ∈ after)
  ∧ (∀ r, r ∈ after → r ∈ db)
  ∧ (Z.of_nat (length (unpinned db)) ≤ k →
     Storage.enforceMaxEntries k db = (0, db)).
Proof.
  intros Hpk after.
  pose proof (enforce_unpinned_length k db Hpk) as Hlen. fold after in Hlen.
  assert (length (filter (λ r, ¬ Row.pinned r = 0) after)
          = length (filter (λ r, ¬ Row.pinned r = 0) db)) as Hrest.
  { unfold after. cbn [Storage.enforceMaxEntries snd]. unfold Storage.Table.
    rewrite filter_comm. f_equal. apply filter_keeps_all, Forall_forall.
    intros r Hr Hsub. apply list_elem_of_filter in Hr as [Hp Hin].
    apply enforce_subquery_unpinned in Hsub as (r' & Hin' & Hp' & Hid).
    assert (r' = r) as -> by (eapply primary_key_inj; eauto). contradiction. }
  pose proof (length_filter_complement (λ r, Row.pinned r = 0) db) as Hdb.
  pose proof (length_filter_complement (λ r, Row.pinned r = 0) after) as Haf.
  fold (unpinned db) in Hdb. fold (unpinned after) in Haf.
  assert ((Storage.enforceMaxEntries k db).1
          = Z.of_nat (length (unpinned db) - Z.to_nat k)) as Hret.
  { change ((Storage.enforceMaxEntries k db).1)
      with (Storage.changes db after).
    unfold Storage.changes. unfold Storage.Table in *. lia. }
  split; [exact Hlen|]. split; [exact Hret|].
  split; [intros r Hin Hp; apply enforce_keeps_flagged; assumption|].
  split.
  - intros r Hr. apply list_elem_of_filter in Hr as [_ Hr]. exact Hr.
  - intros Hunder.
    assert (after = db) as Hsame.
    { unfold after. cbn [Storage.enforceMaxEntries snd].
      apply filter_keeps_all, Forall_forall. intros r Hr.
      unfold Storage.enforce_subquery, Storage.sql_offset.
      rewrite drop_ge; [apply not_elem_of_nil|].
      rewrite (Permutation_length (merge_sort_Permutation _ _)).
      change (length (unpinned db) ≤ Z.to_nat k)%nat. lia. }
    rewrite (surjective_pairing (Storage.enforceMaxEntries k db)).
    fold after. rewrite Hret, Hsame. f_equal. lia.
Qed.

Lemma enforceMaxEntries_caps_witness :
  let db := [sample_row 1 "a" 1 10 20; sample_row 2 "b" 0 50 7200050;
             sample_row 3 "c" 0 50 7200050; sample_row 4 "d" 0 60 7200060] in
  length (unpinned (Storage.enforceMaxEntries 2 db).2)
  = Nat.min (Z.to_nat 2) (length (unpinned db))
  ∧ (Storage.enforceMaxEntries 2 db).1
    = Z.of_nat (length (unpinned db) - Z.to_nat 2).
Proof.
  intros db.
  destruct (enforceMaxEntries_caps 2 db) as (H1 & H2 & _).
  - unfold primary_key. apply (bool_decide_unpack _). vm_compute. exact I.
  - split; [exact H1|exact H2].
Defined.

Section insert_extras.
Context `{JSON}.
Import Storage.

Lemma getById_snoc_other (j : string) (db : list Row.t) (row : Row.t) :
  Row.id row ≠ j → getById j (db ++ [row]) = getById j db.
Proof.
  intros Hne. unfold getById, Table. rewrite filter_app.
  rewrite (filter_cons_False _ row []) by exact Hne.
  rewrite filter_nil, app_nil_r. reflexivity.
Qed.

Lemma getById_snoc_fresh (db : list Row.t) (row : Row.t) :
  Row.id row ∉ Row.id <$> db →
  getById (Row.id row) (db ++ [row]) = Some (rowToEntry row).
Proof.
  intros Hfresh. unfold getById, Table. rewrite filter_app.
  rewrite filter_drops_all.
  - rewrite (filter_cons_True _ row []) by reflexivity. reflexivity.
  - apply Forall_forall. intros r Hr Hid. apply Hfresh. rewrite <- Hid.
    apply list_elem_of_fmap. eauto.
Qed.

(** X9. [insert] with an id that is not in use adds one row and returns
    its entry: not pinned, created at the clock reading, expiring
    [ttlMinutes] minutes later, hence not before its creation when
    [ttlMinutes] is not negative; every other id reads as before, and the
    new id reads as the entry returned when [JSON.parse] undoes
    [JSON.stringify] on its metadata. *)
Theorem insert_appends (now : Z) (uuid : string) (input : Input.t)
    (ttlMinutes : Z) (db : Table) :
  uuid ∉ Row.id <$> db →
  ∃ entry db',
    insert now uuid input ttlMinutes db = inr (entry, db')
    ∧ count db' = count db + 1
    ∧ Entry.id entry = uuid
    ∧ Entry.pinned entry = false
    ∧ Entry.createdAt entry = now
    ∧ Entry.expiresAt entry = now + ttlMinutes * 60000
    ∧ (0 ≤ ttlMinutes → Entry.createdAt entry ≤ Entry.expiresAt entry)
    ∧ (∀ j, j ≠ uuid → getById j db' = getById j db)
    ∧ ((∀ m, Input.metadata input = Some m →
          JSON_stringify m ≠ "" ∧ JSON_parse (JSON_stringify m) = m) →
       getById uuid db' = Some entry).
Proof.
  intros Hfresh.
  destruct (insert_fresh now uuid input ttlMinutes db Hfresh)
    as (entry & row & Hins & Hid & Hrid & _ & _ & _ & _ & Hback).
  exists entry, (db ++ [row]). split; [exact Hins|].
  unfold insert in Hins. rewrite bool_decide_eq_false_2 in Hins by exact Hfresh.
  inversion Hins as [[He Hrow]]. clear Hins.
  split; [unfold count; rewrite length_app; simpl; lia|].
  split; [reflexivity|]. split; [reflexivity|]. split; [reflexivity|].
  split; [simpl; lia|]. split; [simpl; lia|]. split.
  - intros j Hne. apply getById_snoc_other. simpl. congruence.
  - intros Hjson. rewrite He, Hrow. rewrite <- (Hback Hjson), <- Hrid.
    apply getById_snoc_fresh. rewrite Hrid. exact Hfresh.
Qed.

(** X10. [insert] with an id that is already in the table is rejected;
    the manager's [add] then throws that error after its pruning: the
    table it leaves is the pruned one, with nothing inserted. *)
Theorem insert_duplicate (config : Config.t) (t_prune t_insert : Z)
    (uuid : string) (input : Input.t) (ttlMinutes : Z) (db : Table) :
  uuid ∈ Row.id <$> db →
  insert t_insert uuid input ttlMinutes db = inl ConstraintError
  ∧ (valid_input input →
     uuid ∈ Row.id <$> (pruneExpired t_prune db).2 →
     Manager.add config t_prune t_insert uuid input db
     = (inl ConstraintError, (pruneExpired t_prune db).2)).
Proof.
  intros Hin. split.
  - unfold insert. rewrite bool_decide_eq_true_2 by exact Hin. reflexivity.
  - intros Hvalid Hstill. unfold Manager.add. rewrite (parse_valid _ Hvalid).
    unfold Manager.pruneExpired. unfold insert.
    rewrite bool_decide_eq_true_2 by exact Hstill. reflexivity.
Qed.

(** X11. A call of [add] that returns leaves at most [maxEntries]
    unpinned rows, keeps every pinned row and keeps the ids distinct. *)
Theorem add_respects_cap (config : Config.t) (t_prune t_insert : Z)
    (uuid : string) (input : Input.t) (db db' : Table) (entry : Entry.t) :
  primary_key db →
  Manager.add config t_prune t_insert uuid input db = (inr entry, db') →
  Z.of_nat (length (unpinned db')) ≤ Z.max 0 (Config.maxEntries config)
  ∧ (∀ r, r ∈ db → Row.pinned r = 1 → r ∈ db')
  ∧ primary_key db'.
Proof.
  intros Hpk Hadd. unfold Manager.add in Hadd.
  destruct (CreateEntrySchema_parse input) as [e|validated]; [discriminate|].
  set (db1 := (Manager.pruneExpired t_prune db).2) in *.
  assert (primary_key db1) as Hpk1 by apply primary_key_filter, Hpk.
  destruct (decide (uuid ∈ Row.id <$> db1)) as [Hdup|Hdup].
  { unfold insert in Hadd. rewrite bool_decide_eq_true_2 in Hadd by exact Hdup.
    discriminate. }
  destruct (insert_fresh t_insert uuid validated
              (Config.defaultTtlMinutes config) db1 Hdup)
    as (entry0 & new & Hins & _ & Hrid & _).
  rewrite Hins in Hadd. apply pair_equal_spec in Hadd as [_ Hdb']. subst db'.
  assert (primary_key (db1 ++ [new])) as Hpk2
    by (apply primary_key_snoc; [exact Hpk1|rewrite Hrid; exact Hdup]).
  split; [|split].
  - rewrite enforce_unpinned_length by exact Hpk2. lia.
  - intros r Hr Hp. apply enforce_keeps_flagged; [exact Hpk2| |lia].
    apply elem_of_app. left. apply pruneExpired_keeps_pinned; assumption.
  - apply primary_key_filter, Hpk2.
Qed.

End insert_extras.

Lemma insert_appends_witness :
  let db := [sample_row 1 "a" 1 10 20] in
  ∃ entry db',
    Storage.insert (H := emptyJSON) 50 "b" (sample_input "x") 120 db
    = inr (entry, db')
    ∧ Storage.count db' = Storage.count db + 1
    ∧ Entry.expiresAt entry = 50 + 120 * 60000.
Proof.
  intros db.
  destruct (insert_appends (H := emptyJSON) 50 "b" (sample_input "x") 120 db)
    as (entry & db' & Hins & Hcount & _ & _ & _ & Hexp & _).
  - apply (bool_decide_unpack _). vm_compute. exact I.
  - exists entry, db'. split; [exact Hins|]. split; [exact Hcount|exact Hexp].
Defined.

Lemma insert_duplicate_witness :
  let db := [sample_row 1 "a" 1 10 20] in
  Storage.insert (H := emptyJSON) 50 "a" (sample_input "x") 120 db
  = inl ConstraintError.
Proof.
  intros db.
  apply (insert_duplicate (H := emptyJSON) (Config.mk 3 120) 50 50 "a"
           (sample_input "x") 120 db).
  apply (bool_decide_unpack _). vm_compute. exact I.
Defined.

Lemma add_respects_cap_witness :
  let config := Config.mk 1 120 in
  let db := [sample_row 1 "a" 1 10 20; sample_row 2 "b" 0 40 7200040] in
  ∃ entry db',
    Manager.add (H := emptyJSON) config 50 50 "c" (sample_input "x") db
    = (inr entry, db')
    ∧ Z.of_nat (length (unpinned db')) ≤ 1
    ∧ Row.id <$> db' = ["a"; "c"].
Proof.
  intros config db.
  eexists _, _. split; [vm_compute; reflexivity|].
  split; [|vm_compute; reflexivity].
  refine (proj1 (add_respects_cap (H := emptyJSON) config 50 50 "c"
                   (sample_input "x") db _ _ _ _)).
  - unfold primary_key. apply (bool_decide_unpack _). vm_compute. exact I.
  - vm_compute. reflexivity.
Defined.

(** * Invariants of the table *)

Lemma row_ok_mutate `{JSON} (db : Storage.Table) (op : Mutation) :
  sane op → Forall row_ok db → Forall row_ok (mutate db op).
Proof.
  intros Hsane Hok.
  destruct op as [now uuid input ttl|i|i|i|t|now|k]; simpl;
    try (apply Forall_forall; intros r Hr;
         apply list_elem_of_filter in Hr as [_ Hr];
         rewrite Forall_forall in Hok; apply Hok, Hr).
  - unfold Storage.insert. case_bool_decide; [exact Hok|].
    apply Forall_app. split; [exact Hok|]. constructor; [|constructor].
    split; simpl; [left; reflexivity|simpl in Hsane; lia].
  - apply Forall_fmap. eapply Forall_impl; [exact Hok|]. intros r [Hp Hc].
    simpl. destruct (decide (Row.id r = i)); [|split; assumption].
    split; [right; reflexivity|exact Hc].
  - apply Forall_fmap. eapply Forall_impl; [exact Hok|]. intros r [Hp Hc].
    simpl. destruct (decide (Row.id r = i)); [|split; assumption].
    split; [left; reflexivity|exact Hc].
Qed.

(** X12. The empty table is well formed, and every statement of the
    store, with a time to live that is not negative when it inserts,
    keeps a table well formed: ids stay distinct, rows stay in the order
    of their rowids, every flag stays 0 or 1 and no row expires before it
    was created. *)
Theorem store_invariants_kept `{JSON} (db : Storage.Table)
    (ops : list Mutation) :
  well_formed db → Forall sane ops →
  well_formed [] ∧ well_formed (foldl mutate db ops).
Proof.
  intros Hwf Hops. split.
  - repeat split; constructor.
  - revert db Hwf. induction Hops as [|op ops Hop Hops IH]; intros db Hwf.
    + exact Hwf.
    + simpl. apply IH. destruct Hwf as (Hpk & Hrow & Hok).
      split; [apply primary_key_mutate, Hpk|].
      split; [apply rowid_ascending_mutate, Hrow|].
      apply row_ok_mutate; assumption.
Qed.

Lemma store_invariants_kept_witness :
  well_formed
    (foldl (mutate (H := emptyJSON)) []
       [Insert 10 "a" (sample_input "x") 0; Insert 11 "b" (sample_input "y") 5;
        Pin "a"; Insert 12 "a" (sample_input "z") 1; PruneExpired 20;
        Delete "b"; Insert 30 "c" (sample_input "w") 1; EnforceMaxEntries 0]).
Proof.
  refine (proj2 (store_invariants_kept (H := emptyJSON) [] _ _ _)).
  - repeat split; constructor.
  - repeat constructor; simpl; lia.
Defined.

(** * Further properties of reading *)

Section reading_extras.
Context `{JSON}.
Import Storage.

(** X13. Pruning does not change what [getRecent] returns at that clock
    reading or a later one: the rows [pruneExpired] deletes are rows
    [getRecent] already leaves out. *)
Theorem getRecent_ignores_pruning (t now : Z) (o : RecentFilter)
    (db : Table) :
  t ≤ now →
  getRecent now o (pruneExpired t db).2 = getRecent now o db.
Proof.
  intros Hle. unfold getRecent, getRecent_rows, pruneExpired. cbn [snd].
  f_equal. f_equal. f_equal. unfold Table. rewrite list_filter_filter.
  apply list_filter_iff. intros r. split; [tauto|]. intros Hw.
  split; [exact Hw|]. destruct Hw as [Hlive _]. lia.
Qed.

Lemma reverse_recent_order (db : list Row.t) :
  rowid_ascending db → created_ascending db →
  Forall (λ r, Row.pinned r = 0) db →
  StronglySorted recent_order (reverse db).
Proof.
  intros Hrow Hcre Hunp.
  pose proof (reverse_created_desc db Hrow Hcre) as Hs.
  assert (Forall (λ r, Row.pinned r = 0) (reverse db)) as Hunp'
    by (apply Forall_forall; intros r Hr; rewrite elem_of_reverse in Hr;
        rewrite Forall_forall in Hunp; auto).
  clear -Hs Hunp'. induction Hs as [|x l Hs IH Hall]; [constructor|].
  apply Forall_cons in Hunp' as [Hx Hl]. constructor; [apply IH, Hl|].
  rewrite Forall_forall in Hall, Hl |- *. intros y Hy.
  right. split; [rewrite Hx, (Hl y Hy); reflexivity|apply Hall, Hy].
Qed.

(** On a table of live unpinned rows created in the order of their
    insertion, [getRecent] without filter reads the table backwards. *)
Lemma getRecent_rows_reverse (now : Z) (lim : option Z) (db : list Row.t) :
  rowid_ascending db → created_ascending db →
  Forall (λ r, Row.pinned r = 0 ∧ now < Row.expires_at r) db →
  getRecent_rows now (mkFilter lim None None None) db
  = sql_limit (default 100 lim) (reverse db).
Proof.
  intros Hrow Hcre Hlive. unfold getRecent_rows. f_equal. cbn [limit].
  unfold Table. rewrite filter_keeps_all.
  - apply StronglySorted_unique_strong with (R := recent_order).
    + intros x1 x2 H1 H2 H12 H21.
      rewrite merge_sort_Permutation in H1. rewrite elem_of_reverse in H2.
      apply (rowid_inj db x1 x2 Hrow H1 H2).
      unfold recent_order, created_desc in H12, H21. lia.
    + apply StronglySorted_merge_sort; apply _.
    + apply reverse_recent_order; [exact Hrow|exact Hcre|].
      eapply Forall_impl; [exact Hlive|]. intros r [Hp _]. exact Hp.
    + rewrite merge_sort_Permutation. symmetry. apply reverse_Permutation.
  - eapply Forall_impl; [exact Hlive|]. intros r [_ Hl].
    unfold recent_where. simpl. tauto.
Qed.

(** X14. On a table of live unpinned rows whose creation times do not
    decrease in the order of insertion, [getRecent] without filter
    returns the rows most recently inserted first, up to the limit. *)
Theorem getRecent_newest_first (now : Z) (lim : option Z) (db : Table) :
  rowid_ascending db → created_ascending db →
  Forall (λ r, Row.pinned r = 0 ∧ now < Row.expires_at r) db →
  getRecent now (mkFilter lim None None None) db
  = rowToEntry <$> sql_limit (default 100 lim) (reverse db).
Proof.
  intros Hrow Hcre Hlive. unfold getRecent.
  rewrite (getRecent_rows_reverse now lim db Hrow Hcre Hlive). reflexivity.
Qed.

Lemma stored_entry (ttlMinutes : Z) (r : Row.t) (c : Call.t) :
  stored_as ttlMinutes r c → metadata_round_trip c →
  rowToEntry r = entry_of ttlMinutes c.
Proof.
  intros (Hid & Hkey & Hty & Hsum & Htask & Hpin & Hcr & Hex & Hmeta) Hjson.
  unfold rowToEntry, entry_of.
  rewrite Hid, Hkey, Hty, Hsum, Htask, Hpin, Hcr, Hex, Hmeta.
  f_equal. unfold metadata_round_trip in Hjson.
  destruct (Input.metadata (Call.input c)) as [m|]; [|reflexivity].
  destruct (Hjson m eq_refl) as [Hne Hrt]. cbn.
  apply min1_true in Hne. rewrite Hne, Hrt. reflexivity.
Qed.

Lemma stored_entries (ttlMinutes : Z) (db : list Row.t)
    (calls : list Call.t) :
  Forall2 (stored_as ttlMinutes) db calls →
  Forall metadata_round_trip calls →
  rowToEntry <$> db = entry_of ttlMinutes <$> calls.
Proof.
  induction 1 as [|r c db calls Hrc Hrest IH]; intros Hjson; [reflexivity|].
  apply Forall_cons in Hjson as [Hc Hjson].
  rewrite !fmap_cons, (stored_entry _ _ _ Hrc Hc), (IH Hjson). reflexivity.
Qed.

(** X15. After calls of [add] on an empty table under the conditions of
    C3, and while none of the entries stored has expired, the manager's
    [getRecent] without options returns the entries of the last
    [maxEntries] calls, the latest call first, each with the fields of
    its input, the id drawn and the dates of its insertion. *)
Theorem adds_then_getRecent (config : Config.t) (calls : list Call.t)
    (now : Z) :
  let k := Config.maxEntries config in
  let ttl := Config.defaultTtlMinutes config in
  let newest := drop (length calls - Z.to_nat k) calls in
  0 < k →
  Forall (λ c, valid_input (Call.input c)) calls →
  NoDup (Call.uuid <$> calls) →
  (∀ (i j : nat) (c c' : Call.t),
     calls !! i = Some c → calls !! j = Some c' →
     (i < j ≤ i + Z.to_nat k)%nat →
     Call.t_insert c ≤ Call.t_insert c'
     ∧ Call.t_prune c' < Call.t_insert c + ttl * 60 * 1000) →
  Forall (λ c, ∀ m, Input.metadata (Call.input c) = Some m →
                 JSON_stringify m ≠ "" ∧ JSON_parse (JSON_stringify m) = m)
    newest →
  Forall (λ c, now < Call.t_insert c + ttl * 60 * 1000) newest →
  Manager.getRecent config now no_options (add_all config calls [])
  = (λ c, {| Entry.id := Call.uuid c;
             Entry.sessionKey := Input.sessionKey (Call.input c);
             Entry.sessionType := Input.sessionType (Call.input c);
             Entry.summary := Input.summary (Call.input c);
             Entry.taskId := Input.taskId (Call.input c);
             Entry.pinned := false;
             Entry.createdAt := Call.t_insert c;
             Entry.expiresAt := Call.t_insert c + ttl * 60 * 1000;
             Entry.metadata := Input.metadata (Call.input c) |})
    <$> reverse newest.
Proof.
  intros k ttl newest Hk Hvalid Hnd Hwin Hjson Hnow.
  pose proof (add_all_settled config calls Hk Hvalid Hnd Hwin) as Hset.
  pose proof (settled_length _ _ _ _ Hset) as Hlen.
  destruct Hset as (Hst & Hrow & Hcre).
  fold k ttl newest in Hst. set (db := add_all config calls []) in *.
  assert (Forall (λ r, Row.pinned r = 0 ∧ now < Row.expires_at r) db)
    as Hlive.
  { apply Forall_forall. intros r Hr.
    apply list_elem_of_lookup_1 in Hr as [i Hi].
    destruct (Forall2_lookup_l _ _ _ _ _ Hst Hi) as (c & Hc & Hrc).
    rewrite Forall_forall in Hnow.
    pose proof (Hnow c (list_elem_of_lookup_2 _ _ _ Hc)) as Hc'.
    destruct Hrc as (_ & _ & _ & _ & _ & Hp & _ & Hex & _).
    split; [exact Hp|]. rewrite Hex. exact Hc'. }
  unfold Manager.getRecent, no_options. cbn [Options.maxAge Options.maxTokens
    Options.sessionType Options.taskId fmap option_fmap option_map].
  unfold getRecent.
  rewrite (getRecent_rows_reverse now (Some (Config.maxEntries config)) db
             Hrow Hcre Hlive).
  cbn [default]. unfold sql_limit, id. subst k.
  destruct (Z.ltb_spec (Config.maxEntries config) 0) as [?|_]; [lia|].
  rewrite take_ge by (rewrite length_reverse, Hlen; lia).
  rewrite !fmap_reverse. f_equal.
  exact (stored_entries ttl db newest Hst Hjson).
Qed.

(** What [clear] leaves when no more than 10000 rows are pinned or live:
    rows that are neither. *)
Lemma clear_leaves_dead (now : Z) (db : Table) (r : Row.t) :
  Z.of_nat (length (filter (recent_where now (mkFilter (Some 10000) None
                                                 None None)) db)) ≤ 10000 →
  r ∈ (Manager.clear now db).2 →
  r ∈ db ∧ ¬ (now < Row.expires_at r ∨ Row.pinned r = 1).
Proof.
  intros Hfew Hr. unfold Manager.clear in Hr. cbn [snd] in Hr.
  rewrite (foldl_fmap_ids (λ acc i, (delete i acc).2) Entry.id) in Hr.
  apply foldl_delete_elem in Hr as [Hin Hnot]. split; [exact Hin|].
  intros Hlive. apply Hnot.
  set (everything := mkFilter (Some 10000) None None None) in *.
  assert (recent_where now everything r) as Hw
    by (unfold recent_where; simpl; tauto).
  assert (r ∈ getRecent_rows now everything db) as Hrow.
  { unfold getRecent_rows. simpl.
    set (cand := merge_sort recent_order
                   (filter (recent_where now everything) db)).
    assert (cand ≡ₚ filter (recent_where now everything) db) as Hperm
      by apply merge_sort_Permutation.
    assert (r ∈ cand) as Hc
      by (rewrite Hperm; apply list_elem_of_filter; split; assumption).
    destruct (sql_limit_complete 10000 cand r Hc) as [Hrow|(_ & _ & Hdrop)];
      [exact Hrow|].
    rewrite drop_ge in Hdrop; [inversion Hdrop|]. rewrite Hperm. lia. }
  unfold getRecent. rewrite <- list_fmap_compose.
  apply list_elem_of_fmap. exists r. split; [reflexivity|exact Hrow].
Qed.

(** X16. After [clear], when no more than 10000 rows were pinned or
    live, [getRecent] returns nothing, at that clock reading or later
    and whatever the filter, even if expired rows are still stored. *)
Theorem getRecent_after_clear (now later : Z) (o : RecentFilter)
    (db : Table) :
  now ≤ later →
  Z.of_nat (length (filter (recent_where now (mkFilter (Some 10000) None
                                                 None None)) db)) ≤ 10000 →
  getRecent later o (Manager.clear now db).2 = [].
Proof.
  intros Hle Hfew. unfold getRecent, getRecent_rows. unfold Table.
  rewrite filter_drops_all.
  { change (merge_sort recent_order []) with (@nil Row.t).
    unfold sql_limit. destruct (default 100 (limit o) <? 0); [reflexivity|].
    rewrite take_nil. reflexivity. }
  apply Forall_forall. intros r Hr Hw.
  destruct (clear_leaves_dead now db r Hfew Hr) as [_ Hdead].
  apply Hdead. destruct Hw as [Hlive _]. lia.
Qed.

(** X17. The manager's [getRecent] returns at most [maxEntries] entries,
    each pinned or not yet expired, with or without a token budget; with
    a budget it returns a prefix of what it returns without. *)
Theorem manager_getRecent_bounded (config : Config.t) (now : Z)
    (options : Options.t) (db : Table) :
  0 ≤ Config.maxEntries config →
  let result := Manager.getRecent config now options db in
  let unbudgeted :=
    Manager.getRecent config now
      (Options.mk None (Options.maxAge options)
         (Options.sessionType options) (Options.taskId options)) db in
  Z.of_nat (length result) ≤ Config.maxEntries config
  ∧ result `prefix_of` unbudgeted
  ∧ ∀ e, e ∈ result →
      now < Entry.expiresAt e ∨ Entry.pinned e = true.
Proof.
  intros Hk result unbudgeted.
  assert (Z.of_nat (length unbudgeted) ≤ Config.maxEntries config) as Hlen.
  { unfold unbudgeted, Manager.getRecent, getRecent, getRecent_rows.
    cbn [Options.maxTokens limit default]. rewrite length_fmap.
    apply sql_limit_length, Hk. }
  assert (∀ e, e ∈ unbudgeted →
            now < Entry.expiresAt e ∨ Entry.pinned e = true) as Hlive.
  { intros e He. unfold unbudgeted, Manager.getRecent, getRecent in He.
    cbn [Options.maxTokens] in He.
    apply list_elem_of_fmap in He as (r & -> & Hr).
    unfold getRecent_rows in Hr.
    pose proof (sql_limit_prefix
                  (default 100 (limit {| limit := Some (Config.maxEntries config);
                     maxAgeMs := (λ m, m * 60 * 1000) <$> Options.maxAge options;
                     sessionType := Options.sessionType options;
                     taskId := Options.taskId options |}))
                  (merge_sort recent_order
                     (filter (recent_where now
                        {| limit := Some (Config.maxEntries config);
                           maxAgeMs := (λ m, m * 60 * 1000)
                                         <$> Options.maxAge options;
                           sessionType := Options.sessionType options;
                           taskId := Options.taskId options |}) db)))
      as [rest Hrest].
    assert (r ∈ filter (recent_where now
                        {| limit := Some (Config.maxEntries config);
                           maxAgeMs := (λ m, m * 60 * 1000)
                                         <$> Options.maxAge options;
                           sessionType := Options.sessionType options;
                           taskId := Options.taskId options |}) db) as Hf.
    { rewrite <- merge_sort_Permutation with (R := recent_order).
      rewrite Hrest. apply elem_of_app. left. exact Hr. }
    apply list_elem_of_filter in Hf as [[Hw _] _]. simpl.
    destruct Hw as [Hw|Hw]; [left; exact Hw|right].
    apply bool_decide_eq_true_2, Hw. }
  assert (result `prefix_of` unbudgeted) as Hpre.
  { unfold result, unbudgeted, Manager.getRecent. cbn [Options.maxTokens
      Options.maxAge Options.sessionType Options.taskId].
    destruct (Options.maxTokens options) as [M|]; [|reflexivity].
    destruct (truncate_loop_spec M
                (getRecent now
                   {| limit := Some (Config.maxEntries config);
                      maxAgeMs := (λ m, m * 60 * 1000)
                                    <$> Options.maxAge options;
                      sessionType := Options.sessionType options;
                      taskId := Options.taskId options |} db) [])
      as (p & Hp & Hpre & _).
    unfold truncateToTokenBudget. simpl in Hp. rewrite Hp. exact Hpre. }
  split; [|split; [exact Hpre|]].
  - apply prefix_length in Hpre. lia.
  - intros e He. apply Hlive. destruct Hpre as [rest ->].
    apply elem_of_app. left. exact He.
Qed.

End reading_extras.

Lemma getRecent_ignores_pruning_witness :
  let db := [sample_row 1 "a" 0 10 20; sample_row 2 "b" 1 10 20;
             sample_row 3 "c" 0 25 7200025] in
  Storage.getRecent (H := emptyJSON) 40 no_filter
    (Storage.pruneExpired 30 db).2
  = Storage.getRecent (H := emptyJSON) 40 no_filter db.
Proof.
  intros db.
  apply (getRecent_ignores_pruning (H := emptyJSON) 30 40 no_filter db). lia.
Defined.

Lemma getRecent_newest_first_witness :
  let db := [sample_row 1 "a" 0 10 7200010; sample_row 2 "b" 0 10 7200010;
             sample_row 3 "c" 0 25 7200025] in
  Entry.id <$> Storage.getRecent (H := emptyJSON) 40
                 (Storage.mkFilter (Some 2) None None None) db
  = ["c"; "b"].
Proof.
  intros db.
  rewrite (getRecent_newest_first (H := emptyJSON) 40 (Some 2) db).
  - reflexivity.
  - unfold rowid_ascending. repeat constructor; simpl; lia.
  - unfold created_ascending. repeat constructor; simpl; lia.
  - repeat constructor; simpl; lia.
Defined.

(** Four calls fifty minutes apart under a cap of two and a time to live
    of two hours: "Third" and "Fourth" come back as "Fourth", "Third". *)
Lemma adds_then_getRecent_witness :
  let config := Config.mk 2 120 in
  let calls :=
    [sample_call 0 "a" "First"; sample_call 3000000 "b" "Second";
     sample_call 6000000 "c" "Third"; sample_call 9000000 "d" "Fourth"] in
  let entries :=
    Manager.getRecent (H := emptyJSON) config 9000001 no_options
      (add_all (H := emptyJSON) config calls []) in
  Entry.summary <$> entries = ["Fourth"; "Third"]
  ∧ Entry.id <$> entries = ["d"; "c"]
  ∧ Entry.createdAt <$> entries = [9000000; 6000000].
Proof.
  intros config calls entries. subst entries.
  rewrite (adds_then_getRecent (H := emptyJSON) config calls 9000001).
  - split; [reflexivity|]. split; reflexivity.
  - simpl. lia.
  - apply (bool_decide_unpack _). vm_compute. exact I.
  - apply (bool_decide_unpack _). vm_compute. exact I.
  - intros i j c c' Hi Hj Hij.
    destruct i as [|[|[|[|i]]]], j as [|[|[|[|j]]]];
      cbn in Hi, Hj; simplify_eq; cbn in Hij |- *; lia.
  - cbn [drop length Nat.sub Z.to_nat Pos.to_nat Pos.iter_op Nat.add
         Config.maxEntries calls config].
    constructor; [intros m Hm; discriminate Hm|].
    constructor; [intros m Hm; discriminate Hm|]. constructor.
  - cbn [drop length Nat.sub Z.to_nat Pos.to_nat Pos.iter_op Nat.add
         Config.maxEntries calls config].
    constructor; [simpl; lia|]. constructor; [simpl; lia|]. constructor.
Defined.

Lemma getRecent_after_clear_witness :
  let db := [sample_row 1 "a" 0 10 20; sample_row 2 "b" 1 10 20;
             sample_row 3 "c" 0 25 7200025] in
  Storage.getRecent (H := emptyJSON) 50 no_filter
    (Manager.clear (H := emptyJSON) 30 db).2 = [].
Proof.
  intros db.
  apply (getRecent_after_clear (H := emptyJSON) 30 50 no_filter db).
  - lia.
  - vm_compute. discriminate.
Defined.

Lemma manager_getRecent_bounded_witness :
  let config := Config.mk 2 120 in
  let db := [sample_row 1 "a" 0 10 20; sample_row 2 "b" 1 10 20;
             sample_row 3 "c" 0 25 7200025; sample_row 4 "d" 0 26 7200026] in
  Z.of_nat (length (Manager.getRecent (H := emptyJSON) config 40
                      (Options.mk (Some 1) None None None) db)) ≤ 2.
Proof.
  intros config db.
  refine (proj1 (manager_getRecent_bounded (H := emptyJSON) config 40
                   (Options.mk (Some 1) None None None) db _)).
  simpl. lia.
Defined.

(** * Further properties of the rendering *)

(** X18. [estimateTokens] is the length divided by four and rounded up:
    zero exactly for the empty string, never decreasing with the length,
    and the same number in the manager and in the rendering. *)
Theorem estimateTokens_bounds (text : string) :
  let n := Z.of_nat (String.length text) in
  4 * estimateTokens text - 3 ≤ n ≤ 4 * estimateTokens text
  ∧ (estimateTokens text = 0 ↔ text = "")
  ∧ Injection.estimateTokens text = estimateTokens text
  ∧ ∀ longer, (String.length text ≤ String.length longer)%nat →
      estimateTokens text ≤ estimateTokens longer.
Proof.
  intros n. unfold estimateTokens. fold n.
  pose proof (floor_bounds (n + 3) 4 eq_refl) as Hn.
  split; [lia|]. split; [|split; [reflexivity|]].
  - split.
    + intros H0. rewrite H0 in Hn. destruct text; [reflexivity|].
      unfold n in Hn. simpl String.length in Hn. lia.
    + intros ->. reflexivity.
  - intros longer Hle. apply Z.div_le_mono; lia.
Qed.

Lemma formatEntry_not_marker (e : Entry.t) (nowMs : Z) :
  Injection.formatEntry e nowMs ≠ Injection.marker.
Proof.
  unfold Injection.formatEntry, Injection.marker. cbn [String.append].
  discriminate.
Qed.

(** X19. When the header and the lines of all entries fit in
    [maxTokens] (2000 when absent), every entry is rendered, in order,
    and no truncation marker is added. *)
Theorem formatForSystemPrompt_fits (clock : Z) (entries : list Entry.t)
    (options : Injection.FormatOptions) :
  let nowMs := default clock (Injection.now options) in
  let maxTokens := default 2000 (Injection.maxTokens options) in
  entries ≠ [] →
  Injection.estimateTokens Injection.header + line_tokens nowMs entries
    ≤ maxTokens →
  Injection.format_lines clock entries options
  = (λ e, Injection.formatEntry e nowMs) <$> entries
  ∧ Injection.formatForSystemPrompt clock entries options
    = Injection.header
        +:+ String.concat Injection.LF
              ((λ e, Injection.formatEntry e nowMs) <$> entries)
  ∧ Injection.marker ∉ Injection.format_lines clock entries options.
Proof.
  intros nowMs maxTokens Hne Hfit.
  destruct (format_loop_spec nowMs entries
              (maxTokens - Injection.estimateTokens Injection.header) [])
    as [Hall _].
  assert (Injection.format_lines clock entries options
          = (λ e, Injection.formatEntry e nowMs) <$> entries) as Hlines
    by (apply Hall; lia).
  split; [exact Hlines|]. split.
  - unfold Injection.formatForSystemPrompt. rewrite Hlines.
    destruct entries; [congruence|reflexivity].
  - rewrite Hlines. intros Hin.
    apply list_elem_of_fmap in Hin as (e & He & _).
    symmetry in He. exact (formatEntry_not_marker e nowMs He).
Qed.

Lemma formatForSystemPrompt_fits_witness :
  let e := Storage.rowToEntry (H := emptyJSON) (sample_row 1 "a" 1 0 7200000) in
  Injection.formatForSystemPrompt 300000 [e; e]
    (Injection.mkOptions None None)
  = Injection.header
      +:+ String.concat Injection.LF
            ((λ e, Injection.formatEntry e 300000) <$> [e; e]).
Proof.
  intros e.
  refine (proj1 (proj2 (formatForSystemPrompt_fits 300000 [e; e]
                          (Injection.mkOptions None None) _ _))).
  - discriminate.
  - vm_compute. discriminate.
Defined.

(** * Further properties of the capture *)

Lemma split_colon_aux_last (cur : list ascii) (s : string) :
  no_colon s →
  Capture.split_colon_aux cur s
  = [string_of_list_ascii (rev cur ++ list_ascii_of_string s)].
Proof.
  unfold no_colon. revert cur. induction s as [|c s IH]; intros cur Hno.
  - simpl. rewrite app_nil_r. reflexivity.
  - simpl in Hno |- *. apply not_elem_of_cons in Hno as [Hc Hs].
    rewrite decide_False by congruence. rewrite (IH (c :: cur) Hs).
    simpl. rewrite <- app_assoc. reflexivity.
Qed.

Lemma split_colon_aux_part (cur : list ascii) (s rest : string) :
  no_colon s →
  Capture.split_colon_aux cur (s +:+ String ":" rest)
  = string_of_list_ascii (rev cur ++ list_ascii_of_string s)
      :: Capture.split_colon rest.
Proof.
  unfold no_colon. revert cur. induction s as [|c s IH]; intros cur Hno.
  - simpl. rewrite app_nil_r. reflexivity.
  - simpl in Hno |- *. apply not_elem_of_cons in Hno as [Hc Hs].
    rewrite decide_False by congruence. rewrite (IH (c :: cur) Hs).
    simpl. rewrite <- app_assoc. reflexivity.
Qed.

(** Splitting undoes joining, for parts that hold no colon. *)
Lemma split_colon_join (part : string) (parts : list string) :
  Forall no_colon (part :: parts) →
  Capture.split_colon (join_colon (part :: parts)) = part :: parts.
Proof.
  revert part. induction parts as [|p parts IH]; intros part Hall.
  - apply Forall_inv in Hall. unfold Capture.split_colon, join_colon. simpl.
    rewrite split_colon_aux_last by exact Hall. simpl.
    rewrite string_of_list_ascii_of_string. reflexivity.
  - apply Forall_cons in Hall as [Hpart Hparts].
    unfold Capture.split_colon, join_colon.
    change (String.concat ":" (part :: p :: parts))
      with (part +:+ String ":" (String.concat ":" (p :: parts))).
    rewrite split_colon_aux_part by exact Hpart. simpl.
    rewrite string_of_list_ascii_of_string. f_equal. apply IH, Hparts.
Qed.

Lemma mapSessionType_valid (sessionKey : string) :
  Capture.mapSessionType sessionKey ∈ SESSION_TYPES.
Proof.
  unfold Capture.mapSessionType, SESSION_TYPES.
  repeat match goal with
         | |- context [if ?b then _ else _] => destruct b
         end;
    repeat (first [apply list_elem_of_here|apply list_elem_of_further]).
Qed.

(** X20. [mapSessionType] always gives one of the four session types. A
    key whose first part is [cron] is a cron session and one whose first
    part is [hook] a webhook session, whatever follows; a key of at least
    four parts whose third is [telegram], [discord] or [signal] and whose
    fourth is [group] is a group session; every other key is a direct
    message. *)
Theorem mapSessionType_families :
  (∀ key, Capture.mapSessionType key ∈ SESSION_TYPES)
  ∧ (∀ rest, Capture.mapSessionType ("cron:" +:+ rest) = "cron")
  ∧ (∀ rest, Capture.mapSessionType ("hook:" +:+ rest) = "webhook")
  ∧ (∀ agent account channel more,
       Forall no_colon (agent :: account :: channel :: more) →
       agent ≠ "cron" → agent ≠ "hook" →
       channel ∈ ["telegram"; "discord"; "signal"] →
       Capture.mapSessionType
         (join_colon (agent :: account :: channel :: "group" :: more))
       = "group")
  ∧ (∀ agent parts,
       Forall no_colon (agent :: parts) →
       agent ≠ "cron" → agent ≠ "hook" → (length parts < 3)%nat →
       Capture.mapSessionType (join_colon (agent :: parts)) = "dm").
Proof.
  split; [exact mapSessionType_valid|]. split; [|split; [|split]].
  - intros rest. unfold Capture.mapSessionType.
    change (Capture.split_colon ("cron:" +:+ rest))
      with (Capture.split_colon_aux [] ("cron" +:+ String ":" rest)).
    rewrite split_colon_aux_part
      by (unfold no_colon; apply (bool_decide_unpack _); vm_compute; exact I).
    reflexivity.
  - intros rest. unfold Capture.mapSessionType.
    change (Capture.split_colon ("hook:" +:+ rest))
      with (Capture.split_colon_aux [] ("hook" +:+ String ":" rest)).
    rewrite split_colon_aux_part
      by (unfold no_colon; apply (bool_decide_unpack _); vm_compute; exact I).
    reflexivity.
  - intros agent account channel more Hall Hc Hh Hch.
    unfold Capture.mapSessionType. rewrite split_colon_join.
    + cbn [lookup list_lookup length].
      rewrite !(bool_decide_eq_false_2 (Some agent = Some _)) by congruence.
      rewrite (bool_decide_eq_true_2 (Some "group" = Some "group"))
        by reflexivity.
      rewrite !andb_true_r.
      replace (4 <=? S (S (S (S (length more)))))%nat with true
        by (symmetry; apply Nat.leb_le; lia).
      rewrite !andb_true_l.
      repeat (apply elem_of_cons in Hch as [->|Hch]; [reflexivity|]).
      inversion Hch.
    + apply Forall_cons in Hall as [Ha Hall].
      apply Forall_cons in Hall as [Hb Hall].
      apply Forall_cons in Hall as [Hc' Hall].
      repeat (constructor; [assumption|]). constructor; [|exact Hall].
      unfold no_colon. apply (bool_decide_unpack _). vm_compute. exact I.
  - intros agent parts Hall Hc Hh Hlen.
    unfold Capture.mapSessionType. rewrite split_colon_join by exact Hall.
    cbn [lookup list_lookup length].
    rewrite !(bool_decide_eq_false_2 (Some agent = Some _)) by congruence.
    replace (4 <=? S (length parts))%nat with false
      by (symmetry; apply Nat.leb_gt; lia).
    reflexivity.
Qed.

Example mapSessionType_samples :
  Capture.mapSessionType "agent:main:telegram:group:-1234567" = "group"
  ∧ Capture.mapSessionType "agent:main:main" = "dm"
  ∧ Capture.mapSessionType "hook:0b5e" = "webhook"
  ∧ Capture.mapSessionType "cron:nightly" = "cron"
  ∧ Capture.mapSessionType "agent:main:slack:group:x" = "dm"
  ∧ Capture.mapSessionType "" = "dm".
Proof. vm_compute. repeat split. Qed.

(** What one event does: at most one call, made only at the end of a
    run with a session key that is not empty; and the buffers are left as
    they were, or lose the run, or gain text and key for the run. *)
Lemma handler_shape (env : Capture.Env) (evt : Capture.Event.t)
    (b : Capture.Buffers) :
  let r := Capture.Event.runId evt in
  ((Capture.handler env evt b).2 = []
   ∨ (is_end evt
      ∧ ∃ key, key ≠ ""
               ∧ (Capture.handler env evt b).2 = [captured key evt b]))
  ∧ ((Capture.handler env evt b).1 = b
     ∨ (Capture.handler env evt b).1 = Capture.forget r b
     ∨ ∃ text key,
         Capture.Event.stream evt = "assistant"
         ∧ (Capture.handler env evt b).1
           = {| Capture.runTextBuffers :=
                  <[r := text]> (Capture.runTextBuffers b);
                Capture.runSessionKeys :=
                  <[r := key]> (Capture.runSessionKeys b) |})
  ∧ (is_terminal evt → (Capture.handler env evt b).1 = Capture.forget r b).
Proof.
  intros r. unfold Capture.handler. fold r.
  case_bool_decide as Hass.
  - destruct Hass as [Hstream _].
    assert (¬ is_terminal evt) as Hnt
      by (intros [Hs _]; rewrite Hstream in Hs; discriminate).
    destruct (Capture.Event.sessionKey evt) as [key|],
      (Capture.Event.text evt) as [text|]; try destruct (min1 key);
      (split; [left; reflexivity|]);
      (split; [|intros Ht; contradiction]);
      first [left; reflexivity|right; right; eauto].
  - destruct (decide (Capture.Event.stream evt = "lifecycle")) as [Hlc|Hlc].
    + rewrite (bool_decide_eq_true_2 _ Hlc).
      destruct (decide (Capture.Event.phase evt = Some "end")) as [Hend|Hend].
      * rewrite bool_decide_eq_false_2 by (intros Hne; apply Hne, Hend).
        assert (is_end evt) as Hisend by (split; assumption).
        destruct (match Capture.Event.sessionKey evt with
                  | Some key => Some key
                  | None => Capture.runSessionKeys b !! r
                  end) as [key|];
          [destruct (min1 key) eqn:Hmin|];
          (split; [|split; [right; left; reflexivity|intros _; reflexivity]]);
          try (left; reflexivity).
        apply min1_true in Hmin. cbn [snd].
        destruct (Capture.loadConfig env) as [cfg|]; [|left; reflexivity].
        destruct (negb _ || negb _); [left; reflexivity|].
        destruct (negb _); [left; reflexivity|].
        right. split; [exact Hisend|]. exists key. split; [exact Hmin|].
        reflexivity.
      * rewrite bool_decide_eq_true_2 by exact Hend.
        case_bool_decide as Herr; (split; [left; reflexivity|]).
        -- split; [right; left; reflexivity|intros _; reflexivity].
        -- split; [left; reflexivity|]. intros [_ [Ht|Ht]]; contradiction.
    + rewrite (bool_decide_eq_false_2 _ Hlc).
      rewrite bool_decide_eq_true_2 by discriminate.
      rewrite bool_decide_eq_false_2 by discriminate.
      split; [left; reflexivity|]. split; [left; reflexivity|].
      intros [Hs _]. contradiction.
Qed.

Lemma summary_of_bounded (accumulatedText : option string) :
  Capture.summary_of accumulatedText ≠ ""
  ∧ (String.length (Capture.summary_of accumulatedText) ≤ 200)%nat.
Proof.
  pose proof (summary_of_cases accumulatedText) as Hcases.
  destruct accumulatedText as [a|].
  - destruct Hcases as (Hblank & Hshort & Hlong).
    destruct (decide (Capture.trim a = "")) as [Ht|Ht].
    + rewrite (Hblank Ht). split; [discriminate|]. vm_compute. lia.
    + destruct (Nat.le_gt_cases (String.length (Capture.trim a)) 200)
        as [Hle|Hgt].
      * rewrite (Hshort Ht Hle). split; [exact Ht|exact Hle].
      * destruct (Hlong Hgt) as [_ Hlen]. split; [|lia].
        intros Hempty. rewrite Hempty in Hlen. discriminate.
  - rewrite Hcases. split; [discriminate|]. vm_compute. lia.
Qed.

Lemma captured_valid (key : string) (evt : Capture.Event.t)
    (b : Capture.Buffers) :
  key ≠ "" →
  valid_input (captured key evt b)
  ∧ (String.length (Input.summary (captured key evt b)) ≤ 200)%nat.
Proof.
  intros Hkey. destruct (summary_of_bounded
                           (Capture.runTextBuffers b !! Capture.Event.runId evt))
    as [Hne Hlen].
  split; [|exact Hlen]. split; [exact Hkey|].
  split; [apply mapSessionType_valid|exact Hne].
Qed.

(** X21. Over any series of events, every call of [add] the listener
    makes passes [CreateEntrySchema]: its session key and its summary
    are not empty and its session type is one of the four; the summary is
    at most 200 characters long; and there are no more calls than events
    that end a run. *)
Theorem run_calls_valid (env : Capture.Env) (evts : list Capture.Event.t)
    (b : Capture.Buffers) :
  let calls := (Capture.run env evts b).2 in
  Forall (λ input,
            CreateEntrySchema_parse input = inr input
            ∧ (String.length (Input.summary input) ≤ 200)%nat
            ∧ Input.taskId input = None ∧ Input.metadata input = None)
    calls
  ∧ (length calls ≤ length (filter is_end evts))%nat.
Proof.
  revert b. induction evts as [|evt evts IH]; intros b.
  - split; [constructor|reflexivity].
  - simpl. destruct (Capture.handler env evt b) as [b1 calls1] eqn:Hh.
    specialize (IH b1). destruct (Capture.run env evts b1) as [b2 calls2].
    cbn [snd] in IH |- *. destruct IH as [IHv IHl].
    pose proof (handler_shape env evt b) as (Hcalls & _). rewrite Hh in Hcalls.
    cbn [snd] in Hcalls.
    destruct Hcalls as [->|(Hend & key & Hkey & ->)].
    + split; [exact IHv|]. simpl. rewrite filter_cons.
      destruct (decide (is_end evt)); simpl; lia.
    + destruct (captured_valid key evt b Hkey) as [Hvalid Hlen].
      split.
      * constructor; [|exact IHv].
        split; [apply parse_valid, Hvalid|]. split; [exact Hlen|].
        split; reflexivity.
      * rewrite filter_cons_True by exact Hend. simpl. lia.
Qed.

Lemma handler_other_run (env : Capture.Env) (evt : Capture.Event.t)
    (b : Capture.Buffers) (other : string) :
  Capture.Event.runId evt ≠ other →
  Capture.runTextBuffers (Capture.handler env evt b).1 !! other
  = Capture.runTextBuffers b !! other
  ∧ Capture.runSessionKeys (Capture.handler env evt b).1 !! other
    = Capture.runSessionKeys b !! other.
Proof.
  intros Hne. pose proof (handler_shape env evt b) as (_ & Hb & _).
  destruct Hb as [->|[->|(text & key & _ & ->)]].
  - split; reflexivity.
  - simpl. rewrite !lookup_delete_ne by exact Hne. split; reflexivity.
  - simpl. rewrite !lookup_insert_ne by exact Hne. split; reflexivity.
Qed.

Lemma run_other_run (env : Capture.Env) (evts : list Capture.Event.t)
    (b : Capture.Buffers) (other : string) :
  Forall (λ evt, Capture.Event.runId evt ≠ other) evts →
  Capture.runTextBuffers (Capture.run env evts b).1 !! other
  = Capture.runTextBuffers b !! other
  ∧ Capture.runSessionKeys (Capture.run env evts b).1 !! other
    = Capture.runSessionKeys b !! other.
Proof.
  intros Hall. revert b. induction Hall as [|evt evts Hne Hall IH]; intros b.
  - split; reflexivity.
  - simpl. destruct (Capture.handler env evt b) as [b1 calls1] eqn:Hh.
    specialize (IH b1). destruct (Capture.run env evts b1) as [b2 calls2].
    cbn [fst] in IH |- *. destruct IH as [IHt IHk].
    destruct (handler_other_run env evt b other Hne) as [Ht Hk].
    rewrite Hh in Ht, Hk. cbn [fst] in Ht, Hk.
    rewrite IHt, IHk. split; assumption.
Qed.

Lemma run_cons_fst (env : Capture.Env) (evt : Capture.Event.t)
    (evts : list Capture.Event.t) (b : Capture.Buffers) :
  (Capture.run env (evt :: evts) b).1
  = (Capture.run env evts (Capture.handler env evt b).1).1.
Proof.
  simpl. destruct (Capture.handler env evt b) as [b1 calls1]. cbn [fst].
  destruct (Capture.run env evts b1) as [b2 calls2]. reflexivity.
Qed.

Lemma run_app (env : Capture.Env) (evts1 evts2 : list Capture.Event.t)
    (b : Capture.Buffers) :
  (Capture.run env (evts1 ++ evts2) b).1
  = (Capture.run env evts2 (Capture.run env evts1 b).1).1.
Proof.
  revert b. induction evts1 as [|evt evts1 IH]; intros b.
  - reflexivity.
  - rewrite <- app_comm_cons, !run_cons_fst. apply IH.
Qed.

(** X22. The events of one run never touch what is buffered for another
    run; and once a run has ended, well or badly, nothing is buffered for
    it, whatever events of other runs follow. *)
Theorem run_buffers_isolated (env : Capture.Env)
    (before after : list Capture.Event.t) (evt : Capture.Event.t)
    (b : Capture.Buffers) (r : string) :
  (Forall (λ e, Capture.Event.runId e ≠ r) after →
   Capture.runTextBuffers (Capture.run env after b).1 !! r
   = Capture.runTextBuffers b !! r
   ∧ Capture.runSessionKeys (Capture.run env after b).1 !! r
     = Capture.runSessionKeys b !! r)
  ∧ (is_terminal evt → Capture.Event.runId evt = r →
     Forall (λ e, Capture.Event.runId e ≠ r) after →
     Capture.runTextBuffers
       (Capture.run env (before ++ evt :: after) b).1 !! r = None
     ∧ Capture.runSessionKeys
         (Capture.run env (before ++ evt :: after) b).1 !! r = None).
Proof.
  split; [apply run_other_run|].
  intros Hterm Hr Hafter. rewrite run_app.
  set (b0 := (Capture.run env before b).1). rewrite run_cons_fst.
  pose proof (run_other_run env after (Capture.handler env evt b0).1 r Hafter)
    as [Ht Hk].
  rewrite Ht, Hk.
  pose proof (handler_shape env evt b0) as (_ & _ & Hforget).
  rewrite (Hforget Hterm), Hr.
  pose proof (forget_lookup r b0) as (H1 & H2 & _). split; assumption.
Qed.

(** * The singleton *)

(** X23. [getWorkingContextManager]: a disabled configuration gives no
    manager and leaves the instance alone; the first enabled call builds
    a manager from the resolved [maxEntries] and [defaultTtlMinutes], or
    throws and keeps no instance when these are refused; every later
    enabled call returns that same manager, whatever its own
    configuration says, until [closeWorkingContextManager] drops it. *)
Theorem singleton_lifecycle (cfg later : option WorkingContext.t)
    (instance : Singleton.State) :
  let resolved := resolveWorkingContextConfig cfg in
  let wanted :=
    {| Config.maxEntries := Resolved.maxEntries resolved;
       Config.defaultTtlMinutes := Resolved.defaultTtlMinutes resolved |} in
  (Resolved.enabled resolved = false →
   Singleton.getWorkingContextManager cfg instance = (inr None, instance))
  ∧ (Resolved.enabled resolved = true → ManagerConfigSchema_ok wanted →
     Singleton.getWorkingContextManager cfg None
     = (inr (Some wanted), Some wanted))
  ∧ (Resolved.enabled resolved = true → ¬ ManagerConfigSchema_ok wanted →
     Singleton.getWorkingContextManager cfg None
     = (inl ValidationError, None))
  ∧ (∀ manager,
       Resolved.enabled (resolveWorkingContextConfig later) = true →
       Singleton.getWorkingContextManager later (Some manager)
       = (inr (Some manager), Some manager))
  ∧ Singleton.closeWorkingContextManager instance = None.
Proof.
  intros resolved wanted.
  unfold Singleton.getWorkingContextManager. fold resolved. fold wanted.
  split; [intros ->; reflexivity|]. split; [|split; [|split]].
  - intros -> [Hmax Httl]. simpl. unfold Singleton.construct.
    destruct (Z.ltb_spec 0 (Config.maxEntries wanted)); [|lia].
    destruct (Z.leb_spec 0 (Config.defaultTtlMinutes wanted)); [|lia].
    reflexivity.
  - intros -> Hbad. simpl. unfold Singleton.construct.
    destruct (Z.ltb_spec 0 (Config.maxEntries wanted));
      [|reflexivity].
    destruct (Z.leb_spec 0 (Config.defaultTtlMinutes wanted));
      [|reflexivity].
    exfalso. apply Hbad. split; assumption.
  - intros manager ->. reflexivity.
  - destruct instance; reflexivity.
Qed.

Example singleton_samples :
  let small := Some (WorkingContext.mk None (Some 3) None None None) in
  let zero := Some (WorkingContext.mk None (Some 0) None None None) in
  let off := Some (WorkingContext.mk (Some false) None None None None) in
  Singleton.getWorkingContextManager None None
  = (inr (Some (Config.mk 20 120)), Some (Config.mk 20 120))
  ∧ Singleton.getWorkingContextManager small (Some (Config.mk 20 120))
    = (inr (Some (Config.mk 20 120)), Some (Config.mk 20 120))
  ∧ Singleton.getWorkingContextManager zero None
    = (inl ValidationError, None)
  ∧ Singleton.getWorkingContextManager off (Some (Config.mk 20 120))
    = (inr None, Some (Config.mk 20 120)).
Proof. vm_compute. repeat split. Qed.

(** ** The unused summary builder *)

Lemma append_assoc (a b c : string) : (a +:+ b) +:+ c = a +:+ (b +:+ c).
Proof.
  induction a as [|x a IH]; [reflexivity|].
  change (String x ((a +:+ b) +:+ c) = String x (a +:+ (b +:+ c))).
  rewrite IH. reflexivity.
Qed.

(** X24. [buildSummary] returns the session key in square brackets, a
    space and a body that is never empty and never longer than 180
    characters: the text without its leading and trailing white space,
    its first 177 characters and three dots when that is longer than 180,
    or the fixed sentence when there is no text or only white space. *)
Theorem buildSummary_shape (text : option string) (sessionKey : string) :
  ∃ body : string,
    buildSummary text sessionKey = "[" +:+ sessionKey +:+ "] " +:+ body
    ∧ body ≠ ""
    ∧ (String.length body ≤ 180)%nat
    ∧ String.length (buildSummary text sessionKey)
      = (String.length sessionKey + 3 + String.length body)%nat
    ∧ match text with
      | None => body = "Agent turn completed"
      | Some a =>
          ∃ t, trimmed a t
               ∧ body = if decide (t = "") then "Agent turn completed"
                        else if (String.length t <=? 180)%nat then t
                        else String.substring 0 177 t +:+ "..."
      end.
Proof.
  assert (Hshape : ∀ body,
            String.concat " " (["[" +:+ sessionKey +:+ "]"] ++ [body])
            = "[" +:+ sessionKey +:+ "] " +:+ body).
  { intros body. simpl. rewrite !append_assoc. reflexivity. }
  assert (Hlen : ∀ body,
            String.length ("[" +:+ sessionKey +:+ "] " +:+ body)
            = (String.length sessionKey + 3 + String.length body)%nat).
  { intros body. simpl. rewrite !length_append. simpl. lia. }
  assert (Hfallback : (String.length Capture.fallback ≤ 180)%nat)
    by (vm_compute; lia).
  unfold buildSummary. destruct text as [a|].
  - destruct (min1 (Capture.trim a)) eqn:Hmin.
    + apply min1_true in Hmin.
      destruct (180 <? String.length (Capture.trim a))%nat eqn:Hlong.
      * apply Nat.ltb_lt in Hlong.
        assert (Hcut : String.length
                         (String.substring 0 177 (Capture.trim a) +:+ "...")
                       = 180%nat).
        { rewrite length_append, substring_length.
          change (String.length "...") with 3%nat. lia. }
        eexists. split; [apply Hshape|]. rewrite Hshape.
        split; [intros Hempty; rewrite Hempty in Hcut; discriminate|].
        split; [lia|]. split; [apply Hlen|].
        exists (Capture.trim a). split; [apply trim_trimmed|].
        destruct (decide (Capture.trim a = "")); [contradiction|].
        rewrite (proj2 (Nat.leb_gt _ _)) by exact Hlong. reflexivity.
      * apply Nat.ltb_ge in Hlong.
        eexists. split; [apply Hshape|]. rewrite Hshape.
        split; [exact Hmin|]. split; [exact Hlong|]. split; [apply Hlen|].
        exists (Capture.trim a). split; [apply trim_trimmed|].
        destruct (decide (Capture.trim a = "")); [contradiction|].
        rewrite (proj2 (Nat.leb_le _ _)) by exact Hlong. reflexivity.
    + apply min1_false in Hmin.
      eexists. split; [apply Hshape|]. rewrite Hshape.
      split; [discriminate|]. split; [exact Hfallback|]. split; [apply Hlen|].
      exists (Capture.trim a). split; [apply trim_trimmed|].
      destruct (decide (Capture.trim a = "")); [reflexivity|contradiction].
  - eexists. split; [apply Hshape|]. rewrite Hshape.
    split; [discriminate|]. split; [exact Hfallback|]. split; [apply Hlen|].
    reflexivity.
Qed.

(** [buildSummary] on a short text, on white space and on a long text. *)
Example buildSummary_samples :
  buildSummary (Some "  Deployed the fix  ") "agent:main:dm"
  = "[agent:main:dm] Deployed the fix"
  ∧ buildSummary (Some "   ") "k" = "[k] Agent turn completed"
  ∧ buildSummary (Some (String (ascii_of_nat 160) " ")) "k"
    = "[k] Agent turn completed"
  ∧ buildSummary None "k" = "[k] Agent turn completed"
  ∧ String.length
      (buildSummary
         (Some (string_of_list_ascii (replicate 500 "a"%char))) "k")
    = 184%nat.
Proof. vm_compute. repeat split. Qed.
